(** * newmeta: aggregation, cache probing, ranking, file selection, resolve

    A shallow embedding of the parts of [index.js] and [src/premiumize.js]
    that the specification talks about, together with the theorems that
    settle each statement of the specification against the code.

    Conventions of the embedding.
    - A JavaScript string is a [string] of ASCII characters; [toLowerCase]
      and the [i] flag of a regular expression fold the letters A-Z only.
    - A property that is absent, [undefined] or the empty string is the
      empty string [Js.absent]: the code only ever tests such a value for
      truthiness (with [||], [!] and [?.]) before using it.
    - A plain object used as a dictionary is a [gmap string _];
      [Object.values] is [map_to_list] up to the order of the values, and
      all statements about it are statements about membership.
    - A number is an integer [Z]; a size is a whole number of bytes or of
      megabytes, and a comparator is used only through its sign.
    - [Array.prototype.sort] is a stable sort ([js_sort]): elements that the
      comparator does not separate keep their input order. *)

From Stdlib Require Import ZArith Ascii String List Lia Permutation.
From stdpp Require Import base option list sorting gmap strings pretty.

Open Scope string_scope.
Open Scope list_scope.
Open Scope Z_scope.

#[local] Set Warnings "-clear-no-such-hyp".

(** ** JavaScript strings *)

Module Js.

Definition lower_ascii (c : ascii) : ascii :=
  let n := nat_of_ascii c in
  if ((65 <=? n) && (n <=? 90))%nat then ascii_of_nat (n + 32) else c.

Definition chars (s : string) : list ascii := list_ascii_of_string s.
Definition text (l : list ascii) : string := string_of_list_ascii l.

(** [s.toLowerCase()] *)
Definition toLowerCase (s : string) : string :=
  text (map lower_ascii (chars s)).

(** The falsy string: the empty string, [undefined] or [null]. *)
Definition absent : string := EmptyString.

(** A value is truthy when it is a non-empty string. *)
Definition truthy (s : string) : bool :=
  match s with EmptyString => false | String _ _ => true end.

(** [a || b] on strings *)
Definition or_else (a b : string) : string := if truthy a then a else b.

Fixpoint is_prefix (p s : list ascii) : bool :=
  match p, s with
  | [], _ => true
  | a :: p', b :: s' => if Ascii.eqb a b then is_prefix p' s' else false
  | _ :: _, [] => false
  end.

(** [s.startsWith(p)] *)
Definition startsWith (s p : string) : bool := is_prefix (chars p) (chars s).

Fixpoint has_infix (p s : list ascii) : bool :=
  is_prefix p s || match s with [] => false | _ :: s' => has_infix p s' end.

(** [s.includes(p)] *)
Definition includes (s p : string) : bool := has_infix (chars p) (chars s).

(** Number of pieces of [s.split(sep)] for a one-character separator. *)
Definition split_count (sep : ascii) (s : string) : nat :=
  S (length (filter (λ c, c = sep) (chars s))).

Definition is_space (c : ascii) : bool :=
  let n := nat_of_ascii c in
  ((9 <=? n) && (n <=? 13) || (n =? 32))%nat.

Definition is_digit (c : ascii) : bool :=
  let n := nat_of_ascii c in ((48 <=? n) && (n <=? 57))%nat.

Definition is_line_end (c : ascii) : bool :=
  let n := nat_of_ascii c in ((n =? 10) || (n =? 13))%nat.

Fixpoint drop_spaces (l : list ascii) : list ascii :=
  match l with
  | c :: l' => if is_space c then drop_spaces l' else l
  | [] => []
  end.

(** [s.trim()] *)
Definition trim (s : string) : string :=
  text (rev (drop_spaces (rev (drop_spaces (chars s))))).

Fixpoint first_line_chars (l : list ascii) : list ascii :=
  match l with
  | c :: l' => if (nat_of_ascii c =? 10)%nat then [] else c :: first_line_chars l'
  | [] => []
  end.

(** [s.split('\n')[0]] *)
Definition first_line (s : string) : string := text (first_line_chars (chars s)).

(** [s.slice(n)] *)
Definition skip (n : nat) (s : string) : string := text (drop n (chars s)).

Fixpoint after_last_chars (sep : ascii) (acc l : list ascii) : list ascii :=
  match l with
  | [] => acc
  | c :: l' =>
      if Ascii.eqb c sep then after_last_chars sep l' l'
      else after_last_chars sep acc l'
  end.

(** [s.split(sep).pop()] for a one-character separator *)
Definition after_last (sep : ascii) (s : string) : string :=
  text (after_last_chars sep (chars s) (chars s)).

Fixpoint leading_digits (l : list ascii) : list ascii :=
  match l with
  | c :: l' => if is_digit c then c :: leading_digits l' else []
  | [] => []
  end.

(** The digits a text ends with, and the text in front of them. *)
Definition trailing_digits (l : list ascii) : list ascii :=
  rev (leading_digits (rev l)).

Definition before_trailing_digits (l : list ascii) : list ascii :=
  take (length l - length (trailing_digits l)) l.

(** [parseInt] of a run of digits *)
Definition parseDigits (l : list ascii) : nat :=
  foldl (λ n c, (10 * n + (nat_of_ascii c - 48))%nat) 0%nat l.

(** [n.toString()] for a non-negative integer *)
Definition toString (n : nat) : string := pretty n.

(** [s.padStart(2, '0')] *)
Definition padStart2 (s : string) : string :=
  match s with
  | EmptyString => "00"
  | String c EmptyString => String "0" (String c EmptyString)
  | _ => s
  end.

End Js.

(** ** Regular expressions

    A backtracking matcher with the priorities of the JavaScript one:
    [run r s] lists, in the order JavaScript tries them, the remainders of
    [s] after a match of [r] at its start. *)

Module Re.

Inductive regex : Type :=
| Empty
| Class (p : ascii → bool)
| Cat (r1 r2 : regex)
| Or (r1 r2 : regex)
| Many (r : regex)
| Eoi.

Fixpoint run (r : regex) (s : list ascii) : list (list ascii) :=
  match r with
  | Empty => [s]
  | Class p =>
      match s with
      | c :: s' => if p c then [s'] else []
      | [] => []
      end
  | Cat r1 r2 => flat_map (run r2) (run r1 s)
  | Or r1 r2 => run r1 s ++ run r2 s
  | Many r1 =>
      (fix loop (n : nat) (s : list ascii) {struct n} : list (list ascii) :=
         match n with
         | O => [s]
         | S n' =>
             flat_map (loop n')
               (filter (λ s', (length s' < length s)%nat) (run r1 s)) ++ [s]
         end) (length s) s
  | Eoi => match s with [] => [[]] | _ :: _ => [] end
  end.

(** Leftmost match: the matched text, [match(r)[0]]. *)
Fixpoint search (r : regex) (s : list ascii) : option (list ascii) :=
  match run r s with
  | rest :: _ => Some (take (length s - length rest)%nat s)
  | [] =>
      match s with
      | [] => None
      | _ :: s' => search r s'
      end
  end.

Definition exec (r : regex) (s : string) : option string :=
  Js.text <$> search r (Js.chars s).

(** [r.test(s)] *)
Definition test (r : regex) (s : string) : bool :=
  bool_decide (is_Some (exec r s)).

(** Building blocks; all patterns of the program carry the [i] flag. *)
Definition chr (c : ascii) : regex :=
  Class (λ x, Ascii.eqb (Js.lower_ascii x) (Js.lower_ascii c)).

Fixpoint lit_chars (l : list ascii) : regex :=
  match l with
  | [] => Empty
  | [c] => chr c
  | c :: l' => Cat (chr c) (lit_chars l')
  end.

Definition lit (s : string) : regex := lit_chars (Js.chars s).

Definition opt (r : regex) : regex := Or r Empty.
Definition plus (r : regex) : regex := Cat r (Many r).
Definition digit : regex := Class Js.is_digit.
Definition non_digit : regex := Class (λ c, negb (Js.is_digit c)).
Definition space : regex := Class Js.is_space.
Definition dot : regex := Class (λ c, negb (Js.is_line_end c)).

Definition is_hex (c : ascii) : bool :=
  let n := nat_of_ascii (Js.lower_ascii c) in
  Js.is_digit c || ((97 <=? n) && (n <=? 102))%nat.

Fixpoint alt (rs : list regex) : regex :=
  match rs with
  | [] => Class (λ _, false)
  | [r] => r
  | r :: rs' => Or r (alt rs')
  end.

Fixpoint seq (rs : list regex) : regex :=
  match rs with
  | [] => Empty
  | [r] => r
  | r :: rs' => Cat r (seq rs')
  end.

End Re.

(** ** [Array.prototype.sort]

    The comparator returns a number; only its sign is used.  The sort is
    stable: [insert] puts an element in front of the first element it does
    not have to follow, and [js_sort] inserts from the right, so that of two
    elements the comparator does not separate the earlier one stays first. *)

Module Sort.
Section Sort.
Context {A : Type} (cmp : A → A → Z).

Fixpoint insert (x : A) (l : list A) : list A :=
  match l with
  | [] => [x]
  | y :: l' => if cmp x y <=? 0 then x :: l else y :: insert x l'
  end.

Definition js_sort (l : list A) : list A := foldr insert [] l.

(** [a] may stand before [b]. *)
Definition before (a b : A) : Prop := cmp a b <= 0.

End Sort.
End Sort.

(** ** Ranker ([index.js]) *)

Module Ranker.

(** The objects pushed on [formattedStreams] by the stream endpoint;
    [quality] and [size] are the numbers [parseQuality] and [parseSize]
    gave for the file name. *)
Record FormattedStream : Type := {
  name : string;
  title : string;
  url : string;
  service : string;
  quality : Z;
  size : Z
}.

(** The comparator of the endpoint's final sort. *)
Definition cmpFinal (a b : FormattedStream) : Z :=
  if negb (quality a =? quality b) then quality b - quality a
  else size b - size a.

(** [formattedStreams.sort(...).slice(0, 50)] *)
Definition sortedStreams (formattedStreams : list FormattedStream)
  : list FormattedStream :=
  take 50 (Sort.js_sort cmpFinal formattedStreams).

(** [sortStreams] and its ideal size ranges, in MB; [max = None] is
    [Infinity]. *)
Record Range : Type := { min : Z; max : option Z }.

Definition idealSizeRanges (q : Z) : option Range :=
  if q =? 2160 then Some {| min := 10000; max := Some 80000 |}
  else if q =? 1080 then Some {| min := 2000; max := Some 16000 |}
  else if q =? 720 then Some {| min := 1000; max := Some 8000 |}
  else if q =? 480 then Some {| min := 500; max := Some 4000 |}
  else None.

Definition idealRange (q : Z) : Range :=
  default {| min := 0; max := None |} (idealSizeRanges q).

Definition within_max (size : Z) (range : Range) : bool :=
  match max range with
  | Some m => size <=? m
  | None => true
  end.

Definition getIdealScore (size : Z) (range : Range) : Z :=
  if (min range <=? size) && within_max size range then 0
  else if size <? min range then min range - size
  else match max range with
       | Some m => size - m
       | None => 0 (* not reached: every size is below Infinity *)
       end.

Section SortStreams.
(** [parseQuality] and [parseSize] live in [src/util.js]. *)
Variables parseQuality parseSize : string → Z.

Definition cmpStreams (a b : FormattedStream) : Z :=
  let qualityA := parseQuality (name a) in
  let qualityB := parseQuality (name b) in
  let sizeA := parseSize (name a) in
  let sizeB := parseSize (name b) in
  if negb (qualityA =? qualityB) then qualityB - qualityA
  else
    let range := idealRange qualityA in
    let scoreA := getIdealScore sizeA range in
    let scoreB := getIdealScore sizeB range in
    if negb (scoreA =? scoreB) then scoreA - scoreB
    else sizeB - sizeA.

Definition sortStreams (streams : list FormattedStream) : list FormattedStream :=
  Sort.js_sort cmpStreams streams.

(** The order [sortStreams] sorts by, on what is parsed from the names. *)
Definition parsedDistance (s : FormattedStream) : Z :=
  getIdealScore (parseSize (name s)) (idealRange (parseQuality (name s))).

Definition parsed_before (a b : FormattedStream) : Prop :=
  parseQuality (name b) < parseQuality (name a) ∨
  (parseQuality (name a) = parseQuality (name b) ∧
   (parsedDistance a < parsedDistance b ∨
    (parsedDistance a = parsedDistance b ∧
     parseSize (name b) <= parseSize (name a)))).

End SortStreams.

(** The order of the final response as the specification words it:
    quality tier descending, then distance to the ideal band ascending,
    then size descending. *)
Definition distance (s : FormattedStream) : Z :=
  getIdealScore (size s) (idealRange (quality s)).

Definition banded_before (a b : FormattedStream) : Prop :=
  quality b < quality a ∨
  (quality a = quality b ∧
   (distance a < distance b ∨ (distance a = distance b ∧ size b <= size a))).

(** The order the endpoint sorts by: quality descending, then size
    descending. *)
Definition final_before (a b : FormattedStream) : Prop :=
  quality b < quality a ∨ (quality a = quality b ∧ size b <= size a).

(** The sort key of the endpoint's comparator. *)
Definition final_key (s : FormattedStream) : Z * Z := (quality s, size s).

Definition cmpKey (a b : Z * Z) : Z :=
  if negb (a.1 =? b.1) then b.1 - a.1 else b.2 - a.2.

End Ranker.

(** ** Source aggregator ([getStreams] in [index.js]) *)

Module Aggregator.

(** One result of a backend, already tagged with its source name. *)
Record RawStream : Type := {
  raw_title : string;
  raw_filename : string;
  raw_magnetLink : string;
  raw_quality : string;
  raw_size : string;
  raw_source : string
}.

(** An element of the array [Promise.allSettled] resolves to. *)
Inductive Settled : Type :=
| Fulfilled (value : list RawStream)
| Rejected.

Record Candidate : Type := {
  hash : string;
  magnetLink : string;
  filename : string;
  websiteTitle : string;
  quality : string;
  size : string;
  source : string
}.

(** [/btih:([a-f0-9]+)/i] *)
Definition re_btih : Re.regex :=
  Re.seq [Re.lit "btih:"; Re.plus (Re.Class Re.is_hex)].

(** [/\d{3,4}p|4k|uhd|HDTS|CAM/i] *)
Definition re_quality : Re.regex :=
  Re.alt [Re.seq [Re.digit; Re.digit; Re.digit; Re.opt Re.digit; Re.lit "p"];
          Re.lit "4k"; Re.lit "uhd"; Re.lit "HDTS"; Re.lit "CAM"].

(** [/\d+(\.\d+)?\s*(GB|MB)/i] *)
Definition re_size : Re.regex :=
  Re.seq [Re.plus Re.digit;
          Re.opt (Re.seq [Re.lit "."; Re.plus Re.digit]);
          Re.Many Re.space;
          Re.alt [Re.lit "GB"; Re.lit "MB"]].

(** [magnetLink.match(/btih:([a-f0-9]+)/i)?.[1]?.toLowerCase()] *)
Definition extractHash (magnetLink : string) : option string :=
  (λ m, Js.toLowerCase (Js.skip 5 m)) <$> Re.exec re_btih magnetLink.

(** [text?.match(r)?.[0]], absent when there is no match *)
Definition match0 (r : Re.regex) (text : string) : string :=
  default Js.absent (Re.exec r text).

Definition normalize (hash : string) (stream : RawStream) : Candidate :=
  let quality := Js.or_else (raw_quality stream) (match0 re_quality (raw_title stream)) in
  let size := Js.or_else (raw_size stream) (match0 re_size (raw_title stream)) in
  let filename :=
    Js.or_else (raw_filename stream)
      (Js.or_else (Js.trim (Js.first_line (raw_title stream))) "Unknown") in
  {| hash := hash;
     magnetLink := raw_magnetLink stream;
     filename := filename;
     websiteTitle := Js.or_else (raw_title stream) filename;
     quality := quality;
     size := size;
     source := Js.or_else (raw_source stream) "Unknown" |}.

(** The state of the two loops: [seenMagnets] and [combinedResults]. *)
Definition Acc : Type := gset string * list Candidate.

(** The body of the inner [forEach]. *)
Definition visit (acc : Acc) (stream : RawStream) : Acc :=
  if negb (Js.truthy (raw_magnetLink stream)) then acc
  else
    match extractHash (raw_magnetLink stream) with
    | None => acc
    | Some hash =>
        if negb (Js.truthy hash) || bool_decide (hash ∈ acc.1) then acc
        else ({[hash]} ∪ acc.1, acc.2 ++ [normalize hash stream])
    end.

(** The body of the outer [forEach]. *)
Definition visitResult (acc : Acc) (result : Settled) : Acc :=
  match result with
  | Fulfilled value => foldl visit acc value
  | Rejected => acc
  end.

Definition combine (allResults : list Settled) : list Candidate :=
  (foldl visitResult (∅, []) allResults).2.

(** [getStreams] after the requests: [raced] is what the race between
    [Promise.allSettled] and the 12 s timer gave, [None] when the timer
    won (the rejection is caught and [[]] returned). *)
Definition getStreams (raced : option (list Settled)) : list Candidate :=
  match raced with
  | Some allResults => combine allResults
  | None => []
  end.

(** The candidates in processing order. *)
Definition processed (allResults : list Settled) : list RawStream :=
  flat_map (λ r, match r with Fulfilled v => v | Rejected => [] end) allResults.

(** The info-hash of a candidate, when its magnet link has one. *)
Definition hashOf (stream : RawStream) : option string :=
  if Js.truthy (raw_magnetLink stream) then
    match extractHash (raw_magnetLink stream) with
    | Some h => if Js.truthy h then Some h else None
    | None => None
    end
  else None.

(** [N]: the candidates that carry a recoverable hash. *)
Definition countHashed (l : list RawStream) : nat :=
  length (omap hashOf l).

(** [M]: the candidates whose hash an earlier candidate carries too. *)
Fixpoint countRepeated (seen : gset string) (l : list RawStream) : nat :=
  match l with
  | [] => 0
  | s :: l' =>
      match hashOf s with
      | Some h =>
          if bool_decide (h ∈ seen) then S (countRepeated seen l')
          else countRepeated ({[h]} ∪ seen) l'
      | None => countRepeated seen l'
      end
  end.

(** What the two loops add to [combinedResults] when started with the set
    [seen]: the candidates whose hash is new when they are visited. *)
Fixpoint survivors (seen : gset string) (l : list RawStream) : list Candidate :=
  match l with
  | [] => []
  | s :: l' =>
      match hashOf s with
      | Some h =>
          if bool_decide (h ∈ seen) then survivors seen l'
          else normalize h s :: survivors ({[h]} ∪ seen) l'
      | None => survivors seen l'
      end
  end.

(** The first candidate of [l] with hash [h]. *)
Definition firstWith (h : string) (l : list RawStream) : option RawStream :=
  List.find (λ s, bool_decide (hashOf s = Some h)) l.

End Aggregator.

(** ** The Premiumize adapter ([src/premiumize.js]) *)

Module Premiumize.

(** *** File selection *)

Record FileEntry : Type := {
  path : string;
  size : Z;
  link : string;
  stream_link : string;
  isVideo : bool;
  isSubtitle : bool;
  extension : string
}.

(** An element of [data.content] of the DirectDL answer. *)
Record ContentFile : Type := {
  content_path : string;
  content_size : Z;
  content_link : string;
  content_stream_link : string
}.

(** [/\.(mkv|mp4|avi|mov|wmv|m4v|webm)$/i] *)
Definition re_video : Re.regex :=
  Re.seq [Re.lit ".";
          Re.alt (Re.lit <$> ["mkv"; "mp4"; "avi"; "mov"; "wmv"; "m4v"; "webm"]);
          Re.Eoi].

(** [/\.(srt|sub|ass|ssa|vtt)$/i] *)
Definition re_subtitle : Re.regex :=
  Re.seq [Re.lit ".";
          Re.alt (Re.lit <$> ["srt"; "sub"; "ass"; "ssa"; "vtt"]);
          Re.Eoi].

(** The map of [getFileList]. *)
Definition toFileEntry (file : ContentFile) : FileEntry :=
  {| path := content_path file;
     size := content_size file;
     link := content_link file;
     stream_link := Js.or_else (content_stream_link file) (content_link file);
     isVideo := Re.test re_video (content_path file);
     isSubtitle := Re.test re_subtitle (content_path file);
     extension := Js.toLowerCase (Js.after_last "." (content_path file)) |}.

(** Bytes in a megabyte: [file.size / (1024 * 1024) > n] is
    [n * MB < file.size] for a whole number of bytes. *)
Definition MB : Z := 1024 * 1024.

Definition badKeywords : list string :=
  ["sample"; "trailer"; "preview"; "extras"; "bonus";
   "deleted"; "behind"; "making"; "interview"; "featurette"].

Definition scoreMovieFile (file : FileEntry) : Z :=
  let filename := Js.toLowerCase (path file) in
  let score := 100 in
  let score := if 500 * MB <? size file then score + 300 else score in
  let score := if 1000 * MB <? size file then score + 200 else score in
  let score := if 2000 * MB <? size file then score + 150 else score in
  let score := if 5000 * MB <? size file then score + 100 else score in
  let score :=
    if existsb (λ kw, Js.includes filename kw) badKeywords
    then score - 800 else score in
  let score := if String.eqb (extension file) "mkv" then score + 50 else score in
  let score := if String.eqb (extension file) "mp4" then score + 40 else score in
  let pathDepth := Js.split_count "/" (path file) in
  let score := if (pathDepth <=? 2)%nat then score + 100 else score in
  score.

(** [{...file, score}] *)
Record Scored : Type := { file : FileEntry; score : Z }.

Definition findBestMovieFile (files : list FileEntry) : option Scored :=
  let videoFiles := List.filter isVideo files in
  if (length videoFiles =? 0)%nat then None
  else
    let scored :=
      (λ f, {| file := f; score := scoreMovieFile f |}) <$> videoFiles in
    head (Sort.js_sort (λ a b, score b - score a) scored).



(** [n.toString().padStart(2, '0')] *)
Definition pad2 (n : nat) : string := Js.padStart2 (Js.toString n).

(** [[.\-\s]] *)
Definition separator : Re.regex :=
  Re.Class (λ c, Ascii.eqb c "." || Ascii.eqb c "-" || Js.is_space c).

Definition episodePatterns (targetSeason targetEpisode : nat) : list Re.regex :=
  [ Re.seq [Re.lit "s"; Re.lit (pad2 targetSeason); Re.opt separator;
            Re.lit "e"; Re.lit (pad2 targetEpisode); Re.non_digit];
    Re.seq [Re.lit "s"; Re.lit (Js.toString targetSeason);
            Re.lit "e"; Re.lit (Js.toString targetEpisode)];
    Re.seq [Re.lit "season"; Re.Many Re.space; Re.lit (Js.toString targetSeason);
            Re.Many Re.dot; Re.lit "episode"; Re.Many Re.space;
            Re.lit (Js.toString targetEpisode)];
    Re.seq [Re.lit (Js.toString targetSeason); Re.lit "x";
            Re.lit (pad2 targetEpisode)];
    Re.seq [Re.non_digit; Re.lit (Js.toString targetSeason);
            Re.lit (pad2 targetEpisode); Re.non_digit] ].

Definition loosePatterns (targetSeason targetEpisode : nat) : list Re.regex :=
  [ Re.seq [Re.lit "s"; Re.lit (pad2 targetSeason); Re.Many Re.dot;
            Re.lit "e"; Re.lit (pad2 targetEpisode)];
    Re.seq [Re.lit "season"; Re.Many Re.dot; Re.lit (Js.toString targetSeason);
            Re.Many Re.dot; Re.lit "episode"; Re.Many Re.dot;
            Re.lit (Js.toString targetEpisode)] ].

Definition seasonPattern (targetSeason : nat) : Re.regex :=
  Re.Or (Re.seq [Re.lit "season"; Re.Many Re.space;
                 Re.lit (Js.toString targetSeason)])
        (Re.seq [Re.lit "s"; Re.lit (pad2 targetSeason)]).

(** [/sample|trailer/i] *)
Definition re_sample : Re.regex := Re.Or (Re.lit "sample") (Re.lit "trailer").

(** Some pattern of the list hits the lower-cased path. *)
Definition hits (patterns : list Re.regex) (f : FileEntry) : bool :=
  existsb (λ pattern, Re.test pattern (Js.toLowerCase (path f))) patterns.

Definition is_sample (f : FileEntry) : bool :=
  Re.test re_sample (Js.toLowerCase (path f)).

(** First pass. *)
Definition exactMatch (videoFiles : list FileEntry) (s e : nat) : option FileEntry :=
  List.find (hits (episodePatterns s e)) videoFiles.

(** Second pass. *)
Definition looseMatch (videoFiles : list FileEntry) (s e : nat) : option FileEntry :=
  List.find (λ f, negb (is_sample f) && hits (loosePatterns s e) f) videoFiles.

(** [seasonPackFiles.reduce((largest, file) =>
      file.size > largest.size ? file : largest)] *)
Definition largest (first : FileEntry) (rest : list FileEntry) : FileEntry :=
  foldl (λ largest file, if size largest <? size file then file else largest)
        first rest.

(** Third pass. *)
Definition seasonPack (videoFiles : list FileEntry) (s : nat) : option FileEntry :=
  let seasonPackFiles :=
    List.filter (λ f, Re.test (seasonPattern s) (Js.toLowerCase (path f))
                      && negb (is_sample f)) videoFiles in
  match seasonPackFiles with
  | first :: rest => Some (largest first rest)
  | [] => None
  end.

Definition findEpisodeFile (files : list FileEntry)
    (targetSeason targetEpisode : nat) : option FileEntry :=
  let videoFiles := List.filter isVideo files in
  match exactMatch videoFiles targetSeason targetEpisode with
  | Some file => Some file
  | None =>
      match looseMatch videoFiles targetSeason targetEpisode with
      | Some file => Some file
      | None => seasonPack videoFiles targetSeason
      end
  end.

(** [x] is the first element of [l] that satisfies [P]. *)
Definition firstWhere {A : Type} (P : A → bool) (l : list A) (x : A) : Prop :=
  ∃ l1 l2, l = l1 ++ x :: l2 ∧ P x = true ∧ Forall (λ y, P y = false) l1.

(** The tests of the three passes. *)
Definition exactly (s e : nat) (f : FileEntry) : bool :=
  hits (episodePatterns s e) f.

Definition loosely (s e : nat) (f : FileEntry) : bool :=
  negb (is_sample f) && hits (loosePatterns s e) f.

Definition inSeason (s : nat) (f : FileEntry) : bool :=
  Re.test (seasonPattern s) (Js.toLowerCase (path f)) && negb (is_sample f).

(** *** Batched cache check *)

Definition batchSize : nat := 99.

(** [GET /cache/check?items[]=h1&items[]=h2...] *)
Inductive Request : Type :=
| CacheCheck (items : list string).

(** The JSON body of an answer; [response] is [None] when the field is
    missing, and an element [None] is a value that is not a boolean. *)
Record ApiData : Type := {
  status : string;
  message : string;
  response : option (list (option bool))
}.

(** What one [fetch] followed by [response.json()] does. *)
Inductive FetchOutcome : Type :=
| FetchFails (error : string)
| Json (data : ApiData).

(** The provider: its answer to a request, given the requests sent before. *)
Definition Api : Type := list Request → Request → FetchOutcome.

Inductive Result (A : Type) : Type :=
| Ok (a : A)
| Throws (error : string).
Arguments Ok {A} a.
Arguments Throws {A} error.

(** [ERROR.INVALID_API_KEY] of [src/const.js] *)
Definition INVALID_API_KEY : string := "Invalid API key".

(** The retry loop of [makeRequest]: [retries] attempts are left, [log] is
    the list of requests sent so far, oldest first. *)
Fixpoint attempt (api : Api) (retries : nat) (req : Request)
    (lastError : string) (log : list Request) : Result ApiData * list Request :=
  match retries with
  | O => (Throws lastError, log)
  | S retries' =>
      let log' := log ++ [req] in
      match api log req with
      | Json data =>
          if String.eqb (status data) "error" then
            let error :=
              if String.eqb (message data) "Invalid API key." then INVALID_API_KEY
              else String.append "API Error: " (message data) in
            attempt api retries' req error log'
          else (Ok data, log')
      | FetchFails error => attempt api retries' req error log'
      end
  end.

Definition makeRequest (api : Api) (req : Request) (log : list Request)
  : Result ApiData * list Request :=
  attempt api 3 req Js.absent log.

(** An entry of the returned mapping; [cached = None] is [undefined]. *)
Record CacheStatus : Type := {
  cached : option bool;
  files : list FileEntry;
  fileCount : Z;
  service : string
}.

Definition statusOf (flag : option bool) : CacheStatus :=
  {| cached := flag; files := []; fileCount := 0; service := "Premiumize" |}.

(** [hashes.slice(i, i + batchSize)] *)
Definition slice (i j : nat) (hashes : list string) : list string :=
  take (j - i) (drop i hashes).

(** The first loop: [fuel] bounds the number of iterations, and
    [length hashes] iterations are enough since [i] grows by 99 each time. *)
Fixpoint batchesFrom (fuel i : nat) (hashes : list string) : list (list string) :=
  match fuel with
  | O => []
  | S fuel' =>
      if (i <? length hashes)%nat
      then slice i (i + batchSize) hashes :: batchesFrom fuel' (i + batchSize) hashes
      else []
  end.

Definition makeBatches (hashes : list string) : list (list string) :=
  batchesFrom (length hashes) 0 hashes.

(** [batch.forEach((hash, index) => results[hash] = {...})]; reading
    [data.response[index]] throws when [data.response] is missing. *)
Definition assign (flags : list (option bool))
    (results : gmap string CacheStatus) (ih : nat * string)
  : gmap string CacheStatus :=
  <[ih.2 := statusOf (mjoin (flags !! ih.1))]> results.

Definition stored (flags : list (option bool)) (batch : list string)
    (results : gmap string CacheStatus) : gmap string CacheStatus :=
  foldl (assign flags) results (imap pair batch).

Definition storeBatch (data : ApiData) (batch : list string)
    (results : gmap string CacheStatus) : Result (gmap string CacheStatus) :=
  match response data, batch with
  | Some flags, _ => Ok (stored flags batch results)
  | None, [] => Ok results
  | None, _ :: _ => Throws "Cannot read properties of undefined"
  end.

(** The second loop. *)
Fixpoint checkBatches (api : Api) (batches : list (list string))
    (results : gmap string CacheStatus) (log : list Request)
  : Result (gmap string CacheStatus) * list Request :=
  match batches with
  | [] => (Ok results, log)
  | batch :: rest =>
      match makeRequest api (CacheCheck batch) log with
      | (Ok data, log') =>
          match storeBatch data batch results with
          | Ok results' => checkBatches api rest results' log'
          | Throws error => (Throws error, log')
          end
      | (Throws error, log') => (Throws error, log')
      end
  end.

(** The mapping returned, and the requests sent. *)
Definition checkCacheStatuses (api : Api) (hashes : list string)
    (log : list Request) : gmap string CacheStatus * list Request :=
  match checkBatches api (makeBatches hashes) ∅ log with
  | (Ok results, log') => (results, log')
  | (Throws _, log') => (∅, log')
  end.

End Premiumize.

(** ** Cache prober ([checkCacheStatuses] and the stream endpoint, [index.js]) *)

Module Prober.

(** [service.checkCacheStatuses(hashes)]: the mapping returned, or [None]
    when the call throws. *)
Definition Provider : Type :=
  list string → option (gmap string Premiumize.CacheStatus).

(** An entry of [cacheMap]: the provider's fields ([...result]) and the
    fields written over them. *)
Record Entry : Type := {
  files : list Premiumize.FileEntry;
  fileCount : Z;
  service : string;
  hash : string;
  magnetLink : string;
  filename : string;
  websiteTitle : string;
  quality : string;
  size : string;
  source : string;
  cached : bool
}.

(** [streams.filter(stream => stream && stream.hash)]; a [None] element
    is [null]. *)
Definition validStreams (streams : list (option Aggregator.Candidate))
  : list Aggregator.Candidate :=
  omap (λ stream,
          match stream with
          | Some c => if Js.truthy (Aggregator.hash c) then Some c else None
          | None => None
          end) streams.

Definition lowerHash (stream : Aggregator.Candidate) : string :=
  Js.toLowerCase (Aggregator.hash stream).

(** The object stored at [cacheMap[hash]]. *)
Definition entryOf (stream : Aggregator.Candidate)
    (result : Premiumize.CacheStatus) : Entry :=
  let quality :=
    Js.or_else (Aggregator.quality stream)
      (Aggregator.match0 Aggregator.re_quality (Aggregator.filename stream)) in
  let size :=
    Js.or_else (Aggregator.size stream)
      (Aggregator.match0 Aggregator.re_size (Aggregator.filename stream)) in
  {| files := Premiumize.files result;
     fileCount := Premiumize.fileCount result;
     service := Premiumize.service result;
     hash := lowerHash stream;
     magnetLink := Aggregator.magnetLink stream;
     filename := Js.or_else (Aggregator.filename stream) "Unknown";
     websiteTitle :=
       Js.or_else (Aggregator.websiteTitle stream)
         (Js.or_else (Aggregator.filename stream) "Unknown");
     quality := quality;
     size := size;
     source := Js.or_else (Aggregator.source stream) "Unknown";
     cached := negb (bool_decide (Premiumize.cached result = Some false)) |}.

(** The body of [validStreams.forEach]. *)
Definition record (results : gmap string Premiumize.CacheStatus)
    (cacheMap : gmap string Entry) (stream : Aggregator.Candidate)
  : gmap string Entry :=
  if negb (Js.truthy (Aggregator.hash stream)) then cacheMap
  else
    match results !! lowerHash stream with
    | None => cacheMap
    | Some result => <[lowerHash stream := entryOf stream result]> cacheMap
    end.

Definition checkCacheStatuses (service : Provider)
    (streams : list (option Aggregator.Candidate)) : gmap string Entry :=
  if (length streams =? 0)%nat then ∅
  else
    let valid := validStreams streams in
    if (length valid =? 0)%nat then ∅
    else
      match service (lowerHash <$> valid) with
      | Some results => foldl (record results) ∅ valid
      | None => ∅
      end.

(** [{ stream, service: serviceName, hash: stream.hash.toLowerCase() }] *)
Record ServiceStream : Type := {
  stream : Entry;
  serviceName : string;
  streamHash : string
}.

(** [Object.values(cacheMap).filter(...).map(...)] *)
Definition serviceStreams (name : string) (cacheMap : gmap string Entry)
  : list ServiceStream :=
  (λ e, {| stream := e; serviceName := name;
           streamHash := Js.toLowerCase (hash e) |})
    <$> List.filter (λ e, Js.truthy (hash e) && cached e)
          ((map_to_list cacheMap).*2).

(** The streams one provider contributes to the response. *)
Definition probe (name : string) (service : Provider)
    (streams : list (option Aggregator.Candidate)) : list ServiceStream :=
  serviceStreams name (checkCacheStatuses service streams).

End Prober.

(** ** Resolve handler ([app.get('/:apiKeys/:encodedData')] in [index.js]) *)

Module Resolver.

(** A thrown value: an object, whose [message] may be missing, or [null]. *)
Inductive Thrown : Type :=
| ErrorObject (message : option string)
| NullValue.

Definition error (message : string) : Thrown := ErrorObject (Some message).

(** Reading a property of [null] or [undefined]. *)
Definition typeError : Thrown := error "Cannot read properties".

(** What a call of a provider method does; [Returns Js.absent] is a falsy
    value. *)
Inductive Outcome : Type :=
| Returns (streamUrl : string)
| Raises (thrown : Thrown).

(** The class a service is an instance of. *)
Inductive Kind : Type := RealDebrid | TorBox | Premiumize | OtherDebrid.

(** A configured service; the arguments of the methods are the magnet
    link, the type when it is passed, the season and the episode. *)
Record Service : Type := {
  constructorName : string;
  kind : Kind;
  getStreamUrl : string → option string → option nat → option nat → Outcome;
  getCachedUrl : string → option string → option nat → option nat → Outcome
}.

(** An entry of a fallback list of [streamCache]. *)
Record FallbackEntry : Type := {
  hash : string;
  magnetLink : string;
  filename : string;
  websiteTitle : string;
  quality : string;
  size : string;
  source : string;
  service : string
}.

Inductive Response : Type :=
| Redirect (url : string)
| JsonError (status : nat) (error : string) (details : option string).

(** The handler answers, or a thrown value escapes it. *)
Inductive Handled : Type :=
| Sent (response : Response)
| Uncaught (thrown : Thrown).

(** Control inside the [try] block. *)
Inductive Flow (A : Type) : Type :=
| Go (a : A)
| Stop (response : Response)
| Raise (thrown : Thrown).
Arguments Go {A} a.
Arguments Stop {A} response.
Arguments Raise {A} thrown.

Definition bind {A B : Type} (m : Flow A) (k : A → Flow B) : Flow B :=
  match m with
  | Go a => k a
  | Stop r => Stop r
  | Raise t => Raise t
  end.

(** What [encodedData] decodes to: the JSON object of the new format,
    the bare magnet link of the old one, or nothing when [base64Decode]
    throws. *)
Inductive Decoded : Type :=
| NewFormat (magnetLink cacheKey : string)
| Legacy (magnetLink : string)
| Undecodable (message : string).

(** [magnetLink] and [cacheKey] after the inner [try]; the cache key stays
    [undefined] in the old format. *)
Definition decodedFields (decoded : Decoded) : string * string + string :=
  match decoded with
  | NewFormat magnetLink cacheKey => inl (magnetLink, cacheKey)
  | Legacy magnetLink => inl (magnetLink, Js.absent)
  | Undecodable message => inr message
  end.

(** [ERROR.NOT_PREMIUM] of [src/const.proxied.js] *)
Definition NOT_PREMIUM : string := "NOT_PREMIUM".

Definition truthyNumber (n : option nat) : bool :=
  match n with
  | Some (S _) => true
  | _ => false
  end.

(** [/series-.*-s(\d+)e(\d+)/i]: the text matched ends with the digits of
    the second group, which follow the [e] that follows the digits of the
    first. *)
Definition re_cacheKey : Re.regex :=
  Re.seq [Re.lit "series-"; Re.Many Re.dot; Re.lit "-s"; Re.plus Re.digit;
          Re.lit "e"; Re.plus Re.digit].

Definition seasonEpisode (cacheKey : string) : option (nat * nat) :=
  match Re.search re_cacheKey (Js.chars cacheKey) with
  | Some m =>
      let episode := Js.trailing_digits m in
      let front := Js.before_trailing_digits m in
      let season := Js.trailing_digits (take (length front - 1) front) in
      Some (Js.parseDigits season, Js.parseDigits episode)
  | None => None
  end.

(** [contentType], [season] and [episode] as read from the cache key. *)
Definition contentOf (cacheKey : string) : string * option nat * option nat :=
  if Js.truthy cacheKey && Js.startsWith cacheKey "series-" then
    match seasonEpisode cacheKey with
    | Some (season, episode) => ("series", Some season, Some episode)
    | None => ("movie", None, None)
    end
  else ("movie", None, None).

Section Handler.
(** [extractInfoHash] and [parseQuality] live in [src/util.js]. *)
Variable extractInfoHash : string → option string.
Variable parseQuality : string → Z.

Definition getValidStreamingUrl (service : Service) (magnetLink hash type : string)
    (season episode : option nat) : Outcome :=
  let called :=
    match kind service with
    | RealDebrid => getCachedUrl service magnetLink (Some type) season episode
    | TorBox => getStreamUrl service magnetLink None None None
    | Premiumize => getStreamUrl service magnetLink (Some type) season episode
    | OtherDebrid => getStreamUrl service magnetLink None None None
    end in
  match called with
  | Returns streamUrl =>
      if negb (Js.truthy streamUrl) || negb (Js.startsWith streamUrl "http")
      then Returns Js.absent
      else Returns streamUrl
  | Raises (ErrorObject (Some message)) => Returns Js.absent
  | Raises (ErrorObject None) => Raises typeError
  | Raises NullValue => Raises typeError
  end.

(** A [try { ... if (streamUrl) return res.redirect(streamUrl) }
    catch (error) { console.log(error.message); continue }] block. *)
Definition guarded (called : Outcome) : Flow unit :=
  match called with
  | Returns streamUrl => if Js.truthy streamUrl then Stop (Redirect streamUrl) else Go tt
  | Raises (ErrorObject _) => Go tt
  | Raises NullValue => Raise typeError
  end.

(** The body of a [for (const service of debridServices)] loop. *)
Definition tryService (magnetLink hash contentType : string)
    (season episode : option nat) (service : Service) : Flow unit :=
  let serviceName := Js.or_else (constructorName service) "UnknownDebrid" in
  if String.eqb serviceName "Premiumize" && String.eqb contentType "series"
     && truthyNumber season && truthyNumber episode
  then guarded (getStreamUrl service magnetLink (Some contentType) season episode)
  else if String.eqb serviceName "Premiumize"
  then guarded (getStreamUrl service magnetLink (Some "movie") None None)
  else
    match getValidStreamingUrl service magnetLink hash contentType season episode with
    | Returns streamUrl => if Js.truthy streamUrl then Stop (Redirect streamUrl) else Go tt
    | Raises thrown => Raise thrown
    end.

Fixpoint tryServices (debridServices : list Service)
    (magnetLink hash contentType : string) (season episode : option nat)
  : Flow unit :=
  match debridServices with
  | [] => Go tt
  | service :: rest =>
      bind (tryService magnetLink hash contentType season episode service)
           (λ _, tryServices rest magnetLink hash contentType season episode)
  end.

Definition sortedFallbacks (cachedStreams : list FallbackEntry) (hash : string)
  : list FallbackEntry :=
  Sort.js_sort (λ a b, parseQuality (filename b) - parseQuality (filename a))
    (List.filter (λ stream, negb (String.eqb (Resolver.hash stream) hash))
       cachedStreams).

Fixpoint tryFallbacks (debridServices : list Service)
    (fallbacks : list FallbackEntry) (contentType : string)
    (season episode : option nat) : Flow unit :=
  match fallbacks with
  | [] => Go tt
  | fallbackStream :: rest =>
      bind (tryServices debridServices (magnetLink fallbackStream)
              (Resolver.hash fallbackStream) contentType season episode)
           (λ _, tryFallbacks debridServices rest contentType season episode)
  end.

(** The [try] block of the handler. *)
Definition attempt (debridServices : list Service) (decoded : Decoded)
    (streamCache : gmap string (list FallbackEntry)) : Flow Empty_set :=
  if (length debridServices =? 0)%nat
  then Raise (error "No valid debrid service configured")
  else
    match decodedFields decoded with
    | inr message => Raise (error message)
    | inl (magnetLink, cacheKey) =>
        let '(contentType, season, episode) := contentOf cacheKey in
        match Js.toLowerCase <$> extractInfoHash magnetLink with
        | None => Raise (error "Invalid magnet link - no BTIH hash found")
        | Some hash =>
            if negb (Js.truthy hash)
            then Raise (error "Invalid magnet link - no BTIH hash found")
            else
              bind (tryServices debridServices magnetLink hash contentType
                      season episode)
                (λ _,
                   bind
                     (match (if Js.truthy cacheKey then streamCache !! cacheKey
                             else None) with
                      | Some cachedStreams =>
                          tryFallbacks debridServices
                            (sortedFallbacks cachedStreams hash)
                            contentType season episode
                      | None => Go tt
                      end)
                     (λ _, Raise (error
                        "No cached stream available from any debrid service")))
        end
    end.

(** The [catch] block: [error.message] is read, which throws for [null]. *)
Definition handle (debridServices : list Service) (decoded : Decoded)
    (streamCache : gmap string (list FallbackEntry)) : Handled :=
  match attempt debridServices decoded streamCache with
  | Go nothing => match nothing with end
  | Stop response => Sent response
  | Raise (ErrorObject message) =>
      Sent (JsonError 404 "Stream not available" message)
  | Raise NullValue => Uncaught typeError
  end.





End Handler.
End Resolver.

(** ** Sample inputs *)

Module Samples.

(** Two 1080p streams, of 5 GB and of 20 GB. *)
Definition inBand : Ranker.FormattedStream :=
  {| Ranker.name := "1080P | 5 GB | Premiumize";
     Ranker.title := "Movie.1080p.5GB.mkv";
     Ranker.url := "http://addon/pr=key/one";
     Ranker.service := "Premiumize";
     Ranker.quality := 1080;
     Ranker.size := 5000 |}.

Definition oversized : Ranker.FormattedStream :=
  {| Ranker.name := "1080P | 20 GB | Premiumize";
     Ranker.title := "Movie.1080p.20GB.mkv";
     Ranker.url := "http://addon/pr=key/two";
     Ranker.service := "Premiumize";
     Ranker.quality := 1080;
     Ranker.size := 20000 |}.

(** A stream of the quality and size of [inBand], from another release. *)
Definition inBandToo : Ranker.FormattedStream :=
  {| Ranker.name := "1080P | 5 GB | Premiumize";
     Ranker.title := "Movie.1080p.5GB.REPACK.mkv";
     Ranker.url := "http://addon/pr=key/three";
     Ranker.service := "Premiumize";
     Ranker.quality := 1080;
     Ranker.size := 5000 |}.

(** Results of two backends: the second backend repeats the torrent of the
    first under another name, and adds one more. *)
Definition first_release : Aggregator.RawStream :=
  {| Aggregator.raw_title := "Movie 2024 1080p WEB 2.1 GB";
     Aggregator.raw_filename := Js.absent;
     Aggregator.raw_magnetLink :=
       "magnet:?xt=urn:btih:ABCDEF0123456789ABCDEF0123456789ABCDEF01&dn=Movie";
     Aggregator.raw_quality := Js.absent;
     Aggregator.raw_size := Js.absent;
     Aggregator.raw_source := "Extto" |}.

Definition same_torrent : Aggregator.RawStream :=
  {| Aggregator.raw_title := "Movie (2024) [1080p]";
     Aggregator.raw_filename := "Movie.2024.1080p.mkv";
     Aggregator.raw_magnetLink :=
       "magnet:?xt=urn:btih:abcdef0123456789abcdef0123456789abcdef01";
     Aggregator.raw_quality := "1080p";
     Aggregator.raw_size := "2.1 GB";
     Aggregator.raw_source := "Torlock" |}.

Definition other_torrent : Aggregator.RawStream :=
  {| Aggregator.raw_title := "Movie 2024 720p";
     Aggregator.raw_filename := Js.absent;
     Aggregator.raw_magnetLink :=
       "magnet:?xt=urn:btih:0123456789abcdef0123456789abcdef01234567";
     Aggregator.raw_quality := Js.absent;
     Aggregator.raw_size := "900 MB";
     Aggregator.raw_source := "Torlock" |}.

Definition no_hash : Aggregator.RawStream :=
  {| Aggregator.raw_title := "Movie 2024 480p";
     Aggregator.raw_filename := Js.absent;
     Aggregator.raw_magnetLink := "magnet:?dn=Movie";
     Aggregator.raw_quality := Js.absent;
     Aggregator.raw_size := Js.absent;
     Aggregator.raw_source := "Torlock" |}.

(** A DirectDL file of the given path and size. *)
Definition content (path : string) (size : Z) : Premiumize.FileEntry :=
  Premiumize.toFileEntry
    {| Premiumize.content_path := path;
       Premiumize.content_size := size;
       Premiumize.content_link := String.append "https://dl/" path;
       Premiumize.content_stream_link := Js.absent |}.


Definition episode_files (size1 size2 : Z) : list Premiumize.FileEntry :=
  [content "Show.S02E05.mkv" size1; content "Show.S02E06.mkv" size2].

(** A season pack named with dots, and the same with a blank after
    [Season]. *)
Definition season3_dotted : list Premiumize.FileEntry :=
  [content "Show.Season.3.Complete.mkv" (8000 * Premiumize.MB);
   content "Show.Season.3.sample.mkv" (10 * Premiumize.MB)].

Definition season3_complete : Premiumize.FileEntry :=
  content "Show.Season 3.Complete.mkv" (8000 * Premiumize.MB).

Definition season3_blank : list Premiumize.FileEntry :=
  [season3_complete;
   content "Show.Season 3.sample.mkv" (10 * Premiumize.MB)].

(** 150 hashes, and a provider that reports every item as cached. *)
Definition many_hashes : list string :=
  (λ n, String.append "c0ffee" (pretty n)) <$> seq 1000 150.

Definition all_cached : Premiumize.ApiData :=
  {| Premiumize.status := "success";
     Premiumize.message := Js.absent;
     Premiumize.response := Some (replicate 99 (Some true)) |}.

Definition steady : Premiumize.Api := λ log req, Premiumize.Json all_cached.

(** A provider that answers the first request and then times out. *)
Definition flaky : Premiumize.Api :=
  λ log req,
    match log with
    | [] => Premiumize.Json all_cached
    | _ :: _ => Premiumize.FetchFails "The operation was aborted"
    end.

(** A provider whose answer has no element for the items asked about, and
    the Premiumize adapter as the prober sees it. *)
Definition empty_answer : Premiumize.ApiData :=
  {| Premiumize.status := "success";
     Premiumize.message := Js.absent;
     Premiumize.response := Some [] |}.

Definition silent : Premiumize.Api := λ log req, Premiumize.Json empty_answer.

Definition adapter (api : Premiumize.Api) : Prober.Provider :=
  λ hashes, Some (Premiumize.checkCacheStatuses api hashes []).1.

(** Two services that never give a link, a resolve request for a movie,
    and a fallback list of one alternate. *)
Definition broken_premiumize : Resolver.Service :=
  {| Resolver.constructorName := "Premiumize";
     Resolver.kind := Resolver.Premiumize;
     Resolver.getStreamUrl := λ _ _ _ _,
       Resolver.Raises (Resolver.error "No files found in torrent");
     Resolver.getCachedUrl := λ _ _ _ _, Resolver.Returns Js.absent |}.

Definition broken_realdebrid : Resolver.Service :=
  {| Resolver.constructorName := "RealDebrid";
     Resolver.kind := Resolver.RealDebrid;
     Resolver.getStreamUrl := λ _ _ _ _, Resolver.Returns Js.absent;
     Resolver.getCachedUrl := λ _ _ _ _,
       Resolver.Raises (Resolver.ErrorObject None) |}.

Definition movie_request : Resolver.Decoded :=
  Resolver.NewFormat
    "magnet:?xt=urn:btih:abcdef0123456789abcdef0123456789abcdef01"
    "movie-tt0111161".

Definition alternate : Resolver.FallbackEntry :=
  {| Resolver.hash := "0123456789abcdef0123456789abcdef01234567";
     Resolver.magnetLink :=
       "magnet:?xt=urn:btih:0123456789abcdef0123456789abcdef01234567";
     Resolver.filename := "Movie.2024.720p.mkv";
     Resolver.websiteTitle := "Movie 2024 720p";
     Resolver.quality := "720p";
     Resolver.size := "900 MB";
     Resolver.source := "Torlock";
     Resolver.service := "Premiumize" |}.

Definition fallback_cache : gmap string (list Resolver.FallbackEntry) :=
  {[ "movie-tt0111161" := [alternate] ]}.

Definition two_backends : list Aggregator.Settled :=
  [Aggregator.Fulfilled [first_release];
   Aggregator.Rejected;
   Aggregator.Fulfilled [same_torrent; no_hash; other_torrent]].

End Samples.

(** ** What a regular expression matches

    [Matches r w rest]: the pattern [r] matches the text [w] when [rest]
    is what follows it. *)

Module ReSpec.
Import Re.

Inductive Matches : regex → list ascii → list ascii → Prop :=
| MEmpty rest : Matches Empty [] rest
| MClass p c rest : p c = true → Matches (Class p) [c] rest
| MCat r1 r2 w1 w2 rest :
    Matches r1 w1 (w2 ++ rest) → Matches r2 w2 rest →
    Matches (Cat r1 r2) (w1 ++ w2) rest
| MOrL r1 r2 w rest : Matches r1 w rest → Matches (Or r1 r2) w rest
| MOrR r1 r2 w rest : Matches r2 w rest → Matches (Or r1 r2) w rest
| MManyNil r rest : Matches (Many r) [] rest
| MManyCons r w1 w2 rest :
    w1 ≠ [] → Matches r w1 (w2 ++ rest) → Matches (Many r) w2 rest →
    Matches (Many r) (w1 ++ w2) rest
| MEoi : Matches Eoi [] [].

(** Two texts that differ in the case of their letters only. *)
Definition sameLetters (w v : list ascii) : Prop :=
  Js.lower_ascii <$> w = Js.lower_ascii <$> v.

(** A lower-case hexadecimal digit. *)
Definition lowerHex (c : ascii) : Prop :=
  is_hex c = true ∧ Js.lower_ascii c = c.

(** The loop [run] makes for [Many r], by the rounds left. *)
Definition rounds (r : regex) : nat → list ascii → list (list ascii) :=
  fix loop (n : nat) (s : list ascii) {struct n} : list (list ascii) :=
    match n with
    | O => [s]
    | S n' =>
        flat_map (loop n')
          (filter (λ s', (length s' < length s)%nat) (run r s)) ++ [s]
    end.

(** What is left of [w ++ s] after a greedy run over [w] that gives
    back one character at a time: the longest run first. *)
Fixpoint backtrack (w s : list ascii) : list (list ascii) :=
  match w with
  | [] => [s]
  | c :: w' => backtrack w' s ++ [c :: w' ++ s]
  end.

End ReSpec.

(** ** The order of the provider calls of the resolve handler *)

Module Resolution.
Import Resolver.

(** The first step of a list that does not go on. *)
Fixpoint firstOutcome (steps : list (Flow unit)) : Flow unit :=
  match steps with
  | [] => Go tt
  | Go _ :: rest => firstOutcome rest
  | step :: _ => step
  end.

(** A thrown value that has no [message]. *)
Definition bare (called : Outcome) : Prop :=
  called = Raises (ErrorObject None) ∨ called = Raises NullValue.

(** The provider call [getValidStreamingUrl] makes. *)
Definition providerCall (service : Service) (magnetLink type : string)
    (season episode : option nat) : Outcome :=
  match kind service with
  | RealDebrid => getCachedUrl service magnetLink (Some type) season episode
  | TorBox => getStreamUrl service magnetLink None None None
  | Premiumize => getStreamUrl service magnetLink (Some type) season episode
  | OtherDebrid => getStreamUrl service magnetLink None None None
  end.

Section Resolution.
Variable parseQuality : string → Z.

(** The magnet links the handler tries, with their hashes: the primary,
    then the alternates stored under the cache key, best quality first. *)
Definition targets (magnetLink hash cacheKey : string)
    (streamCache : gmap string (list FallbackEntry)) : list (string * string) :=
  (magnetLink, hash) ::
    match (if Js.truthy cacheKey then streamCache !! cacheKey else None) with
    | Some cachedStreams =>
        (λ f, (Resolver.magnetLink f, Resolver.hash f))
          <$> sortedFallbacks parseQuality cachedStreams hash
    | None => []
    end.

(** The provider calls in the order the handler makes them: for each
    target, every service in configured order. *)
Definition steps (debridServices : list Service) (contentType : string)
    (season episode : option nat) (targets : list (string * string))
  : list (Flow unit) :=
  targets ≫= λ t, tryService t.1 t.2 contentType season episode <$> debridServices.

End Resolution.
End Resolution.

(** ** The stream endpoint ([index.js]) *)

Module Endpoint.
Import Aggregator.

Section Triage.
(** [parseQuality] and [parseSize] live in [src/util.js]. *)
Variables parseQuality parseSize : string → Z.

(** The comparator of the sort in front of the cache checks. *)
Definition cmpTriage (a b : Candidate) : Z :=
  let qualityA := parseQuality (filename a) in
  let qualityB := parseQuality (filename b) in
  if negb (qualityA =? qualityB) then qualityB - qualityA
  else
    let sizeA := parseSize (filename a) in
    let sizeB := parseSize (filename b) in
    Z.abs (sizeA - 5000) - Z.abs (sizeB - 5000).

(** [newStreams.sort(...).slice(0, MAX_STREAMS_TO_PROCESS)] *)
Definition limitedStreams (newStreams : list Candidate) : list Candidate :=
  take 100 (Sort.js_sort cmpTriage newStreams).

(** The key the comparator sorts by, and its order: quality descending,
    then distance of the size to 5000 MB ascending. *)
Definition triage_key (c : Candidate) : Z * Z :=
  (parseQuality (filename c), Z.abs (parseSize (filename c) - 5000)).

Definition triage_before (a b : Candidate) : Prop :=
  (triage_key b).1 < (triage_key a).1 ∨
  ((triage_key a).1 = (triage_key b).1 ∧ (triage_key a).2 <= (triage_key b).2).

End Triage.

(** [s.split(sep)] for a one-character separator *)
Fixpoint split_chars (sep : ascii) (l : list ascii) : list (list ascii) :=
  match l with
  | [] => [[]]
  | c :: l' =>
      if Ascii.eqb c sep then [] :: split_chars sep l'
      else match split_chars sep l' with
           | w :: ws => (c :: w) :: ws
           | [] => [[c]] (* not reached: a split is never empty *)
           end
  end.

Definition split (sep : ascii) (s : string) : list string :=
  Js.text <$> split_chars sep (Js.chars s).

(** [tmdbId], [season] and [episode] of a request; [None] is [null] or
    [undefined]. *)
Record Content : Type := {
  tmdbId : string;
  season : option string;
  episode : option string
}.

(** [[tmdbId, season, episode] = id.split(':')] for a series, the whole
    [id] otherwise. *)
Definition requested (type id : string) : Content :=
  if String.eqb type "series" then
    let parts := split ":" id in
    {| tmdbId := default Js.absent (parts !! 0%nat);
       season := parts !! 1%nat;
       episode := parts !! 2%nat |}
  else {| tmdbId := id; season := None; episode := None |}.

Inductive IdType : Type := Imdb | Tmdb.

(** [/^\d+$/], tried at the start of the text *)
Definition re_numeric : Re.regex := Re.seq [Re.plus Re.digit; Re.Eoi].

Definition numeric (id : string) : bool :=
  match Re.run re_numeric (Js.chars id) with
  | [] => false
  | _ :: _ => true
  end.

Definition getIdType (id : string) : option IdType :=
  if Js.startsWith id "tt" then Some Imdb
  else if Js.startsWith id "tmdb-" then Some Tmdb
  else if numeric id then Some Tmdb
  else None.

(** A value inside a template literal. *)
Definition shown (value : option string) : string :=
  default "undefined" value.

(** [`${type}-${tmdbId}${season ? `-s${season}e${episode}` : ''}`] *)
Definition cacheKey (type : string) (content : Content) : string :=
  String.append type
    (String.append "-"
       (String.append (tmdbId content)
          (match season content with
           | Some s =>
               if Js.truthy s
               then String.append "-s"
                      (String.append s (String.append "e" (shown (episode content))))
               else Js.absent
           | None => Js.absent
           end))).

End Endpoint.

(** ** The quick episode filter ([getStreams] in [index.js]) *)

Module Sources.
Import Aggregator.

(** [/s(\d{1,2})e(\d{1,2})/i] *)
Definition re_sxxexx : Re.regex :=
  Re.seq [Re.lit "s"; Re.digit; Re.opt Re.digit;
          Re.lit "e"; Re.digit; Re.opt Re.digit].

(** [parseInt(sxxexx[1])] and [parseInt(sxxexx[2])]: in the text matched
    the first group follows the [s] and the second ends the match. *)
Definition episodeOf (title : string) : option (nat * nat) :=
  match Re.search re_sxxexx (Js.chars title) with
  | Some m =>
      Some (Js.parseDigits (Js.leading_digits (drop 1 m)),
            Js.parseDigits (Js.trailing_digits m))
  | None => None
  end.

(** The test of the quick episode filter; [seasonNum] and [episodeNum]
    are [parseInt(season)] and [parseInt(episode)], [None] for [NaN]. *)
Definition keeps (seasonNum episodeNum : option Z) (result : RawStream) : bool :=
  let title :=
    Js.toLowerCase
      (Js.or_else (raw_title result) (Js.or_else (raw_filename result) Js.absent)) in
  match episodeOf title with
  | Some (foundSeason, foundEpisode) =>
      bool_decide (Some (Z.of_nat foundSeason) = seasonNum)
      && bool_decide (Some (Z.of_nat foundEpisode) = episodeNum)
  | None => false
  end.

(** The results of one source after the filter. *)
Definition filtered (type season episode : string)
    (seasonNum episodeNum : option Z) (results : list RawStream)
  : list RawStream :=
  if String.eqb type "series" && Js.truthy season && Js.truthy episode
  then List.filter (keeps seasonNum episodeNum) results
  else results.

End Sources.

(** ** Premiumize: the file list and the link ([src/premiumize.js]) *)

Module Downloads.
Import Premiumize.

Definition upper_ascii (c : ascii) : ascii :=
  let n := nat_of_ascii c in
  if ((97 <=? n) && (n <=? 122))%nat then ascii_of_nat (n - 32) else c.

(** [s.toUpperCase()] *)
Definition toUpperCase (s : string) : string :=
  Js.text (map upper_ascii (Js.chars s)).

(** [/btih:([a-fA-F0-9]{40})/i] *)
Definition re_btih40 : Re.regex :=
  Re.Cat (Re.lit "btih:") (Re.seq (replicate 40 (Re.Class Re.is_hex))).

(** [extractInfoHash]; [None] is [null]. *)
Definition extractInfoHash (magnetLink : string) : option string :=
  if negb (Js.truthy magnetLink) then None
  else (λ m, toUpperCase (Js.skip 5 m)) <$> Re.exec re_btih40 magnetLink.

(** [CACHE_TTL], in milliseconds *)
Definition CACHE_TTL : Z := 1800000.

(** A value of the module-wide [fileCache]. *)
Record Cached : Type := { data : list FileEntry; timestamp : Z }.

(** [`files:${infoHash}`] *)
Definition fileKey (infoHash : option string) : string :=
  String.append "files:" (default "null" infoHash).

(** A DirectDL request: the API key and the magnet link sent. *)
Definition Call : Type := string * string.

(** What [makeRequest('POST', '/transfer/directdl', ...)] gives, after the
    calls made before: [data.content], [None] when the field is missing,
    or the error thrown. *)
Definition DirectDL : Type :=
  list Call → Call → Result (option (list ContentFile)).

(** The module-wide cache and the requests sent so far. *)
Record State : Type := { fileCache : gmap string Cached; calls : list Call }.

Section Client.
Variable directdl : DirectDL.
(** [this.getKey()] *)
Variable apiKey : string.

(** The part of [getFileList] after the look-up in the cache; [later] is
    the time when the answer is stored. *)
Definition fetchFileList (magnetLink : string) (later : Z) (state : State)
  : Result (list FileEntry) * State :=
  let cacheKey := fileKey (extractInfoHash magnetLink) in
  let call := (apiKey, magnetLink) in
  match directdl (calls state) call with
  | Ok content =>
      let files := toFileEntry <$> default [] content in
      (Ok files,
       {| fileCache :=
            <[cacheKey := {| data := files; timestamp := later |}]>
              (fileCache state);
          calls := calls state ++ [call] |})
  | Throws error =>
      (Throws error,
       {| fileCache := fileCache state; calls := calls state ++ [call] |})
  end.

(** [getFileList]; [now] is the time of the look-up. *)
Definition getFileList (magnetLink : string) (now later : Z) (state : State)
  : Result (list FileEntry) * State :=
  let cacheKey := fileKey (extractInfoHash magnetLink) in
  match fileCache state !! cacheKey with
  | Some cached =>
      if now - timestamp cached <? CACHE_TTL then (Ok (data cached), state)
      else
        fetchFileList magnetLink later
          {| fileCache := delete cacheKey (fileCache state);
             calls := calls state |}
  | None => fetchFileList magnetLink later state
  end.

(** The file [getStreamUrl] selects, or the error it throws. *)
Definition selectFile (files : list FileEntry) (type : string)
    (season episode : option nat) : Result FileEntry :=
  let selected :=
    if String.eqb type "movie" then Ok (file <$> findBestMovieFile files)
    else if String.eqb type "series" then
      match season, episode with
      | Some (S s), Some (S e) => Ok (findEpisodeFile files (S s) (S e))
      | _, _ => Throws "Season and episode required for series"
      end
    else Ok (file <$> findBestMovieFile files) in
  match selected with
  | Ok (Some selectedFile) => Ok selectedFile
  | Ok None =>
      Throws (String.append "No suitable "
                (String.append
                   (if String.eqb type "series" then "episode" else "video")
                   " file found"))
  | Throws error => Throws error
  end.

(** [getStreamUrl]; a [type] left out is ['movie']. *)
Definition getStreamUrl (magnetLink : string) (type : option string)
    (season episode : option nat) (now later : Z) (state : State)
  : Result string * State :=
  match getFileList magnetLink now later state with
  | (Ok files, state') =>
      if (length files =? 0)%nat
      then (Throws "No files found in torrent", state')
      else
        match selectFile files (default "movie" type) season episode with
        | Ok selectedFile =>
            (Ok (Js.or_else (stream_link selectedFile) (link selectedFile)),
             state')
        | Throws error => (Throws error, state')
        end
  | (Throws error, state') => (Throws error, state')
  end.

End Client.

(** An upper-case hexadecimal digit. *)
Definition upperHex (c : ascii) : Prop :=
  Re.is_hex c = true ∧ upper_ascii c = c.

End Downloads.

(** ** The RealDebrid adapter ([RealDebrid] in [src/premiumize.js])

    The file objects of a torrent are compared by identity
    ([torrent.files.indexOf(targetFile)]), so an object carries its
    address: the objects of [torrent.files] stand at the addresses
    [0 .. n-1], and the objects made by a spread copy [{...file, score}]
    at the addresses from [n] on. *)

Module RealDebrid.
Import Resolver.

(** An element of [torrent.files] as the API gives it. *)
Record File : Type := { id : Z; path : string; bytes : Z; selected : Z }.

Record Object : Type := { ref : nat; fields : File }.

(** [{...file, score}] *)
Record Scored : Type := { object : Object; score : Z }.

(** The answer of [/torrents/info/:id]. *)
Record Torrent : Type := {
  torrent_id : string;
  status : string;
  files : list File;
  links : list string
}.

(** An element of the answer of [/torrents]. *)
Record Summary : Type := {
  summary_id : string;
  summary_hash : string;
  summary_status : string
}.

(** [torrent.files], as objects. *)
Definition objects (torrent : Torrent) : list Object :=
  imap (λ i f, {| ref := i; fields := f |}) (files torrent).

(** The first address not taken by [torrent.files]. *)
Definition fresh (torrent : Torrent) : nat := length (files torrent).

(** [s.endsWith(p)] *)
Definition endsWith (s p : string) : bool :=
  Js.is_prefix (rev (Js.chars p)) (rev (Js.chars s)).

Definition videoExtensions : list string :=
  [".mp4"; ".mkv"; ".avi"; ".mov"; ".wmv"; ".webm"; ".m4v"; ".ts"; ".m2ts"].

Definition isVideoFile (filename : string) : bool :=
  existsb (λ ext, endsWith (Js.toLowerCase filename) ext) videoExtensions.

Definition statusError (status : string) : bool :=
  bool_decide (status ∈ ["error"; "magnet_error"]).

Definition statusWaitingSelection (status : string) : bool :=
  String.eqb status "waiting_files_selection".

Definition statusDownloading (status : string) : bool :=
  bool_decide (status ∈ ["downloading"; "uploading"; "queued"]).

Definition statusReady (status : string) : bool :=
  bool_decide (status ∈ ["downloaded"; "dead"]).

Definition scoreMovieFile (file : File) : Z :=
  let filename := Js.toLowerCase (path file) in
  let score := 100 in
  let score := if 500 * Premiumize.MB <? bytes file then score + 300 else score in
  let score := if 1000 * Premiumize.MB <? bytes file then score + 200 else score in
  let score := if 2000 * Premiumize.MB <? bytes file then score + 150 else score in
  let score := if 5000 * Premiumize.MB <? bytes file then score + 100 else score in
  let score :=
    if existsb (λ kw, Js.includes filename kw) Premiumize.badKeywords
    then score - 800 else score in
  let pathDepth := Js.split_count "/" (path file) in
  let score := if (pathDepth <=? 2)%nat then score + 100 else score in
  score.

(** [findBestMovieFile]: the copies are made at the addresses from [next]
    on; [None] is [undefined], the first element of an empty array. *)
Definition findBestMovieFile (next : nat) (files : list Object) : option Object :=
  let scored :=
    imap (λ i o, {| object := {| ref := next + i; fields := fields o |};
                    score := scoreMovieFile (fields o) |}) files in
  object <$> head (Sort.js_sort (λ a b, score b - score a) scored).

(** Some pattern of the list hits the lower-cased path. *)
Definition hits (patterns : list Re.regex) (o : Object) : bool :=
  existsb (λ pattern, Re.test pattern (Js.toLowerCase (path (fields o)))) patterns.

Definition is_sample (o : Object) : bool :=
  Re.test Premiumize.re_sample (Js.toLowerCase (path (fields o))).

(** [files.reduce((largest, file) =>
      file.bytes > largest.bytes ? file : largest)] *)
Definition largest (first : Object) (rest : list Object) : Object :=
  foldl (λ largest file,
           if bytes (fields largest) <? bytes (fields file) then file else largest)
        first rest.

(** [findEpisodeFile]: the patterns are those of the Premiumize adapter;
    the objects returned are elements of [files]. *)
Definition findEpisodeFile (files : list Object)
    (targetSeason targetEpisode : nat) : option Object :=
  match List.find (hits (Premiumize.episodePatterns targetSeason targetEpisode))
          files with
  | Some file => Some file
  | None =>
      match List.find
              (λ o, negb (is_sample o)
                    && hits (Premiumize.loosePatterns targetSeason targetEpisode) o)
              files with
      | Some file => Some file
      | None =>
          match List.filter
                  (λ o, Re.test (Premiumize.seasonPattern targetSeason)
                          (Js.toLowerCase (path (fields o)))
                        && negb (is_sample o)) files with
          | first :: rest => Some (largest first rest)
          | [] => None
          end
      end
  end.

(** [torrent.files.indexOf(targetFile)]; [None] is [-1]. *)
Definition indexOf (objects : list Object) (target : Object) : option nat :=
  fst <$> list_find (λ o, ref o = ref target) objects.

(** *** Requests *)

Inductive Request : Type :=
| ListTorrents
| AddMagnet (magnet : string)
| TorrentInfo (torrentId : string)
| SelectFiles (torrentId : string) (fileIds : list Z)
| Unrestrict (link : string).

(** The service: what [makeRequest] gives for each request, after the
    requests sent before; the left side is the value thrown. *)
Record Api : Type := {
  torrents : list Request → Thrown + list Summary;
  addMagnet : list Request → string → Thrown + string;
  info : list Request → string → Thrown + Torrent;
  selectFiles : list Request → string → list Z → Thrown + unit;
  unrestrict : list Request → string → Thrown + string
}.

(** A computation that sends requests and may throw. *)
Definition M (A : Type) : Type :=
  list Request → (Thrown + A) * list Request.

Definition ret {A : Type} (a : A) : M A := λ log, (inr a, log).

Definition throw {A : Type} (thrown : Thrown) : M A := λ log, (inl thrown, log).

Definition bind {A B : Type} (m : M A) (k : A → M B) : M B :=
  λ log,
    match m log with
    | (inr a, log') => k a log'
    | (inl thrown, log') => (inl thrown, log')
    end.

(** [try { m } catch { handler }] *)
Definition catch {A : Type} (m handler : M A) : M A :=
  λ log,
    match m log with
    | (inr a, log') => (inr a, log')
    | (inl _, log') => handler log'
    end.

Definition send {A : Type} (request : Request)
    (answer : list Request → Thrown + A) : M A :=
  λ log, (answer log, log ++ [request]).

Section Client.
Variable api : Api.

Definition findTorrent (infoHash : string) : M string :=
  bind (send ListTorrents (torrents api))
    (λ found,
       match List.find
               (λ torrent,
                  String.eqb (Js.toLowerCase (summary_hash torrent)) infoHash
                  && negb (statusError (summary_status torrent))) found with
       | Some foundTorrent => ret (summary_id foundTorrent)
       | None => throw (error "No recent torrent found")
       end).

Definition createTorrentId (infoHash magnetLink : string) : M string :=
  send (AddMagnet magnetLink) (λ log, addMagnet api log magnetLink).

Definition createOrFindTorrentId (infoHash magnetLink : string) : M string :=
  catch (findTorrent infoHash) (createTorrentId infoHash magnetLink).

Definition getTorrentInfo (torrentId : string) : M Torrent :=
  send (TorrentInfo torrentId) (λ log, info api log torrentId).

(** The ids [selectTorrentFiles] asks for, or the error it throws. *)
Definition fileIds (torrent : Torrent) (type : string)
    (season episode : option nat) : Thrown + list Z :=
  let videoFiles :=
    List.filter (λ o, isVideoFile (path (fields o))
                      && (5 * Premiumize.MB <? bytes (fields o)))
      (objects torrent) in
  if (length videoFiles =? 0)%nat then inl (error "No video files found")
  else if String.eqb type "movie" then
    match findBestMovieFile (fresh torrent) videoFiles with
    | Some bestFile => inr [id (fields bestFile)]
    | None => inr ((λ o, id (fields o)) <$> videoFiles)
    end
  else
    match String.eqb type "series", season, episode with
    | true, Some (S s), Some (S e) =>
        match findEpisodeFile videoFiles (S s) (S e) with
        | Some episodeFile => inr [id (fields episodeFile)]
        | None =>
            inl (error
                   (String.append "Episode S"
                      (String.append (Js.toString (S s))
                         (String.append "E"
                            (String.append (Js.toString (S e))
                               " not found in torrent")))))
        end
    | _, _, _ => inr ((λ o, id (fields o)) <$> videoFiles)
    end.

Definition selectTorrentFiles (torrent : Torrent) (type : string)
    (season episode : option nat) : M unit :=
  if negb (statusWaitingSelection (status torrent)) then ret tt
  else
    match fileIds torrent type season episode with
    | inl thrown => throw thrown
    | inr ids =>
        send (SelectFiles (torrent_id torrent) ids)
          (λ log, selectFiles api log (torrent_id torrent) ids)
    end.

(** The file [unrestrictLink] settles on, or the error it throws. *)
Definition targetFile (torrent : Torrent) (type : string)
    (season episode : option nat) : Thrown + Object :=
  let selectedVideoFiles :=
    List.filter (λ o, (selected (fields o) =? 1)
                      && isVideoFile (path (fields o)))
      (objects torrent) in
  match selectedVideoFiles with
  | [] => inl (error "No selected video files found")
  | first :: rest =>
      if String.eqb type "movie" then
        match findBestMovieFile (fresh torrent) selectedVideoFiles with
        | Some best => inr best
        | None => inl typeError (* [targetFile.path] of [undefined] *)
        end
      else
        match String.eqb type "series", season, episode with
        | true, Some (S s), Some (S e) =>
            match findEpisodeFile selectedVideoFiles (S s) (S e) with
            | Some episodeFile => inr episodeFile
            | None => inr (largest first rest)
            end
        | _, _, _ => inr (largest first rest)
        end
  end.

(** [torrent.links[torrent.files.indexOf(targetFile)]] *)
Definition downloadLink (torrent : Torrent) (target : Object) : option string :=
  match indexOf (objects torrent) target with
  | Some fileIndex => links torrent !! fileIndex
  | None => None
  end.

Definition unrestrictLink (torrent : Torrent) (type : string)
    (season episode : option nat) : M string :=
  match targetFile torrent type season episode with
  | inl thrown => throw thrown
  | inr target =>
      match downloadLink torrent target with
      | Some link =>
          if Js.truthy link
          then send (Unrestrict link) (λ log, unrestrict api log link)
          else throw (error "No download link available for selected file")
      | None => throw (error "No download link available for selected file")
      end
  end.

(** [/btih:([a-f0-9]{40})/i] *)
Definition re_btih40 : Re.regex :=
  Re.Cat (Re.lit "btih:") (Re.seq (replicate 40 (Re.Class Re.is_hex))).

(** [getCachedUrl]; a [type] left out is ['movie']. *)
Definition getCachedUrl (magnetLink : string) (type : option string)
    (season episode : option nat) : M string :=
  let type := default "movie" type in
  match Re.exec re_btih40 magnetLink with
  | None => throw (error "Invalid magnet link format")
  | Some hashMatch =>
      let infoHash := Js.toLowerCase (Js.skip 5 hashMatch) in
      bind (createOrFindTorrentId infoHash magnetLink) (λ torrentId,
      bind (getTorrentInfo torrentId) (λ torrent,
        if statusReady (status torrent)
        then unrestrictLink torrent type season episode
        else if statusDownloading (status torrent)
        then throw (error "Torrent is downloading - not cached")
        else if statusWaitingSelection (status torrent)
        then
          bind (selectTorrentFiles torrent type season episode) (λ _,
          bind (getTorrentInfo torrentId) (λ updatedTorrent,
            if statusReady (status updatedTorrent)
            then unrestrictLink updatedTorrent type season episode
            else throw (error "Torrent not cached - downloading required")))
        else
          throw (error (String.append "Torrent not ready: " (status torrent)))))
  end.

End Client.

(** [checkInstantAvailability]: the mapping from lower-cased hash to
    [{ cached: true, files: [] }], here to the flag. *)
Definition checkInstantAvailability (hashes : list string) : gmap string bool :=
  foldl (λ results hash, <[Js.toLowerCase hash := true]> results) ∅ hashes.

Definition is_unrestrict (request : Request) : bool :=
  match request with Unrestrict _ => true | _ => false end.

(** A computation that adds requests to the log, none of which is for an
    unrestricted link. *)
Definition discreet {A : Type} (m : M A) : Prop :=
  ∀ log, ∃ more,
    (m log).2 = log ++ more ∧ Forall (λ r, is_unrestrict r = false) more.

(** A computation that throws. *)
Definition barren {A : Type} (m : M A) : Prop :=
  ∀ log, ∃ thrown, (m log).1 = inl thrown.

(** What a call of a method is to its caller. *)
Definition outcome (result : Thrown + string) : Outcome :=
  match result with
  | inl thrown => Raises thrown
  | inr streamUrl => Returns streamUrl
  end.

(** A service of the resolve handler that is an instance of this class:
    each call of [getCachedUrl] is a run of the method against the
    service as it is at the time. *)
Definition instance (service : Service) : Prop :=
  constructorName service = "RealDebrid" ∧
  kind service = Resolver.RealDebrid ∧
  ∀ magnetLink type season episode, ∃ api log,
    Resolver.getCachedUrl service magnetLink type season episode
    = outcome (getCachedUrl api magnetLink type season episode log).1.

End RealDebrid.

(** ** The stream endpoint: from the candidates to the response *)

Module Response.
Import Ranker.

(** The six symbols of [getQualitySymbol]. *)
Inductive Symbol : Type := Uhd | FullHd | Hd | Sd | Cam | Plain.

Definition getQualitySymbol (quality : string) : Symbol :=
  let qualityStr := Js.toLowerCase quality in
  if Js.includes qualityStr "2160" || Js.includes qualityStr "4k"
     || Js.includes qualityStr "uhd" then Uhd
  else if Js.includes qualityStr "1080" then FullHd
  else if Js.includes qualityStr "720" then Hd
  else if Js.includes qualityStr "480" then Sd
  else if Js.includes qualityStr "cam" || Js.includes qualityStr "hdts" then Cam
  else Plain.

(** [parts.filter(Boolean).join(sep)] *)
Definition joined (sep : string) (parts : list string) : string :=
  String.concat sep (List.filter Js.truthy parts).

(** A configured service: the name of its class ([service.constructor?.name],
    absent when there is none), its [serviceName] property, its
    [checkCacheStatuses] method when it has one, and whether its check
    beats the 20 s timer. *)
Record Backend : Type := {
  constructorName : string;
  declaredName : string;
  checkCacheStatuses : option Prober.Provider;
  timely : bool
}.

Definition serviceName (backend : Backend) : string :=
  Js.or_else (constructorName backend) "UnknownDebrid".

(** [cachedStreamsForFallback] *)
Definition fallbackOf (processed : Prober.ServiceStream) : Resolver.FallbackEntry :=
  let stream := Prober.stream processed in
  {| Resolver.hash := Prober.hash stream;
     Resolver.magnetLink := Prober.magnetLink stream;
     Resolver.filename := Prober.filename stream;
     Resolver.websiteTitle := Prober.websiteTitle stream;
     Resolver.quality := Prober.quality stream;
     Resolver.size := Prober.size stream;
     Resolver.source := Prober.source stream;
     Resolver.service := Prober.serviceName processed |}.

Section Formatting.
(** [parseQuality], [parseSize] and [base64Encode] live in [src/util.js]. *)
Variables parseQuality parseSize : string → Z.
(** [base64Encode(JSON.stringify({ magnetLink, cacheKey }))] *)
Variable encode : string → string → string.
(** [`${req.protocol}://${req.get('host')}/${apiKeys}/`] *)
Variable origin : string.
(** The texts outside ASCII: the symbols, the tag that ends a name and
    the mark in front of the source. *)
Variable glyph : Symbol → string.
Variables tag mark : string.
(** [checkRDCache] lives in [src/rdhelper.js]; [None] when it throws. *)
Variable checkRDCache :
  Backend → list Aggregator.Candidate → option (gmap string Prober.Entry).

(** The map one service gives, [None] when its check fails or is late. *)
Definition cacheMap (backend : Backend)
    (limitedStreams : list Aggregator.Candidate)
  : option (gmap string Prober.Entry) :=
  if timely backend then
    if String.eqb (serviceName backend) "RealDebrid"
       || String.eqb (declaredName backend) "RealDebrid"
    then checkRDCache backend limitedStreams
    else
      match checkCacheStatuses backend with
      | Some service =>
          Some (Prober.checkCacheStatuses service (Some <$> limitedStreams))
      | None => Some ∅
      end
  else None.

(** The streams of the services whose check succeeded, in configured
    order. *)
Definition allProcessedStreams (backends : list Backend)
    (limitedStreams : list Aggregator.Candidate) : list Prober.ServiceStream :=
  backends ≫= λ backend,
    match cacheMap backend limitedStreams with
    | Some cacheMap => Prober.serviceStreams (serviceName backend) cacheMap
    | None => []
    end.

(** The body of the formatting loop; [None] is [continue]. *)
Definition format (cacheKey : string) (processed : Prober.ServiceStream)
  : option FormattedStream :=
  let stream := Prober.stream processed in
  let service := Prober.serviceName processed in
  if negb (Js.truthy (Prober.magnetLink stream))
     || negb (Js.truthy (Prober.filename stream)) then None
  else
    let filename := Js.toLowerCase (Prober.filename stream) in
    let features :=
      (if Js.includes filename "hdr" then ["HDR"] else [])
      ++ (if Js.includes filename "dolby" then ["Dolby"] else [])
      ++ (if Js.includes filename "atmos" then ["Atmos"] else [])
      ++ (if Js.includes filename "x265" || Js.includes filename "hevc"
          then ["HEVC"] else []) in
    let featureStr := String.concat " | " features in
    let qualityDisplay := Downloads.toUpperCase (Prober.quality stream) in
    let qualitySymbol :=
      getQualitySymbol (Js.or_else qualityDisplay (Prober.filename stream)) in
    Some {| Ranker.name :=
              joined " | "
                [glyph qualitySymbol; qualityDisplay; Prober.size stream;
                 service; tag];
            Ranker.title :=
              joined (String "010" EmptyString)
                [Prober.filename stream;
                 joined " | "
                   [String.append mark (Prober.source stream); featureStr]];
            Ranker.url :=
              String.append origin
                (encode (Prober.magnetLink stream) cacheKey);
            Ranker.service := service;
            Ranker.quality := parseQuality (Prober.filename stream);
            Ranker.size := parseSize (Prober.filename stream) |}.

Definition formattedStreams (cacheKey : string)
    (processed : list Prober.ServiceStream) : list FormattedStream :=
  omap (format cacheKey) processed.

(** What the endpoint answers once the candidates are there and the
    checks have settled: [{ streams: [...] }]. *)
Definition respond (backends : list Backend) (cacheKey : string)
    (newStreams : list Aggregator.Candidate) : list FormattedStream :=
  if (length newStreams =? 0)%nat then []
  else
    let limitedStreams :=
      Endpoint.limitedStreams parseQuality parseSize newStreams in
    let processed := allProcessedStreams backends limitedStreams in
    if (length processed =? 0)%nat then []
    else sortedStreams (formattedStreams cacheKey processed).

End Formatting.

(** A service whose cache is checked by the helper of [index.js]. *)
Definition viaHelper (backend : Backend) : Prop :=
  serviceName backend ≠ "RealDebrid" ∧ declaredName backend ≠ "RealDebrid".

End Response.

(** ** The store of alternates ([streamCache] in [index.js])

    A [Map] keeps its entries in the order in which their keys were first
    set. *)

Module StreamCache.

Definition Store : Type := list (string * list Resolver.FallbackEntry).

(** [streamCache.set(key, value)] *)
Fixpoint set (key : string) (value : list Resolver.FallbackEntry)
    (store : Store) : Store :=
  match store with
  | [] => [(key, value)]
  | (k, v) :: rest =>
      if String.eqb k key then (k, value) :: rest
      else (k, v) :: set key value rest
  end.

(** [streamCache.get(key)] *)
Definition get (key : string) (store : Store)
  : option (list Resolver.FallbackEntry) :=
  snd <$> List.find (λ kv, String.eqb kv.1 key) store.

(** [entries.slice(-n)] *)
Definition newest {A : Type} (n : nat) (entries : list A) : list A :=
  drop (length entries - n) entries.

(** The body of the [setInterval] callback. *)
Definition cleanup (store : Store) : Store :=
  if (1000 <? length store)%nat then
    let toKeep := newest 500 store in
    foldl (λ cache kv, set kv.1 kv.2 cache) [] toKeep
  else store.

(** The stores a [Map] can be in: no key twice. *)
Definition wellFormed (store : Store) : Prop := NoDup store.*1.

End StreamCache.

(** ** More sample inputs *)

Module Cases.

(** A service that has a link for one magnet only. *)
Definition torbox_with_alternate : Resolver.Service :=
  {| Resolver.constructorName := "TorBox";
     Resolver.kind := Resolver.TorBox;
     Resolver.getStreamUrl := λ m _ _ _,
       if String.eqb m (Resolver.magnetLink Samples.alternate)
       then Resolver.Returns "https://cdn.torbox.app/movie.mkv"
       else Resolver.Returns Js.absent;
     Resolver.getCachedUrl := λ _ _ _ _, Resolver.Returns Js.absent |}.

(** A service that has a link for every magnet. *)
Definition torbox_with_all : Resolver.Service :=
  {| Resolver.constructorName := "TorBox";
     Resolver.kind := Resolver.TorBox;
     Resolver.getStreamUrl := λ _ _ _ _,
       Resolver.Returns "https://cdn.torbox.app/any.mkv";
     Resolver.getCachedUrl := λ _ _ _ _, Resolver.Returns Js.absent |}.

(** A magnet link with a forty-digit hash, and one with a hash in
    base 32. *)
Definition hex_magnet : string :=
  "magnet:?xt=urn:btih:ABCDEF0123456789abcdef0123456789ABCDEF01&dn=Movie".

Definition base32_magnet : string :=
  "magnet:?xt=urn:btih:VPG66AJDIVTYTK6N54ASGRLHRGV433YB&dn=Movie".

(** A DirectDL answer with the film and a sample of it. *)
Definition film_content : list Premiumize.ContentFile :=
  [ {| Premiumize.content_path := "Movie.2024/sample.mkv";
       Premiumize.content_size := 30 * Premiumize.MB;
       Premiumize.content_link := "https://pm.example/sample.mkv";
       Premiumize.content_stream_link := Js.absent |};
    {| Premiumize.content_path := "Movie.2024/Movie.2024.1080p.mkv";
       Premiumize.content_size := 2100 * Premiumize.MB;
       Premiumize.content_link := "https://pm.example/movie.mkv";
       Premiumize.content_stream_link := "https://pm.example/stream/movie.mkv" |} ].

Definition film_server : Downloads.DirectDL :=
  λ _ _, Premiumize.Ok (Some film_content).

Definition no_state : Downloads.State :=
  {| Downloads.fileCache := ∅; Downloads.calls := [] |}.

(** A torrent RealDebrid holds ready, with two episodes. *)
Definition episodes_torrent : RealDebrid.Torrent :=
  {| RealDebrid.torrent_id := "T1";
     RealDebrid.status := "downloaded";
     RealDebrid.files :=
       [ {| RealDebrid.id := 1; RealDebrid.path := "/Show.S01E01.1080p.mkv";
            RealDebrid.bytes := 700 * Premiumize.MB; RealDebrid.selected := 1 |};
         {| RealDebrid.id := 2; RealDebrid.path := "/Show.S01E02.1080p.mkv";
            RealDebrid.bytes := 800 * Premiumize.MB; RealDebrid.selected := 1 |} ];
     RealDebrid.links :=
       ["https://real-debrid.com/d/AAA"; "https://real-debrid.com/d/BBB"] |}.

Definition realdebrid_ready : RealDebrid.Api :=
  {| RealDebrid.torrents := λ _,
       inr [ {| RealDebrid.summary_id := "T1";
                RealDebrid.summary_hash :=
                  "ABCDEF0123456789ABCDEF0123456789ABCDEF01";
                RealDebrid.summary_status := "downloaded" |} ];
     RealDebrid.addMagnet := λ _ _, inr "T2";
     RealDebrid.info := λ _ _, inr episodes_torrent;
     RealDebrid.selectFiles := λ _ _ _, inr tt;
     RealDebrid.unrestrict := λ _ link,
       inr (String.append "https://cdn.example/" (Js.skip 26 link)) |}.

(** The RealDebrid class in front of that service. *)
Definition realdebrid_service : Resolver.Service :=
  {| Resolver.constructorName := "RealDebrid";
     Resolver.kind := Resolver.RealDebrid;
     Resolver.getStreamUrl := λ _ _ _ _, Resolver.Raises Resolver.typeError;
     Resolver.getCachedUrl := λ magnetLink type season episode,
       RealDebrid.outcome
         (RealDebrid.getCachedUrl realdebrid_ready magnetLink type season
            episode []).1 |}.

(** Premiumize, answering that everything is cached. *)
Definition premiumize_backend : Response.Backend :=
  {| Response.constructorName := "Premiumize";
     Response.declaredName := "Premiumize";
     Response.checkCacheStatuses := Some (Samples.adapter Samples.steady);
     Response.timely := true |}.

End Cases.

(** * Facts *)

(** ** The stable sort *)

Section SortFacts.
Context {A : Type} (cmp : A → A → Z).
Local Abbreviation insert := (Sort.insert cmp).
Local Abbreviation js_sort := (Sort.js_sort cmp).
Local Abbreviation before := (Sort.before cmp).

Lemma js_sort_cons x l : js_sort (x :: l) = insert x (js_sort l).
Proof. reflexivity. Qed.

Lemma insert_perm x l : insert x l ≡ₚ x :: l.
Proof.
  induction l as [|y l IH]; simpl; [done|].
  destruct (cmp x y <=? 0); [done|].
  rewrite IH. apply perm_swap.
Qed.

Lemma js_sort_perm l : js_sort l ≡ₚ l.
Proof.
  induction l as [|x l IH]; simpl; [done|].
  rewrite insert_perm. by f_equiv.
Qed.

Lemma js_sort_length l : length (js_sort l) = length l.
Proof. by rewrite js_sort_perm. Qed.

Lemma js_sort_elem x l : x ∈ js_sort l ↔ x ∈ l.
Proof. by rewrite js_sort_perm. Qed.

(** A consistent comparator is a total preorder. *)
Hypothesis cmp_trans : ∀ a b c, before a b → before b c → before a c.
Hypothesis cmp_total : ∀ a b, before a b ∨ before b a.

Lemma insert_sorted x l :
  StronglySorted before l → StronglySorted before (insert x l).
Proof using cmp_trans cmp_total.
  induction 1 as [|y l Hl IH Hy]; simpl.
  - repeat constructor.
  - destruct (Z.leb_spec (cmp x y) 0) as [Hxy|Hxy].
    + constructor; [by constructor|].
      constructor; [exact Hxy|].
      eapply Forall_impl; [exact Hy|]. intros z Hz. by eapply cmp_trans.
    + constructor; [exact IH|].
      rewrite insert_perm. constructor; [|exact Hy].
      destruct (cmp_total x y) as [H|H]; [unfold Sort.before in H; lia|exact H].
Qed.

Lemma js_sort_sorted l : StronglySorted before (js_sort l).
Proof using cmp_trans cmp_total.
  induction l as [|x l IH]; simpl; [constructor|by apply insert_sorted].
Qed.


(** The part cut off by [slice(0, n)] follows the part kept. *)
Lemma js_sort_take n l :
  Forall (λ r, Forall (λ o, before o r) (take n (js_sort l))) (drop n (js_sort l)).
Proof using cmp_trans cmp_total.
  pose proof (js_sort_sorted l) as Hs.
  rewrite <-(take_drop n (Sort.js_sort cmp l)) in Hs.
  apply StronglySorted_app in Hs as (Hx & _ & _).
  apply Forall_forall. intros r Hr. apply Forall_forall. intros o Ho.
  by apply Hx.
Qed.

End SortFacts.

Section SortStable.
(** Stability: the elements of one key keep their input order, for a
    comparator that does not separate elements of equal key. *)
Context {A K : Type} `{EqDecision K} (cmp : A → A → Z) (key : A → K).
Hypothesis cmp_key : ∀ a b, key a = key b → Sort.before cmp a b.

Lemma insert_stable x l k :
  filter (λ y, key y = k) (Sort.insert cmp x l)
  = filter (λ y, key y = k) (x :: l).
Proof using cmp_key.
  induction l as [|y l IH]; [done|]. cbn [Sort.insert].
  destruct (Z.leb_spec (cmp x y) 0) as [Hle|Hgt]; [done|].
  assert (key x ≠ key y) as Hne.
  { intros Heq. apply cmp_key in Heq. unfold Sort.before in Heq. lia. }
  rewrite filter_cons, IH, !filter_cons.
  repeat case_decide; congruence.
Qed.

Lemma js_sort_stable l k :
  filter (λ y, key y = k) (Sort.js_sort cmp l) = filter (λ y, key y = k) l.
Proof using cmp_key.
  induction l as [|x l IH]; [done|].
  rewrite js_sort_cons, insert_stable, !filter_cons. by rewrite IH.
Qed.

End SortStable.

Lemma StronglySorted_weaken {A : Type} (R1 R2 : relation A) (l : list A) :
  (∀ a b, R1 a b → R2 a b) → StronglySorted R1 l → StronglySorted R2 l.
Proof.
  intros HR. induction 1 as [|x l Hl IH Hx]; constructor; [exact IH|].
  eapply Forall_impl; [exact Hx|]. intros y. apply HR.
Qed.

Section SortKeys.
Context {A K : Type} (key : A → K) (kcmp : K → K → Z).

Lemma insert_key x l :
  key <$> Sort.insert (λ a b, kcmp (key a) (key b)) x l
  = Sort.insert kcmp (key x) (key <$> l).
Proof.
  induction l as [|y l IH]; [done|].
  rewrite fmap_cons. cbn [Sort.insert].
  destruct (kcmp (key x) (key y) <=? 0); [by rewrite !fmap_cons|].
  by rewrite fmap_cons, IH.
Qed.

(** Sorting by a key and reading the keys is sorting the keys. *)
Lemma js_sort_key l :
  key <$> Sort.js_sort (λ a b, kcmp (key a) (key b)) l
  = Sort.js_sort kcmp (key <$> l).
Proof.
  induction l as [|x l IH]; [done|].
  rewrite fmap_cons, !js_sort_cons, insert_key. by rewrite IH.
Qed.

End SortKeys.

(** ** Ranker *)

Section RankerFacts.
Import Ranker.

Lemma cmpFinal_before a b : Sort.before cmpFinal a b ↔ final_before a b.
Proof.
  unfold Sort.before, cmpFinal, final_before.
  destruct (Z.eqb_spec (quality a) (quality b)); simpl; lia.
Qed.

Lemma cmpFinal_trans a b c :
  Sort.before cmpFinal a b → Sort.before cmpFinal b c → Sort.before cmpFinal a c.
Proof. rewrite !cmpFinal_before. unfold final_before. lia. Qed.

Lemma cmpFinal_total a b : Sort.before cmpFinal a b ∨ Sort.before cmpFinal b a.
Proof. rewrite !cmpFinal_before. unfold final_before. lia. Qed.

Lemma cmpKey_trans a b c :
  Sort.before cmpKey a b → Sort.before cmpKey b c → Sort.before cmpKey a c.
Proof.
  unfold Sort.before, cmpKey.
  destruct (Z.eqb_spec a.1 b.1), (Z.eqb_spec b.1 c.1), (Z.eqb_spec a.1 c.1);
    simpl; lia.
Qed.

Lemma cmpKey_total a b : Sort.before cmpKey a b ∨ Sort.before cmpKey b a.
Proof.
  unfold Sort.before, cmpKey.
  destruct (Z.eqb_spec a.1 b.1), (Z.eqb_spec b.1 a.1); simpl; lia.
Qed.

Lemma cmpKey_antisym a b :
  Sort.before cmpKey a b → Sort.before cmpKey b a → a = b.
Proof.
  unfold Sort.before, cmpKey. destruct a as [qa sa], b as [qb sb]; simpl.
  destruct (Z.eqb_spec qa qb), (Z.eqb_spec qb qa); simpl; intros; f_equal; lia.
Qed.

Lemma final_before_sorted l :
  StronglySorted final_before (Sort.js_sort cmpFinal l).
Proof.
  eapply StronglySorted_weaken;
    [|apply js_sort_sorted; [exact cmpFinal_trans|exact cmpFinal_total]].
  intros a b. apply cmpFinal_before.
Qed.

(** The keys of the response are the first 50 of the sorted keys. *)
Lemma sortedStreams_keys l :
  final_key <$> sortedStreams l = take 50 (Sort.js_sort cmpKey (final_key <$> l)).
Proof.
  unfold sortedStreams. rewrite fmap_take. f_equal.
  exact (js_sort_key final_key cmpKey l).
Qed.

(** The helper [sortStreams], which the endpoint does not call, does sort
    by tier, then by distance to the ideal band, then by size. *)
Lemma cmpStreams_before parseQuality parseSize a b :
  Sort.before (cmpStreams parseQuality parseSize) a b
  ↔ parsed_before parseQuality parseSize a b.
Proof.
  unfold Sort.before, cmpStreams, parsed_before, parsedDistance.
  destruct (Z.eqb_spec (parseQuality (name a)) (parseQuality (name b)))
    as [Hq|Hq]; cbn [negb]; [|lia].
  rewrite <-Hq.
  destruct (Z.eqb_spec
              (getIdealScore (parseSize (name a))
                 (idealRange (parseQuality (name a))))
              (getIdealScore (parseSize (name b))
                 (idealRange (parseQuality (name a))))); cbn [negb]; lia.
Qed.

Lemma sortStreams_banded parseQuality parseSize streams :
  sortStreams parseQuality parseSize streams ≡ₚ streams ∧
  StronglySorted (parsed_before parseQuality parseSize)
    (sortStreams parseQuality parseSize streams).
Proof.
  split; [apply js_sort_perm|].
  eapply StronglySorted_weaken; [intros a b; apply cmpStreams_before|].
  apply js_sort_sorted.
  - intros a b c. rewrite !cmpStreams_before.
    unfold parsed_before, parsedDistance. intros Hab Hbc.
    destruct Hab as [?|[Hq1 ?]], Hbc as [?|[Hq2 ?]]; lia.
  - intros a b. rewrite !cmpStreams_before.
    unfold parsed_before, parsedDistance.
    lia.
Qed.

(** C1, as the claim words it, fails: of two 1080p streams the endpoint
    puts the 20 GB one, 4000 MB off the ideal band, in front of the 5 GB
    one, which lies inside the band. *)
Lemma final_order_ignores_band :
  sortedStreams [Samples.inBand; Samples.oversized]
    = [Samples.oversized; Samples.inBand] ∧
  distance Samples.inBand = 0 ∧
  distance Samples.oversized = 4000 ∧
  ¬ StronglySorted banded_before
      (sortedStreams [Samples.inBand; Samples.oversized]).
Proof.
  repeat split; try reflexivity.
  intros Hs. apply StronglySorted_cons in Hs as [Hf _].
  apply Forall_cons in Hf as [Hb _].
  unfold banded_before in Hb. vm_compute in Hb.
  destruct Hb as [Hb|[_ [Hb|[Hb _]]]]; discriminate Hb.
Qed.

(** C1, amended: the response is the first 50 streams of the input sorted
    by quality tier descending and, within a tier, by size descending,
    streams equal in both keeping their input order; the ideal size bands
    play no part in it. *)
Theorem final_order_quality_then_size (formattedStreams : list FormattedStream) :
  ∃ rest,
    sortedStreams formattedStreams ++ rest ≡ₚ formattedStreams ∧
    StronglySorted final_before (sortedStreams formattedStreams ++ rest) ∧
    (∀ k, filter (λ s, final_key s = k) (sortedStreams formattedStreams ++ rest)
          = filter (λ s, final_key s = k) formattedStreams) ∧
    length (sortedStreams formattedStreams)
      = Nat.min 50 (length formattedStreams) ∧
    (length (sortedStreams formattedStreams) ≤ 50)%nat.
Proof.
  exists (drop 50 (Sort.js_sort cmpFinal formattedStreams)).
  unfold sortedStreams. rewrite take_drop.
  split; [apply js_sort_perm|]. split; [apply final_before_sorted|].
  split; [|rewrite length_take, js_sort_length; lia].
  intros k. apply js_sort_stable. intros a b Hk.
  apply cmpFinal_before. unfold final_key in Hk. injection Hk as Hq Hs.
  unfold final_before. lia.
Qed.

(** C10, as the claim words it, fails: two streams of equal quality and
    size come out in the order they went in. *)
Lemma final_order_keeps_ties :
  [Samples.inBand; Samples.inBandToo] ≡ₚ [Samples.inBandToo; Samples.inBand] ∧
  sortedStreams [Samples.inBand; Samples.inBandToo]
    ≠ sortedStreams [Samples.inBandToo; Samples.inBand].
Proof. split; [apply perm_swap|]. vm_compute. discriminate. Qed.

(** C10, amended: on two permutations of one list the responses show the
    same sequence of (quality, size) keys, and they are the same sequence of
    streams when streams of equal quality and size are equal. *)
Theorem final_order_of_permutation (l1 l2 : list FormattedStream) :
  l1 ≡ₚ l2 →
  final_key <$> sortedStreams l1 = final_key <$> sortedStreams l2 ∧
  ((∀ a b, a ∈ l1 → b ∈ l1 → final_key a = final_key b → a = b) →
   sortedStreams l1 = sortedStreams l2).
Proof.
  intros Hp. split.
  - rewrite !sortedStreams_keys. f_equal.
    apply (StronglySorted_unique_strong (Sort.before cmpKey)).
    + intros x1 x2 _ _. apply cmpKey_antisym.
    + apply js_sort_sorted; [exact cmpKey_trans|exact cmpKey_total].
    + apply js_sort_sorted; [exact cmpKey_trans|exact cmpKey_total].
    + by rewrite !js_sort_perm, Hp.
  - intros Hinj. unfold sortedStreams. f_equal.
    apply (StronglySorted_unique_strong (Sort.before cmpFinal)).
    + intros x1 x2 H1 H2 H12 H21.
      apply js_sort_elem in H1. apply js_sort_elem in H2. rewrite <-Hp in H2.
      apply Hinj; [done..|]. by apply cmpKey_antisym.
    + apply js_sort_sorted; [exact cmpFinal_trans|exact cmpFinal_total].
    + apply js_sort_sorted; [exact cmpFinal_trans|exact cmpFinal_total].
    + by rewrite !js_sort_perm.
Qed.

Lemma final_order_of_permutation_witness :
  [Samples.inBand; Samples.oversized] ≡ₚ [Samples.oversized; Samples.inBand] ∧
  final_key <$> sortedStreams [Samples.inBand; Samples.oversized]
    = final_key <$> sortedStreams [Samples.oversized; Samples.inBand] ∧
  ((∀ a b, a ∈ [Samples.inBand; Samples.oversized] →
           b ∈ [Samples.inBand; Samples.oversized] →
           final_key a = final_key b → a = b) →
   sortedStreams [Samples.inBand; Samples.oversized]
     = sortedStreams [Samples.oversized; Samples.inBand]).
Proof.
  split; [apply perm_swap|].
  apply (final_order_of_permutation
           [Samples.inBand; Samples.oversized]
           [Samples.oversized; Samples.inBand]).
  apply perm_swap.
Defined.

End RankerFacts.

(** ** Source aggregator *)

Section AggregatorFacts.
Import Aggregator.

Lemma visit_hashOf acc s :
  visit acc s =
    match hashOf s with
    | Some h =>
        if bool_decide (h ∈ acc.1) then acc
        else ({[h]} ∪ acc.1, acc.2 ++ [normalize h s])
    | None => acc
    end.
Proof.
  unfold visit, hashOf.
  destruct (Js.truthy (raw_magnetLink s)); simpl; [|done].
  destruct (extractHash (raw_magnetLink s)) as [h|]; [|done].
  by destruct (Js.truthy h).
Qed.

(** The loop over one result list. *)
Lemma foldl_visit l seen out :
  foldl visit (seen, out) l
  = (seen ∪ list_to_set (omap hashOf l), out ++ survivors seen l).
Proof.
  revert seen out. induction l as [|s l IH]; intros seen out.
  - simpl. f_equal; [set_solver|by rewrite app_nil_r].
  - cbn [foldl]. rewrite visit_hashOf. cbn [omap list_omap survivors fst snd].
    destruct (hashOf s) as [h|]; [|apply IH].
    case_bool_decide as Hin.
    + rewrite IH. f_equal. cbn [list_to_set]. set_solver.
    + rewrite IH. f_equal; [cbn [list_to_set]; set_solver|].
      by rewrite <-app_assoc.
Qed.

(** The two loops visit the candidates in processing order. *)
Lemma foldl_visitResult allResults acc :
  foldl visitResult acc allResults = foldl visit acc (processed allResults).
Proof.
  revert acc. induction allResults as [|r rs IH]; intros acc; [done|].
  unfold processed. cbn [flat_map foldl]. rewrite foldl_app.
  rewrite IH. by destruct r.
Qed.

Lemma combine_survivors allResults :
  combine allResults = survivors ∅ (processed allResults).
Proof.
  unfold combine. by rewrite foldl_visitResult, foldl_visit.
Qed.

Lemma survivors_count l seen :
  (length (survivors seen l) + countRepeated seen l = countHashed l)%nat.
Proof.
  unfold countHashed. revert seen.
  induction l as [|s l IH]; intros seen; [done|].
  cbn [survivors countRepeated omap list_omap].
  destruct (hashOf s) as [h|]; [|apply IH].
  case_bool_decide; cbn [length];
    [rewrite <-(IH seen)|rewrite <-(IH ({[h]} ∪ seen))]; lia.
Qed.

Lemma survivors_hashes l seen h :
  h ∈ hash <$> survivors seen l ↔ (h ∉ seen) ∧ ∃ s, s ∈ l ∧ hashOf s = Some h.
Proof.
  revert seen. induction l as [|s l IH]; intros seen.
  - simpl. split; [by intros ?%elem_of_nil|].
    intros (_ & s & Hs & _). by apply elem_of_nil in Hs.
  - cbn [survivors]. destruct (hashOf s) as [h'|] eqn:Hh.
    + case_bool_decide as Hin.
      * rewrite IH. split.
        -- intros (Hn & s' & Hs' & Hh'). split; [done|]. exists s'. split; [by right|done].
        -- intros (Hn & s' & Hs' & Hh'). split; [done|].
           apply elem_of_cons in Hs' as [->|Hs']; [|by eauto].
           rewrite Hh in Hh'. injection Hh' as ->. done.
      * rewrite fmap_cons, elem_of_cons, IH. cbn [hash normalize]. split.
        -- intros [->|(Hn & s' & Hs' & Hh')].
           ++ split; [done|]. exists s. split; [by left|done].
           ++ split; [set_solver|]. exists s'. split; [by right|done].
        -- intros (Hn & s' & Hs' & Hh').
           destruct (decide (h = h')) as [->|Hne]; [by left|]. right.
           split; [set_solver|].
           apply elem_of_cons in Hs' as [->|Hs']; [|by eauto].
           rewrite Hh in Hh'. by injection Hh' as ->.
    + rewrite IH. split.
      * intros (Hn & s' & Hs' & Hh'). split; [done|]. exists s'. split; [by right|done].
      * intros (Hn & s' & Hs' & Hh'). split; [done|].
        apply elem_of_cons in Hs' as [->|Hs']; [|by eauto].
        rewrite Hh in Hh'. done.
Qed.

Lemma survivors_NoDup l seen : NoDup (hash <$> survivors seen l).
Proof.
  revert seen. induction l as [|s l IH]; intros seen; [constructor|].
  cbn [survivors]. destruct (hashOf s) as [h|]; [|apply IH].
  case_bool_decide; [apply IH|].
  rewrite fmap_cons. constructor; [|apply IH].
  cbn [hash normalize]. rewrite survivors_hashes. set_solver.
Qed.

Lemma survivors_first l seen c :
  c ∈ survivors seen l →
  ∃ s, firstWith (hash c) l = Some s ∧ c = normalize (hash c) s.
Proof.
  revert seen. induction l as [|s l IH]; intros seen; [by intros ?%elem_of_nil|].
  cbn [survivors]. unfold firstWith. cbn [List.find].
  destruct (hashOf s) as [h|] eqn:Hh.
  - case_bool_decide as Hin.
    + intros Hc. assert (hash c ≠ h) as Hne.
      { intros Heq. subst h.
        assert (hash c ∈ hash <$> survivors seen l) as Hc'
          by (by apply list_elem_of_fmap_2).
        apply survivors_hashes in Hc' as [Hn _]. done. }
      rewrite bool_decide_eq_false_2 by congruence. by eapply IH.
    + intros [->|Hc]%elem_of_cons.
      * cbn [hash normalize]. rewrite bool_decide_eq_true_2 by done. by exists s.
      * assert (hash c ≠ h) as Hne.
        { intros Heq. subst h.
          assert (hash c ∈ hash <$> survivors ({[hash c]} ∪ seen) l) as Hc'
            by (by apply list_elem_of_fmap_2).
          apply survivors_hashes in Hc' as [Hn _]. set_solver. }
        rewrite bool_decide_eq_false_2 by congruence. by eapply IH.
  - intros Hc. rewrite bool_decide_eq_false_2 by congruence. by eapply IH.
Qed.

(** The output has one candidate per distinct hash. *)
Lemma survivors_size l :
  length (survivors ∅ l)
  = base.size (list_to_set (omap hashOf l) : gset string).
Proof.
  rewrite <-(length_fmap hash).
  rewrite <-(size_list_to_set (C := gset string)) by apply survivors_NoDup.
  f_equal. apply set_eq. intros h.
  rewrite !elem_of_list_to_set, survivors_hashes, list_elem_of_omap.
  set_solver.
Qed.

(** The count as the testable property of the specification reads it: when
    one hash is carried by a group of [S m] candidates and the other hashes
    are carried once each, all but [m] of the candidates with a hash
    survive. *)
Lemma dedup_single_group allResults h0 m others :
  omap hashOf (processed allResults) ≡ₚ replicate (S m) h0 ++ others →
  NoDup others → h0 ∉ others →
  length (getStreams (Some allResults))
  = (countHashed (processed allResults) - S m + 1)%nat.
Proof.
  intros Hp Hnd Hnot. unfold getStreams, countHashed.
  rewrite combine_survivors, survivors_size, Hp.
  rewrite length_app, length_replicate.
  assert (list_to_set (replicate (S m) h0 ++ others)
          = ({[h0]} ∪ list_to_set others : gset string)) as ->.
  { apply set_eq. intros h.
    rewrite elem_of_list_to_set, elem_of_app, elem_of_replicate.
    rewrite elem_of_union, elem_of_singleton, elem_of_list_to_set.
    split; [intros [[-> _]|?]; by eauto|intros [->|?]; [left; by split|by right]]. }
  rewrite size_union by (rewrite disjoint_singleton_l, elem_of_list_to_set; done).
  rewrite size_singleton, size_list_to_set by done. lia.
Qed.

(** C2, as the claim words it, fails: of three candidates with a hash, one
    of which repeats the hash of an earlier one (N = 3, M = 1), two survive,
    not N - M + 1 = 3. *)
Lemma dedup_count_off_by_one :
  countHashed (processed Samples.two_backends) = 3%nat ∧
  countRepeated ∅ (processed Samples.two_backends) = 1%nat ∧
  length (getStreams (Some Samples.two_backends)) = 2%nat ∧
  length (getStreams (Some Samples.two_backends))
    ≠ (countHashed (processed Samples.two_backends)
       - countRepeated ∅ (processed Samples.two_backends) + 1)%nat.
Proof. vm_compute. repeat split; congruence. Qed.

(** C2, amended: with N candidates that carry a recoverable hash, M of which
    repeat the hash of an earlier candidate, the output has exactly N - M
    candidates, one per distinct hash, each built from the first candidate
    seen with that hash; candidates without a recoverable hash are dropped. *)
Theorem getStreams_dedup (allResults : list Settled) :
  let candidates := processed allResults in
  let output := getStreams (Some allResults) in
  length output
    = (countHashed candidates - countRepeated ∅ candidates)%nat ∧
  NoDup (hash <$> output) ∧
  (∀ h, h ∈ hash <$> output ↔ ∃ s, s ∈ candidates ∧ hashOf s = Some h) ∧
  (∀ c, c ∈ output →
        ∃ s, firstWith (hash c) candidates = Some s ∧
             hashOf s = Some (hash c) ∧
             c = normalize (hash c) s).
Proof.
  intros candidates output. unfold output, getStreams.
  rewrite combine_survivors. fold candidates.
  split; [pose proof (survivors_count candidates ∅); lia|].
  split; [apply survivors_NoDup|]. split.
  - intros h. rewrite survivors_hashes. set_solver.
  - intros c Hc. destruct (survivors_first _ _ _ Hc) as (s & Hs & Heq).
    exists s. split; [done|]. split; [|done].
    apply find_some in Hs as [_ Hs]. by apply bool_decide_eq_true in Hs.
Qed.

End AggregatorFacts.

(** ** Movie file selection *)

Section MovieFacts.
Import Premiumize.




End MovieFacts.

(** ** Episode file selection *)

Section EpisodeFacts.
Import Premiumize.

Lemma find_firstWhere {A : Type} (P : A → bool) (l : list A) (x : A) :
  List.find P l = Some x → firstWhere P l x.
Proof.
  induction l as [|y l IH]; [done|]. cbn [List.find].
  destruct (P y) eqn:Hy.
  - intros [= ->]. exists [], l. by repeat split.
  - intros (l1 & l2 & -> & Hx & Hl1)%IH.
    exists (y :: l1), l2. repeat split; [done|]. by constructor.
Qed.

Lemma find_none_Forall {A : Type} (P : A → bool) (l : list A) :
  List.find P l = None ↔ Forall (λ y, P y = false) l.
Proof.
  induction l as [|y l IH]; cbn [List.find]; [by split; [constructor|]|].
  destruct (P y) eqn:Hy.
  - split; [done|]. intros [Hy' _]%Forall_cons. congruence.
  - rewrite IH, Forall_cons. tauto.
Qed.

Lemma find_is_Some {A : Type} (P : A → bool) (l : list A) (x : A) :
  x ∈ l → P x = true → is_Some (List.find P l).
Proof.
  intros Hx HP. destruct (List.find P l) eqn:Hf; [done|].
  apply find_none_Forall in Hf. rewrite Forall_forall in Hf.
  specialize (Hf _ Hx). congruence.
Qed.

Lemma exactMatch_find videoFiles s e :
  exactMatch videoFiles s e = List.find (exactly s e) videoFiles.
Proof. reflexivity. Qed.

Lemma looseMatch_find videoFiles s e :
  looseMatch videoFiles s e = List.find (loosely s e) videoFiles.
Proof. reflexivity. Qed.

Lemma seasonPack_filter videoFiles s :
  seasonPack videoFiles s =
    match List.filter (inSeason s) videoFiles with
    | first :: rest => Some (largest first rest)
    | [] => None
    end.
Proof. reflexivity. Qed.

(** The reduction keeps the first of the largest files. *)
Lemma largest_first_max rest first :
  ∃ l1 l2, first :: rest = l1 ++ largest first rest :: l2 ∧
           Forall (λ g, size g < size (largest first rest)) l1 ∧
           Forall (λ g, size g <= size (largest first rest)) l2.
Proof.
  revert first. induction rest as [|x rest IH]; intros first.
  { exists [], []. by repeat split. }
  unfold largest. cbn [foldl]. fold (largest (if size first <? size x then x else first) rest).
  destruct (Z.ltb_spec (size first) (size x)) as [Hlt|Hge].
  - destruct (IH x) as (l1 & l2 & Heq & Hl1 & Hl2).
    exists (first :: l1), l2. split; [by rewrite Heq|]. split; [|done].
    constructor; [|done].
    assert (size x <= size (largest x rest)); [|lia].
    destruct l1 as [|y l1]; simpl in Heq; injection Heq as Hx Hr.
    + rewrite <-Hx. lia.
    + subst y. apply Forall_cons in Hl1 as [? _]. lia.
  - destruct (IH first) as (l1 & l2 & Heq & Hl1 & Hl2).
    destruct l1 as [|y l1]; simpl in Heq; injection Heq as Hx Hr.
    + exists [], (x :: l2). split; [simpl; by rewrite <-Hx, Hr|].
      split; [constructor|]. constructor; [rewrite <-Hx; lia|done].
    + subst y. exists (first :: x :: l1), l2.
      split; [simpl; do 2 f_equal; exact Hr|].
      split; [|done]. apply Forall_cons in Hl1 as [Hf Hl1].
      repeat constructor; [done|lia|done].
Qed.

(** C7: a video file that hits an exact pattern wins over every loose
    match, wherever it stands in the list; a loose match wins over the
    season-pack fallback; and for season 2 episode 5 the file
    [Show.S02E05.mkv] is selected, not [Show.S02E06.mkv]. *)
Theorem findEpisodeFile_passes_in_order :
  (∀ files s e,
     let videoFiles := List.filter isVideo files in
     (∀ g, g ∈ videoFiles → exactly s e g = true →
           ∃ f, findEpisodeFile files s e = Some f ∧
                firstWhere (exactly s e) videoFiles f) ∧
     (Forall (λ g, exactly s e g = false) videoFiles →
      ∀ g, g ∈ videoFiles → loosely s e g = true →
           ∃ f, findEpisodeFile files s e = Some f ∧
                firstWhere (loosely s e) videoFiles f) ∧
     (Forall (λ g, exactly s e g = false) videoFiles →
      Forall (λ g, loosely s e g = false) videoFiles →
      findEpisodeFile files s e = seasonPack videoFiles s)) ∧
  (∀ size1 size2,
     findEpisodeFile (Samples.episode_files size1 size2) 2 5
       = Some (Samples.content "Show.S02E05.mkv" size1)).
Proof.
  split; [|reflexivity].
  intros files s e videoFiles. unfold findEpisodeFile. fold videoFiles.
  rewrite exactMatch_find, looseMatch_find. repeat split.
  - intros g Hg Hex.
    destruct (find_is_Some _ _ _ Hg Hex) as [f Hf]. rewrite Hf.
    exists f. split; [done|]. by apply find_firstWhere.
  - intros Hnone g Hg Hloose.
    apply find_none_Forall in Hnone. rewrite Hnone.
    destruct (find_is_Some _ _ _ Hg Hloose) as [f Hf]. rewrite Hf.
    exists f. split; [done|]. by apply find_firstWhere.
  - intros Hnone Hnone'.
    apply find_none_Forall in Hnone, Hnone'. by rewrite Hnone, Hnone'.
Qed.

(** C8, as the claim words it, fails: for the dotted names no pass matches,
    the season pattern included, and nothing is selected. *)
Lemma season_pack_dotted_not_found :
  Re.test (seasonPattern 3) "show.season.3.complete.mkv" = false ∧
  findEpisodeFile Samples.season3_dotted 3 9 = None.
Proof. split; reflexivity. Qed.

(** C8, amended: when no exact and no loose pattern matches, the fallback
    returns, among the video files that match [season\s*N|sNN] and are not
    a sample or trailer, the first of the largest ones, and nothing when
    there is none; with [Season 3] in the names the 8000 MB file is
    returned, not the sample. *)
Theorem season_pack_fallback_largest (files : list FileEntry) (s e : nat) :
  let videoFiles := List.filter isVideo files in
  exactMatch videoFiles s e = None →
  looseMatch videoFiles s e = None →
  match findEpisodeFile files s e with
  | Some f =>
      ∃ l1 l2, List.filter (inSeason s) videoFiles = l1 ++ f :: l2 ∧
               Forall (λ g, size g < size f) l1 ∧
               Forall (λ g, size g <= size f) l2
  | None => List.filter (inSeason s) videoFiles = []
  end ∧
  findEpisodeFile Samples.season3_blank 3 9 = Some Samples.season3_complete.
Proof.
  intros videoFiles Hexact Hloose. split; [|reflexivity].
  unfold findEpisodeFile. fold videoFiles. rewrite Hexact, Hloose.
  rewrite seasonPack_filter.
  destruct (List.filter (inSeason s) videoFiles) as [|first rest]; [done|].
  apply largest_first_max.
Qed.

Lemma season_pack_fallback_largest_witness :
  exactMatch (List.filter isVideo Samples.season3_blank) 3 9 = None ∧
  looseMatch (List.filter isVideo Samples.season3_blank) 3 9 = None ∧
  match findEpisodeFile Samples.season3_blank 3 9 with
  | Some f =>
      ∃ l1 l2,
        List.filter (inSeason 3) (List.filter isVideo Samples.season3_blank)
          = l1 ++ f :: l2 ∧
        Forall (λ g, size g < size f) l1 ∧
        Forall (λ g, size g <= size f) l2
  | None =>
      List.filter (inSeason 3) (List.filter isVideo Samples.season3_blank) = []
  end ∧
  findEpisodeFile Samples.season3_blank 3 9 = Some Samples.season3_complete.
Proof.
  split; [reflexivity|]. split; [reflexivity|].
  apply (season_pack_fallback_largest Samples.season3_blank 3 9); reflexivity.
Defined.

End EpisodeFacts.

(** ** Batched cache check *)

Section BatchFacts.
Import Premiumize.

Lemma ceil_step (n i : nat) :
  (i < n → S ((n - (i + 99) + 98) / 99) = (n - i + 98) / 99)%nat.
Proof.
  intros Hi. destruct (Nat.le_gt_cases 99 (n - i)).
  - replace (n - i + 98)%nat with ((n - (i + 99) + 98) + 1 * 99)%nat by lia.
    rewrite Nat.div_add by lia. lia.
  - replace (n - (i + 99) + 98)%nat with 98%nat by lia.
    apply (Nat.div_unique _ 99 1 (n - i - 1)); lia.
Qed.

Lemma slice_take i hashes : slice i (i + batchSize) hashes = take 99 (drop i hashes).
Proof. unfold slice, batchSize. f_equal. lia. Qed.

Lemma batchesFrom_length hashes fuel i :
  (length hashes ≤ fuel + i)%nat →
  length (batchesFrom fuel i hashes) = ((length hashes - i + 98) / 99)%nat.
Proof.
  revert i. induction fuel as [|fuel IH]; intros i Hf; cbn [batchesFrom].
  - by replace (length hashes - i)%nat with 0%nat by lia.
  - destruct (Nat.ltb_spec i (length hashes)) as [Hlt|Hge].
    + cbn [length]. rewrite IH by (unfold batchSize; lia).
      unfold batchSize. by apply ceil_step.
    + by replace (length hashes - i)%nat with 0%nat by lia.
Qed.

Lemma batchesFrom_lookup hashes fuel i k b :
  (length hashes ≤ fuel + i)%nat →
  batchesFrom fuel i hashes !! k = Some b ↔
    (i + 99 * k < length hashes)%nat ∧ b = take 99 (drop (i + 99 * k) hashes).
Proof.
  revert i k. induction fuel as [|fuel IH]; intros i k Hf; cbn [batchesFrom].
  - rewrite lookup_nil. split; [done|]. intros [? _]. lia.
  - destruct (Nat.ltb_spec i (length hashes)) as [Hlt|Hge].
    + rewrite slice_take. destruct k as [|k].
      * cbn [lookup list_lookup]. rewrite Nat.mul_0_r, Nat.add_0_r.
        split; [by intros [= <-]|]. by intros [_ ->].
      * cbn [lookup list_lookup].
        change (batchesFrom fuel (i + batchSize) hashes !! k = Some b ↔
                (i + 99 * S k < length hashes)%nat ∧
                b = take 99 (drop (i + 99 * S k) hashes)).
        rewrite IH by (unfold batchSize; lia). unfold batchSize.
        by replace (i + 99 + 99 * k)%nat with (i + 99 * S k)%nat by lia.
    + rewrite lookup_nil. split; [done|]. intros [? _]. lia.
Qed.

Lemma makeBatches_length hashes :
  length (makeBatches hashes) = ((length hashes + 98) / 99)%nat.
Proof.
  unfold makeBatches. rewrite batchesFrom_length by lia.
  by rewrite Nat.sub_0_r.
Qed.

Lemma makeBatches_lookup hashes k b :
  makeBatches hashes !! k = Some b ↔
    (99 * k < length hashes)%nat ∧ b = take 99 (drop (99 * k) hashes).
Proof. unfold makeBatches. by rewrite batchesFrom_lookup by lia. Qed.


Lemma makeBatches_element hashes k b idx h :
  makeBatches hashes !! k = Some b → b !! idx = Some h →
  (idx < 99)%nat ∧ hashes !! (99 * k + idx)%nat = Some h.
Proof.
  intros [Hk ->]%makeBatches_lookup Hidx.
  apply lookup_take_Some in Hidx as [Hidx Hlt].
  by rewrite lookup_drop in Hidx.
Qed.

(** *** One batch *)

Lemma stored_snoc flags batch x results :
  stored flags (batch ++ [x]) results
  = <[x := statusOf (mjoin (flags !! length batch))]> (stored flags batch results).
Proof.
  unfold stored. rewrite imap_app, foldl_app. cbn [imap foldl].
  unfold assign at 1. cbn [fst snd compose]. by rewrite Nat.add_0_r.
Qed.



Lemma stored_dom flags batch results h :
  is_Some (stored flags batch results !! h) ↔ h ∈ batch ∨ is_Some (results !! h).
Proof.
  induction batch as [|x batch IH] using rev_ind.
  { unfold stored. simpl. set_solver. }
  rewrite stored_snoc. destruct (decide (x = h)) as [->|Hne].
  - rewrite lookup_insert_eq. set_solver.
  - rewrite lookup_insert_ne, IH by done. set_solver.
Qed.

(** *** The retry loop *)

Lemma attempt_throws api retries req lastError log error log' :
  attempt api retries req lastError log = (Throws error, log') →
  log' = log ++ replicate retries req.
Proof.
  revert lastError log. induction retries as [|n IH]; intros lastError log.
  { cbn [attempt replicate]. intros [= _ <-]. by rewrite app_nil_r. }
  cbn [attempt replicate]. destruct (api log req) as [e|data].
  - intros ->%IH. by rewrite <-app_assoc.
  - destruct (String.eqb (status data) "error"); [|done].
    intros ->%IH. by rewrite <-app_assoc.
Qed.

Lemma makeRequest_answered api req log data :
  api log req = Json data → String.eqb (status data) "error" = false →
  makeRequest api req log = (Ok data, log ++ [req]).
Proof. intros Ha Hs. unfold makeRequest. cbn [attempt]. by rewrite Ha, Hs. Qed.

(** *** The loop over the batches *)

Lemma checkBatches_app api pre post results log :
  checkBatches api (pre ++ post) results log =
    match checkBatches api pre results log with
    | (Ok results', log') => checkBatches api post results' log'
    | (Throws error, log') => (Throws error, log')
    end.
Proof.
  revert results log. induction pre as [|b pre IH]; intros results log; [done|].
  cbn [app checkBatches].
  destruct (makeRequest api (CacheCheck b) log) as [[data|error] log']; [|done].
  destruct (storeBatch data b results) as [results'|error]; [|done].
  apply IH.
Qed.

End BatchFacts.

Section Answered.
Import Premiumize.
(** A run in which the provider answers the request of every batch: the
    [k]-th answer carries the array [flags k]. *)
Variables (api : Api) (flags : nat → list (option bool)).
Variable all : list (list string).
Hypothesis answered :
  ∀ k batch, all !! k = Some batch →
    ∃ data, api (CacheCheck <$> take k all) (CacheCheck batch) = Json data ∧
            String.eqb (status data) "error" = false ∧
            response data = Some (flags k).


End Answered.

Section CacheCheckFacts.
Import Premiumize.

Lemma last_occurrence (hashes : list string) (h : string) :
  h ∈ hashes →
  ∃ j, hashes !! j = Some h ∧ ∀ j', (j < j')%nat → hashes !! j' ≠ Some h.
Proof.
  induction hashes as [|x hashes IH] using rev_ind; [by intros ?%elem_of_nil|].
  intros Hh. destruct (decide (x = h)) as [->|Hne].
  - exists (length hashes). split.
    + by rewrite lookup_app_r, Nat.sub_diag by lia.
    + intros j' Hj' Hl. apply lookup_lt_Some in Hl.
      rewrite length_app in Hl. simpl in Hl. lia.
  - destruct IH as (j & Hj & Hlast); [set_solver|].
    exists j. split; [by apply lookup_app_l_Some|].
    intros j' Hj' Hl. apply lookup_app_Some in Hl as [Hl|[_ Hl]].
    + by apply (Hlast j').
    + apply list_lookup_singleton_Some in Hl as [_ ?]. done.
Qed.



(** The first chunk of a run against the provider that answers once. *)
Lemma flaky_first_chunk (batch : list string) :
  checkBatches Samples.flaky [batch] ∅ []
  = (Ok (stored (replicate 99 (Some true)) batch ∅), [CacheCheck batch]).
Proof.
  cbn [checkBatches].
  by rewrite (makeRequest_answered Samples.flaky (CacheCheck batch) []
                Samples.all_cached eq_refl eq_refl).
Qed.

(** C4, as the claim words it, fails: the second of two chunks fails after
    the first was stored, and the mapping returned is empty, not the 99
    results of the first chunk. *)
Lemma failed_chunk_loses_first_chunk :
  let hashes := take 100 Samples.many_hashes in
  ∃ partial log1,
    makeBatches hashes = [take 99 hashes; drop 99 hashes] ∧
    checkBatches Samples.flaky [take 99 hashes] ∅ [] = (Ok partial, log1) ∧
    base.size partial = 99%nat ∧
    (makeRequest Samples.flaky (CacheCheck (drop 99 hashes)) log1).1
      = Throws "The operation was aborted" ∧
    (checkCacheStatuses Samples.flaky hashes []).1 = ∅ ∧
    (checkCacheStatuses Samples.flaky hashes []).1 ≠ partial.
Proof.
  intros hashes.
  exists (stored (replicate 99 (Some true)) (take 99 hashes) ∅),
         [CacheCheck (take 99 hashes)].
  assert (base.size (stored (replicate 99 (Some true)) (take 99 hashes) ∅) = 99%nat)
    as Hsize by (by vm_compute).
  split; [by vm_compute|]. split; [apply flaky_first_chunk|].
  split; [exact Hsize|]. split; [by vm_compute|].
  assert ((checkCacheStatuses Samples.flaky hashes []).1 = ∅) as Hempty
    by (by vm_compute).
  split; [exact Hempty|]. rewrite Hempty. intros Heq.
  apply (f_equal base.size) in Heq.
  rewrite Hsize, map_size_empty in Heq. discriminate Heq.
Qed.

(** C4, amended: when the request of a chunk fails after the chunks before
    it succeeded, the mapping returned is empty (the results stored so far
    are given up) and the last requests sent are the three attempts for the
    failed chunk: the remaining chunks are not requested. *)
Theorem failed_chunk_returns_nothing (api : Api) (hashes : list string)
    (pre post : list (list string)) (batch : list string)
    (stored_so_far : gmap string CacheStatus) (log1 log2 : list Request)
    (error : string) :
  makeBatches hashes = pre ++ batch :: post →
  checkBatches api pre ∅ [] = (Ok stored_so_far, log1) →
  makeRequest api (CacheCheck batch) log1 = (Throws error, log2) →
  checkCacheStatuses api hashes [] = (∅, log2) ∧
  log2 = log1 ++ replicate 3 (CacheCheck batch).
Proof.
  intros Hsplit Hpre Hfail. unfold checkCacheStatuses.
  rewrite Hsplit, checkBatches_app, Hpre. cbn [checkBatches]. rewrite Hfail.
  split; [done|]. exact (attempt_throws _ _ _ _ _ _ _ Hfail).
Qed.

Lemma failed_chunk_returns_nothing_witness :
  let hashes := take 100 Samples.many_hashes in
  let log1 := [CacheCheck (take 99 hashes)] in
  let log2 := log1 ++ replicate 3 (CacheCheck (drop 99 hashes)) in
  makeBatches hashes = [take 99 hashes] ++ drop 99 hashes :: [] ∧
  checkBatches Samples.flaky [take 99 hashes] ∅ []
    = (Ok (stored (replicate 99 (Some true)) (take 99 hashes) ∅), log1) ∧
  makeRequest Samples.flaky (CacheCheck (drop 99 hashes)) log1
    = (Throws "The operation was aborted", log2) ∧
  checkCacheStatuses Samples.flaky hashes [] = (∅, log2) ∧
  log2 = log1 ++ replicate 3 (CacheCheck (drop 99 hashes)).
Proof.
  intros hashes log1 log2.
  split; [by vm_compute|]. split; [apply flaky_first_chunk|].
  split; [by vm_compute|].
  apply (failed_chunk_returns_nothing Samples.flaky hashes
           [take 99 hashes] [] (drop 99 hashes)
           (stored (replicate 99 (Some true)) (take 99 hashes) ∅)
           log1 log2 "The operation was aborted");
    [by vm_compute|apply flaky_first_chunk|by vm_compute].
Defined.

End CacheCheckFacts.

(** ** Cache prober *)

Section ProberFacts.
Import Prober.

Lemma toLowerCase_truthy s : Js.truthy (Js.toLowerCase s) = Js.truthy s.
Proof. by destruct s. Qed.

Lemma validStreams_elem streams c :
  c ∈ validStreams streams ↔
    Some c ∈ streams ∧ Js.truthy (Aggregator.hash c) = true.
Proof.
  unfold validStreams. rewrite list_elem_of_omap. split.
  - intros ([c'|] & Hin & Hc); [|done].
    destruct (Js.truthy (Aggregator.hash c')) eqn:Ht; [|done].
    injection Hc as <-. done.
  - intros [Hin Ht]. exists (Some c). by rewrite Ht.
Qed.

(** An entry of the map was written for one of the streams. *)
Lemma record_origin results l m h e :
  foldl (record results) m l !! h = Some e →
  m !! h = Some e ∨
  ∃ c r, c ∈ l ∧ Js.truthy (Aggregator.hash c) = true ∧ lowerHash c = h ∧
         results !! h = Some r ∧ e = entryOf c r.
Proof.
  revert m. induction l as [|x l IH] using rev_ind; intros m; [by left|].
  rewrite foldl_app. cbn [foldl]. unfold record at 1.
  destruct (Js.truthy (Aggregator.hash x)) eqn:Ht; cbn [negb].
  - destruct (results !! lowerHash x) as [r|] eqn:Hr.
    + destruct (decide (lowerHash x = h)) as [<-|Hne].
      * rewrite lookup_insert_eq. intros [= <-]. right.
        exists x, r. repeat split; [set_solver|done..].
      * rewrite lookup_insert_ne by done.
        intros [?|(c & r' & ? & ?)]%IH; [by left|].
        right. exists c, r'. split; [set_solver|done].
    + intros [?|(c & r' & ? & ?)]%IH; [by left|].
      right. exists c, r'. split; [set_solver|done].
  - intros [?|(c & r' & ? & ?)]%IH; [by left|].
    right. exists c, r'. split; [set_solver|done].
Qed.

(** A stream the provider has a result for gets an entry: the one of the
    last stream with its hash. *)
Lemma record_written results l m c r :
  c ∈ l → Js.truthy (Aggregator.hash c) = true →
  results !! lowerHash c = Some r →
  ∃ c', c' ∈ l ∧ lowerHash c' = lowerHash c ∧
        foldl (record results) m l !! lowerHash c = Some (entryOf c' r).
Proof.
  revert m. induction l as [|x l IH] using rev_ind; intros m;
    [by intros ?%elem_of_nil|].
  intros Hc Ht Hr. rewrite foldl_app. cbn [foldl].
  destruct (decide (lowerHash x = lowerHash c)) as [Heq|Hne].
  - exists x. split; [set_solver|]. split; [done|].
    unfold record. assert (Js.truthy (Aggregator.hash x) = true) as ->.
    { rewrite <-toLowerCase_truthy. fold (lowerHash x).
      rewrite Heq. unfold lowerHash. by rewrite toLowerCase_truthy. }
    cbn [negb]. rewrite Heq, Hr. by rewrite lookup_insert_eq.
  - assert (c ∈ l) as Hl.
    { apply elem_of_app in Hc as [?|Hx]; [done|].
      apply list_elem_of_singleton in Hx. by subst x. }
    destruct (IH m Hl Ht Hr) as (c' & Hc' & Hh & Hlook).
    exists c'. split; [set_solver|]. split; [done|].
    unfold record at 1. destruct (Js.truthy (Aggregator.hash x)); cbn [negb];
      [|done].
    destruct (results !! lowerHash x); [|done].
    by rewrite lookup_insert_ne.
Qed.

Lemma serviceStreams_elem name cacheMap s :
  s ∈ serviceStreams name cacheMap ↔
    ∃ h e, cacheMap !! h = Some e ∧ Js.truthy (hash e) = true ∧
           cached e = true ∧
           s = {| stream := e; serviceName := name;
                  streamHash := Js.toLowerCase (hash e) |}.
Proof.
  unfold serviceStreams. rewrite list_elem_of_fmap. split.
  - intros (e & -> & He). apply list_elem_of_In, filter_In in He as [He Hf].
    apply list_elem_of_In, list_elem_of_fmap in He as ([h e'] & -> & He).
    apply elem_of_map_to_list in He. apply andb_true_iff in Hf as [? ?].
    by exists h, e'.
  - intros (h & e & He & Ht & Hc & ->). exists e. split; [done|].
    apply list_elem_of_In, filter_In. split; [|by rewrite Ht, Hc].
    apply list_elem_of_In, list_elem_of_fmap. exists (h, e). split; [done|].
    by apply elem_of_map_to_list.
Qed.

Lemma entryOf_cached c r :
  cached (entryOf c r) = true ↔ Premiumize.cached r ≠ Some false.
Proof.
  cbn [cached entryOf]. rewrite negb_true_iff, bool_decide_eq_false. done.
Qed.

Lemma checkCacheStatuses_fold service streams results :
  service (lowerHash <$> validStreams streams) = Some results →
  checkCacheStatuses service streams
  = foldl (record results) ∅ (validStreams streams).
Proof.
  intros Hs. unfold checkCacheStatuses.
  destruct (Nat.eqb_spec (length streams) 0) as [Hz|_].
  { apply length_zero_iff_nil in Hz. by subst streams. }
  destruct (Nat.eqb_spec (length (validStreams streams)) 0) as [Hz|_].
  { apply length_zero_iff_nil in Hz. by rewrite Hz. }
  by rewrite Hs.
Qed.

(** C5, as the claim words it, fails: the provider's answer leaves the
    [cached] field of a result undefined, and the entry is retained. *)
Lemma undefined_cached_is_retained :
  let candidates := Some <$> Aggregator.getStreams (Some Samples.two_backends) in
  let h := "abcdef0123456789abcdef0123456789abcdef01" in
  ∃ results,
    Samples.adapter Samples.silent (lowerHash <$> validStreams candidates)
      = Some results ∧
    Premiumize.cached <$> results !! h = Some None ∧
    h ∈ (λ s, hash (stream s))
          <$> probe "Premiumize" (Samples.adapter Samples.silent) candidates.
Proof.
  intros candidates h. eexists. split; [reflexivity|].
  split; [by vm_compute|]. vm_compute. repeat constructor.
Qed.

(** C5, amended: an entry is retained if and only if the provider returned
    a result for the lower-cased hash of a candidate and the [cached] field
    of that result is not [false]; an absent or undefined field counts as
    cached, and the retained entry has [cached] set to [true].  A retained
    entry carries the candidate's magnet link, its file name and source (or
    [Unknown]), its display title (or the file name), and its quality and
    size (or what the file name shows of them). *)
Theorem probe_retains_unless_false (name : string) (service : Provider)
    (streams : list (option Aggregator.Candidate))
    (results : gmap string Premiumize.CacheStatus) :
  service (lowerHash <$> validStreams streams) = Some results →
  let output := probe name service streams in
  (∀ c r, c ∈ validStreams streams → results !! lowerHash c = Some r →
          ((∃ s, s ∈ output ∧ hash (stream s) = lowerHash c) ↔
           Premiumize.cached r ≠ Some false)) ∧
  (∀ s, s ∈ output →
        ∃ c r, Some c ∈ streams ∧
               results !! lowerHash c = Some r ∧
               Premiumize.cached r ≠ Some false ∧
               stream s = entryOf c r ∧
               cached (stream s) = true ∧
               serviceName s = name ∧
               hash (stream s) = lowerHash c ∧
               magnetLink (stream s) = Aggregator.magnetLink c ∧
               filename (stream s)
                 = Js.or_else (Aggregator.filename c) "Unknown" ∧
               websiteTitle (stream s)
                 = Js.or_else (Aggregator.websiteTitle c)
                     (Js.or_else (Aggregator.filename c) "Unknown") ∧
               quality (stream s)
                 = Js.or_else (Aggregator.quality c)
                     (Aggregator.match0 Aggregator.re_quality
                        (Aggregator.filename c)) ∧
               size (stream s)
                 = Js.or_else (Aggregator.size c)
                     (Aggregator.match0 Aggregator.re_size
                        (Aggregator.filename c)) ∧
               source (stream s)
                 = Js.or_else (Aggregator.source c) "Unknown").
Proof.
  intros Hservice output. subst output. unfold probe.
  rewrite (checkCacheStatuses_fold _ _ _ Hservice). split.
  - intros c r Hc Hr. pose proof Hc as [_ Ht]%validStreams_elem.
    destruct (record_written results _ ∅ c r Hc Ht Hr) as (c' & Hc' & Hh & Hl).
    split.
    + intros (s & (h & e & He & _ & Hcached & ->)%serviceStreams_elem & Hhash).
      cbn [stream] in Hhash.
      apply record_origin in He as [He|(c2 & r2 & _ & _ & Hh2 & Hr2 & ->)];
        [by rewrite lookup_empty in He|].
      cbn [hash entryOf] in Hhash. rewrite <-Hh2, Hhash, Hr in Hr2.
      injection Hr2 as <-. by apply entryOf_cached in Hcached.
    + intros Hcached. eexists. split.
      * apply serviceStreams_elem. exists (lowerHash c), (entryOf c' r).
        split; [exact Hl|]. split; [|split; [by apply entryOf_cached|done]].
        cbn [hash entryOf]. rewrite Hh. unfold lowerHash.
        by rewrite toLowerCase_truthy.
      * cbn [stream hash entryOf]. exact Hh.
  - intros s (h & e & He & _ & Hcached & ->)%serviceStreams_elem.
    apply record_origin in He as [He|(c & r & Hc & _ & <- & Hr & ->)];
      [by rewrite lookup_empty in He|].
    apply validStreams_elem in Hc as [Hc _].
    exists c, r. split; [done|]. split; [done|].
    split; [by apply (entryOf_cached c r)|]. by repeat split.
Qed.

Lemma probe_retains_unless_false_witness :
  let streams := Some <$> Aggregator.getStreams (Some Samples.two_backends) in
  let service := Samples.adapter Samples.silent in
  ∃ results,
    service (lowerHash <$> validStreams streams) = Some results ∧
    ∀ c r, c ∈ validStreams streams → results !! lowerHash c = Some r →
           ((∃ s, s ∈ probe "Premiumize" service streams ∧
                  hash (stream s) = lowerHash c) ↔
            Premiumize.cached r ≠ Some false).
Proof.
  intros streams service. eexists. split; [reflexivity|].
  apply (probe_retains_unless_false "Premiumize" service streams).
  reflexivity.
Defined.

End ProberFacts.

(** ** Resolve handler *)

Section ResolverFacts.
Import Resolver.
Variable extractInfoHash : string → option string.
Variable parseQuality : string → Z.
















End ResolverFacts.


(** * Further facts *)

(** ** The matcher finds only what the pattern matches *)

Section ReFacts.
Import Re ReSpec.

Lemma run_sound r s rest :
  rest ∈ run r s → ∃ w, s = w ++ rest ∧ Matches r w rest.
Proof.
  revert s rest. induction r as [|p|r1 IH1 r2 IH2|r1 IH1 r2 IH2|r1 IH1|];
    intros s rest; cbn [run].
  - intros ->%list_elem_of_singleton. exists []. split; [done|constructor].
  - destruct s as [|c s']; [by intros ?%elem_of_nil|].
    destruct (p c) eqn:Hp; [|by intros ?%elem_of_nil].
    intros ->%list_elem_of_singleton. exists [c]. split; [done|by constructor].
  - intros Hin. apply list_elem_of_In, in_flat_map in Hin as (mid & Hmid & Hrest).
    apply list_elem_of_In, IH1 in Hmid as (w1 & -> & H1).
    apply list_elem_of_In, IH2 in Hrest as (w2 & -> & H2).
    exists (w1 ++ w2). split; [by rewrite app_assoc|by constructor].
  - intros [Hin|Hin]%elem_of_app.
    + apply IH1 in Hin as (w & -> & H1). exists w. split; [done|by apply MOrL].
    + apply IH2 in Hin as (w & -> & H2). exists w. split; [done|by apply MOrR].
  - generalize (length s) as n. intros n. revert s rest.
    induction n as [|n IHn]; intros s rest.
    + intros ->%list_elem_of_singleton. exists []. split; [done|constructor].
    + intros [Hin| ->%list_elem_of_singleton]%elem_of_app;
        [|exists []; split; [done|constructor]].
      apply list_elem_of_In, in_flat_map in Hin as (mid & Hmid & Hrest).
      apply list_elem_of_In, list_elem_of_filter in Hmid as [Hshort Hmid].
      apply IH1 in Hmid as (w1 & -> & H1).
      apply list_elem_of_In, IHn in Hrest as (w2 & -> & H2).
      exists (w1 ++ w2). split; [by rewrite app_assoc|].
      constructor; [|done..]. intros ->. cbn [app] in Hshort. lia.
  - destruct s; [|by intros ?%elem_of_nil].
    intros ->%list_elem_of_singleton. exists []. split; [done|constructor].
Qed.

Lemma search_unfold r s :
  search r s =
    match run r s with
    | rest :: _ => Some (take (length s - length rest) s)
    | [] => match s with [] => None | _ :: s' => search r s' end
    end.
Proof. by destruct s. Qed.

Lemma search_here r s rest others :
  run r s = rest :: others →
  ∃ w, s = w ++ rest ∧ search r s = Some w ∧ Matches r w rest.
Proof.
  intros Hrun. assert (rest ∈ run r s) as Hin by (rewrite Hrun; by left).
  apply run_sound in Hin as (w & Hw & Hm). exists w.
  split; [done|]. split; [|done].
  rewrite search_unfold, Hrun. subst s.
  by rewrite length_app, Nat.add_sub, take_app_length.
Qed.

(** A match found is a piece of the text that the pattern matches. *)
Lemma search_sound r s m :
  search r s = Some m → ∃ pre post, s = pre ++ m ++ post ∧ Matches r m post.
Proof.
  induction s as [|c s IH]; rewrite search_unfold;
    destruct (run r _) as [|rest others] eqn:Hrun; [done| | |].
  - destruct (search_here _ _ _ _ Hrun) as (w & Hw & Hs & Hm).
    rewrite search_unfold, Hrun in Hs. rewrite Hs. intros [= <-].
    exists [], rest. by split.
  - intros (pre & post & -> & Hm)%IH. by exists (c :: pre), post.
  - destruct (search_here _ _ _ _ Hrun) as (w & Hw & Hs & Hm).
    rewrite search_unfold, Hrun in Hs. rewrite Hs. intros [= <-].
    exists [], rest. by split.
Qed.

End ReFacts.


(** ** Batches and requests of the Premiumize adapter *)

Section BatchDiscipline.
Import Premiumize.

Lemma batchesFrom_concat hashes fuel i :
  (length hashes ≤ fuel + i)%nat →
  concat (batchesFrom fuel i hashes) = drop i hashes.
Proof.
  revert i. induction fuel as [|fuel IH]; intros i Hf; cbn [batchesFrom].
  - by rewrite drop_ge by lia.
  - destruct (Nat.ltb_spec i (length hashes)) as [Hlt|Hge].
    + cbn [concat]. rewrite IH by (unfold batchSize; lia).
      rewrite slice_take. unfold batchSize.
      rewrite <-(drop_drop hashes 99 i). apply take_drop.
    + by rewrite drop_ge by lia.
Qed.

Lemma makeBatches_sizes hashes b :
  b ∈ makeBatches hashes → (1 ≤ length b ≤ 99)%nat.
Proof.
  intros [k Hk]%list_elem_of_lookup.
  apply makeBatches_lookup in Hk as [Hk ->].
  rewrite length_take, length_drop. lia.
Qed.

(** X1: the batches cut the hash list into consecutive pieces: put end to
    end they give the list back, every batch holds between 1 and 99
    hashes, and every batch but the last holds exactly 99. *)
Theorem makeBatches_partition (hashes : list string) :
  concat (makeBatches hashes) = hashes ∧
  Forall (λ b, (1 ≤ length b ≤ 99)%nat) (makeBatches hashes) ∧
  (∀ k b, makeBatches hashes !! k = Some b →
          (S k < length (makeBatches hashes))%nat → length b = 99%nat).
Proof.
  split; [|split].
  - unfold makeBatches. by rewrite batchesFrom_concat by lia.
  - apply Forall_forall. intros b. apply makeBatches_sizes.
  - intros k b Hk Hnext.
    destruct (lookup_lt_is_Some_2 (makeBatches hashes) (S k) Hnext) as [b' Hb'].
    apply makeBatches_lookup in Hk as [Hk ->].
    apply makeBatches_lookup in Hb' as [Hk' _].
    rewrite length_take, length_drop. lia.
Qed.

Lemma attempt_requests api retries req lastError log :
  ∃ k, (k ≤ retries)%nat ∧
       (attempt api retries req lastError log).2 = log ++ replicate k req ∧
       match (attempt api retries req lastError log).1 with
       | Ok data =>
           (1 ≤ k)%nat ∧
           String.eqb (status data) "error" = false ∧
           api (log ++ replicate (k - 1) req) req = Json data
       | Throws error =>
           k = retries ∧
           (retries = 0%nat → error = lastError) ∧
           ((0 < retries)%nat →
            match api (log ++ replicate (retries - 1) req) req with
            | FetchFails e => error = e
            | Json data =>
                String.eqb (status data) "error" = true ∧
                error = (if String.eqb (message data) "Invalid API key."
                         then INVALID_API_KEY
                         else String.append "API Error: " (message data))
            end)
       end.
Proof.
  revert lastError log. induction retries as [|n IH]; intros lastError log.
  { exists 0%nat. cbn. rewrite app_nil_r. repeat split; [done|lia]. }
  cbn [attempt].
  assert (∀ e, ∃ k, (k ≤ S n)%nat ∧
            (attempt api n req e (log ++ [req])).2 = log ++ replicate k req ∧
            match (attempt api n req e (log ++ [req])).1 with
            | Ok data =>
                (1 ≤ k)%nat ∧ String.eqb (status data) "error" = false ∧
                api (log ++ replicate (k - 1) req) req = Json data
            | Throws error =>
                k = S n ∧ (n = 0%nat → error = e) ∧
                ((0 < n)%nat →
                 match api (log ++ replicate (S n - 1) req) req with
                 | FetchFails e' => error = e'
                 | Json data =>
                     String.eqb (status data) "error" = true ∧
                     error = (if String.eqb (message data) "Invalid API key."
                              then INVALID_API_KEY
                              else String.append "API Error: " (message data))
                 end)
            end) as Hrec.
  { intros e. destruct (IH e (log ++ [req])) as (k & Hk & Hlog & Hres).
    exists (S k). split; [lia|]. split.
    { rewrite Hlog. cbn [replicate]. by rewrite <-app_assoc. }
    destruct (attempt api n req e (log ++ [req])).1 as [data|error].
    - destruct Hres as (Hk1 & Hs & Ha). split; [lia|]. split; [done|].
      rewrite <-Ha. f_equal. destruct k as [|k]; [lia|].
      cbn [replicate Nat.sub]. rewrite Nat.sub_0_r.
      by rewrite <-app_assoc.
    - destruct Hres as (-> & H0 & Hpos). split; [done|]. split; [done|].
      intros Hn. specialize (Hpos Hn).
      replace (S n - 1)%nat with (S (n - 1)) by lia.
      cbn [replicate]. rewrite <-app_assoc in Hpos. exact Hpos. }
  destruct (api log req) as [e|data] eqn:Hapi.
  - destruct (Hrec e) as (k & Hk & Hlog & Hres). exists k.
    split; [done|]. split; [done|].
    destruct (attempt api n req e (log ++ [req])).1 as [data|error]; [done|].
    destruct Hres as (-> & H0 & Hpos). split; [done|]. split; [done|].
    intros _. destruct n as [|n].
    + cbn [Nat.sub replicate]. rewrite app_nil_r, Hapi. by apply H0.
    + apply Hpos. lia.
  - destruct (String.eqb (status data) "error") eqn:Hs.
    + set (e := if String.eqb (message data) "Invalid API key."
                then INVALID_API_KEY
                else String.append "API Error: " (message data)).
      destruct (Hrec e) as (k & Hk & Hlog & Hres). exists k.
      split; [done|]. split; [done|].
      destruct (attempt api n req e (log ++ [req])).1 as [data'|error]; [done|].
      destruct Hres as (-> & H0 & Hpos). split; [done|]. split; [done|].
      intros _. destruct n as [|n].
      * cbn [Nat.sub replicate]. rewrite app_nil_r, Hapi. split; [done|].
        by apply H0.
      * apply Hpos. lia.
    + exists 1%nat. cbn [fst snd replicate Nat.sub]. rewrite app_nil_r.
      repeat split; [lia|done|done|done].
Qed.


Lemma checkBatches_requests api batches results log :
  ∃ sent,
    (checkBatches api batches results log).2 = log ++ sent ∧
    Forall (λ r, ∃ b, b ∈ batches ∧ r = CacheCheck b) sent ∧
    (length sent ≤ 3 * length batches)%nat ∧
    match (checkBatches api batches results log).1 with
    | Ok final =>
        ∀ h, is_Some (final !! h) →
             (∃ b, b ∈ batches ∧ h ∈ b) ∨ is_Some (results !! h)
    | Throws _ => True
    end.
Proof.
  revert results log. induction batches as [|b batches IH]; intros results log.
  { exists []. cbn. rewrite app_nil_r. repeat split; [constructor|lia|by right]. }
  cbn [checkBatches].
  destruct (attempt_requests api 3 (CacheCheck b) Js.absent log)
    as (k & Hk & Hlog & _).
  fold (makeRequest api (CacheCheck b) log) in Hlog.
  destruct (makeRequest api (CacheCheck b) log) as [[data|error] log'];
    cbn [snd] in Hlog; subst log'.
  - destruct (storeBatch data b results) as [results'|error] eqn:Hstore.
    + destruct (IH results' (log ++ replicate k (CacheCheck b)))
        as (sent & Hsent & Hall & Hlen & Hdom).
      exists (replicate k (CacheCheck b) ++ sent).
      split; [by rewrite Hsent, app_assoc|]. split; [|split].
      * apply Forall_app. split.
        -- apply Forall_replicate. exists b. split; [by left|done].
        -- eapply Forall_impl; [exact Hall|]. intros r (b' & Hb' & ->).
           exists b'. split; [by right|done].
      * rewrite length_app, length_replicate. cbn [length]. lia.
      * destruct (checkBatches api batches results' _).1 as [final|]; [|done].
        intros h [(b' & Hb' & Hh)|Hh]%Hdom.
        -- left. exists b'. split; [by right|done].
        -- unfold storeBatch in Hstore.
           destruct (response data) as [flags|];
             [|destruct b; [injection Hstore as <-; by right|done]].
           injection Hstore as <-. apply stored_dom in Hh as [Hh|Hh]; [|by right].
           left. exists b. split; [by left|done].
    + exists (replicate k (CacheCheck b)). cbn [fst snd].
      split; [done|]. split; [|split; [|done]].
      * apply Forall_replicate. exists b. split; [by left|done].
      * rewrite length_replicate. cbn [length]. lia.
  - exists (replicate k (CacheCheck b)). cbn [fst snd].
    split; [done|]. split; [|split; [|done]].
    + apply Forall_replicate. exists b. split; [by left|done].
    + rewrite length_replicate. cbn [length]. lia.
Qed.

(** X3: whatever the provider does, a cache check sends only requests for
    batches of the input, each of 1 to 99 hashes, at most three per batch,
    and the mapping returned has no key outside the input; for an empty
    input nothing is sent and the mapping is empty. *)
Theorem checkCacheStatuses_discipline (api : Api) (hashes : list string)
    (log : list Request) :
  ∃ sent,
    (checkCacheStatuses api hashes log).2 = log ++ sent ∧
    Forall (λ r, ∃ b, r = CacheCheck b ∧ b ∈ makeBatches hashes ∧
                      (1 ≤ length b ≤ 99)%nat) sent ∧
    (length sent ≤ 3 * ((length hashes + 98) / 99))%nat ∧
    dom (checkCacheStatuses api hashes log).1 ⊆ list_to_set hashes.
Proof.
  unfold checkCacheStatuses.
  destruct (checkBatches_requests api (makeBatches hashes) ∅ log)
    as (sent & Hsent & Hall & Hlen & Hdom).
  exists sent. split; [|split; [|split]].
  - by destruct (checkBatches api (makeBatches hashes) ∅ log) as [[?|?] ?].
  - eapply Forall_impl; [exact Hall|]. intros r (b & Hb & ->).
    exists b. split; [done|]. split; [done|]. by apply (makeBatches_sizes hashes).
  - by rewrite <-makeBatches_length.
  - destruct (checkBatches api (makeBatches hashes) ∅ log) as [[final|?] ?];
      cbn [fst] in *; [|set_solver].
    intros h [(b & [k Hb]%list_elem_of_lookup & [i Hh]%list_elem_of_lookup)|Hh]%elem_of_dom%Hdom.
    + apply elem_of_list_to_set.
      destruct (makeBatches_element _ _ _ _ _ Hb Hh) as [_ Hj].
      by eapply list_elem_of_lookup_2.
    + rewrite lookup_empty in Hh. by destruct Hh.
Qed.

End BatchDiscipline.

(** ** The resolve handler, call by call *)

Section ResolutionFacts.
Import Resolver Resolution.
Variable extractInfoHash : string → option string.
Variable parseQuality : string → Z.

Lemma tryServices_firstOutcome debridServices magnetLink hash contentType
    season episode :
  tryServices debridServices magnetLink hash contentType season episode
  = firstOutcome
      (tryService magnetLink hash contentType season episode <$> debridServices).
Proof.
  induction debridServices as [|service rest IH]; [done|].
  cbn [tryServices fmap list_fmap firstOutcome].
  destruct (tryService magnetLink hash contentType season episode service)
    as [[]|r|t]; cbn [bind]; [exact IH|done..].
Qed.

Lemma firstOutcome_app steps1 steps2 :
  firstOutcome (steps1 ++ steps2)
  = bind (firstOutcome steps1) (λ _, firstOutcome steps2).
Proof.
  induction steps1 as [|[[]|r|t] steps1 IH]; cbn [app firstOutcome bind]; done.
Qed.

Lemma tryFallbacks_firstOutcome debridServices fallbacks contentType
    season episode :
  tryFallbacks debridServices fallbacks contentType season episode
  = firstOutcome
      (steps debridServices contentType season episode
         ((λ f, (magnetLink f, hash f)) <$> fallbacks)).
Proof.
  induction fallbacks as [|f rest IH]; [done|].
  cbn [tryFallbacks]. unfold steps. rewrite fmap_cons, bind_cons.
  rewrite firstOutcome_app. cbn [fst snd].
  rewrite tryServices_firstOutcome. unfold steps in IH. by rewrite IH.
Qed.

(** X4: the answer of the resolve handler is decided by the first provider
    call that does not fail softly, the calls being made for the primary
    magnet first and then for the stored alternates, best quality first,
    and for each of them on the services in configured order: a link
    redirects, a thrown error answers 404 with its message, and when every
    call fails softly the answer is 404 as well. *)
Theorem handle_first_call_decides (debridServices : list Service)
    (decoded : Decoded) (streamCache : gmap string (list FallbackEntry))
    (magnetLink cacheKey infoHash : string) :
  debridServices ≠ [] →
  decodedFields decoded = inl (magnetLink, cacheKey) →
  extractInfoHash magnetLink = Some infoHash →
  Js.truthy infoHash = true →
  handle extractInfoHash parseQuality debridServices decoded streamCache
  = match firstOutcome
            (steps debridServices (contentOf cacheKey).1.1
               (contentOf cacheKey).1.2 (contentOf cacheKey).2
               (targets parseQuality magnetLink (Js.toLowerCase infoHash)
                  cacheKey streamCache)) with
    | Go _ =>
        Sent (JsonError 404 "Stream not available"
                (Some "No cached stream available from any debrid service"))
    | Stop response => Sent response
    | Raise (ErrorObject message) =>
        Sent (JsonError 404 "Stream not available" message)
    | Raise NullValue => Uncaught typeError
    end.
Proof.
  intros Hne Hdec Hhash Htruthy. unfold handle, attempt.
  destruct debridServices as [|service rest]; [done|]. cbn [length Nat.eqb].
  rewrite Hdec, Hhash. cbn [fmap option_fmap option_map].
  destruct (contentOf cacheKey) as [[contentType season] episode]. cbn [fst snd].
  rewrite toLowerCase_truthy, Htruthy. cbn [negb].
  unfold targets, steps. rewrite bind_cons, firstOutcome_app. cbn [fst snd].
  rewrite tryServices_firstOutcome.
  destruct (firstOutcome (tryService magnetLink (Js.toLowerCase infoHash)
                            contentType season episode <$> service :: rest))
    as [[]|r|[m|]]; cbn [bind]; [|done..].
  destruct (if Js.truthy cacheKey then streamCache !! cacheKey else None)
    as [cachedStreams|].
  - rewrite (tryFallbacks_firstOutcome (service :: rest)).
    unfold steps.
    by destruct (firstOutcome _) as [[]|r|[m|]].
  - done.
Qed.

(** X5: an error thrown by a provider that is not Premiumize stops the
    whole resolution when it has no [message] (as the parsed error body
    RealDebrid throws): the handler answers 404 at once, whatever the
    services configured after it and the stored alternates would give. *)
Theorem bare_throw_aborts (service : Service) (others : list Service)
    (decoded : Decoded) (streamCache : gmap string (list FallbackEntry))
    (magnetLink cacheKey infoHash : string) :
  decodedFields decoded = inl (magnetLink, cacheKey) →
  extractInfoHash magnetLink = Some infoHash →
  Js.truthy infoHash = true →
  constructorName service ≠ "Premiumize" →
  bare (providerCall service magnetLink (contentOf cacheKey).1.1
          (contentOf cacheKey).1.2 (contentOf cacheKey).2) →
  handle extractInfoHash parseQuality (service :: others) decoded streamCache
  = Sent (JsonError 404 "Stream not available" (Some "Cannot read properties")).
Proof.
  intros Hdec Hhash Htruthy Hname Hbare. unfold handle, attempt.
  cbn [length Nat.eqb]. rewrite Hdec, Hhash.
  cbn [fmap option_fmap option_map].
  destruct (contentOf cacheKey) as [[contentType season] episode].
  cbn [fst snd] in Hbare.
  rewrite toLowerCase_truthy, Htruthy. cbn [negb tryServices].
  assert (tryService magnetLink (Js.toLowerCase infoHash) contentType season
            episode service = Raise typeError) as ->; [|done].
  unfold tryService.
  assert (String.eqb (Js.or_else (constructorName service) "UnknownDebrid")
            "Premiumize" = false) as ->.
  { apply String.eqb_neq. unfold Js.or_else.
    destruct (Js.truthy (constructorName service)); [done|discriminate]. }
  cbn [andb]. unfold getValidStreamingUrl.
  fold (providerCall service magnetLink contentType season episode).
  by destruct Hbare as [-> | ->].
Qed.

Lemma filter_not_hash (cachedStreams : list FallbackEntry) (h : string) :
  List.filter (λ stream, negb (String.eqb (hash stream) h)) cachedStreams
  = filter (λ f, hash f ≠ h) cachedStreams.
Proof.
  induction cachedStreams as [|f l IH]; [done|].
  cbn [List.filter]. rewrite filter_cons.
  destruct (String.eqb_spec (hash f) h); cbn [negb]; case_decide;
    congruence.
Qed.

(** X6: the alternates the handler walks are the stored streams without
    those of the hash already tried, ordered by parsed quality, best
    first, streams of one quality staying in stored order. *)
Theorem sortedFallbacks_order (cachedStreams : list FallbackEntry) (h : string) :
  sortedFallbacks parseQuality cachedStreams h
    ≡ₚ filter (λ f, hash f ≠ h) cachedStreams ∧
  Forall (λ f, hash f ≠ h) (sortedFallbacks parseQuality cachedStreams h) ∧
  StronglySorted (λ a b, parseQuality (filename b) <= parseQuality (filename a))
    (sortedFallbacks parseQuality cachedStreams h) ∧
  (∀ q, filter (λ f, parseQuality (filename f) = q)
          (sortedFallbacks parseQuality cachedStreams h)
        = filter (λ f, parseQuality (filename f) = q)
            (filter (λ f, hash f ≠ h) cachedStreams)).
Proof.
  unfold sortedFallbacks. rewrite filter_not_hash.
  set (cmp := λ a b : FallbackEntry,
                parseQuality (filename b) - parseQuality (filename a)).
  split; [apply js_sort_perm|]. split; [|split].
  - apply Forall_forall. intros f Hf%js_sort_elem.
    by apply list_elem_of_filter in Hf as [? _].
  - eapply StronglySorted_weaken; [|apply (js_sort_sorted cmp)].
    + intros a b. unfold Sort.before, cmp. lia.
    + unfold Sort.before, cmp. intros; lia.
    + unfold Sort.before, cmp. intros; lia.
  - intros q. apply (js_sort_stable cmp (λ f, parseQuality (filename f))).
    intros a b Hab. unfold Sort.before, cmp. lia.
Qed.

(** X7: [getValidStreamingUrl] gives back either nothing or a link that
    starts with [http] and is the one the provider returned; an error with
    a message is swallowed into nothing; only a thrown value without a
    message escapes, as a [TypeError]. *)
Theorem getValidStreamingUrl_outcomes (service : Service)
    (magnetLink hash type : string) (season episode : option nat) :
  let called := providerCall service magnetLink type season episode in
  match getValidStreamingUrl service magnetLink hash type season episode with
  | Returns url =>
      (url = Js.absent ∧ ¬ bare called) ∨
      (Js.startsWith url "http" = true ∧ called = Returns url)
  | Raises thrown => thrown = typeError ∧ bare called
  end.
Proof.
  intros called. unfold getValidStreamingUrl.
  fold (providerCall service magnetLink type season episode). fold called.
  destruct called as [url|[[message|]|]] eqn:Hc.
  - destruct (Js.truthy url) eqn:Ht; cbn [negb orb].
    + destruct (Js.startsWith url "http") eqn:Hs; cbn [negb].
      * by right.
      * left. split; [done|]. by intros [?|?].
    + left. split; [done|]. by intros [?|?].
  - left. split; [done|]. by intros [?|?].
  - split; [done|]. by left.
  - split; [done|]. by right.
Qed.

End ResolutionFacts.

Lemma handle_first_call_decides_witness :
  let services := [Samples.broken_premiumize; Cases.torbox_with_alternate] in
  let magnet := "magnet:?xt=urn:btih:abcdef0123456789abcdef0123456789abcdef01" in
  let infoHash := "abcdef0123456789abcdef0123456789abcdef01" in
  services ≠ [] ∧
  Resolver.decodedFields Samples.movie_request = inl (magnet, "movie-tt0111161") ∧
  Aggregator.extractHash magnet = Some infoHash ∧
  Js.truthy infoHash = true ∧
  Resolver.handle Aggregator.extractHash (λ _, 0) services
    Samples.movie_request Samples.fallback_cache
  = Resolver.Sent (Resolver.Redirect "https://cdn.torbox.app/movie.mkv").
Proof.
  intros services magnet infoHash.
  split; [done|]. split; [reflexivity|]. split; [by vm_compute|].
  split; [reflexivity|].
  rewrite (handle_first_call_decides Aggregator.extractHash (λ _, 0)
             services Samples.movie_request Samples.fallback_cache
             magnet "movie-tt0111161" infoHash);
    [by vm_compute|done|reflexivity|by vm_compute|reflexivity].
Defined.

Lemma bare_throw_aborts_witness :
  let magnet := "magnet:?xt=urn:btih:abcdef0123456789abcdef0123456789abcdef01" in
  let infoHash := "abcdef0123456789abcdef0123456789abcdef01" in
  Resolver.decodedFields Samples.movie_request = inl (magnet, "movie-tt0111161") ∧
  Aggregator.extractHash magnet = Some infoHash ∧
  Js.truthy infoHash = true ∧
  Resolver.constructorName Samples.broken_realdebrid ≠ "Premiumize" ∧
  Resolution.bare
    (Resolution.providerCall Samples.broken_realdebrid magnet "movie" None None) ∧
  Resolver.handle Aggregator.extractHash (λ _, 0)
    [Samples.broken_realdebrid; Cases.torbox_with_all]
    Samples.movie_request Samples.fallback_cache
  = Resolver.Sent
      (Resolver.JsonError 404 "Stream not available"
         (Some "Cannot read properties")).
Proof.
  intros magnet infoHash.
  split; [reflexivity|]. split; [by vm_compute|]. split; [reflexivity|].
  split; [discriminate|]. split; [by left|].
  apply (bare_throw_aborts Aggregator.extractHash (λ _, 0)
           Samples.broken_realdebrid [Cases.torbox_with_all]
           Samples.movie_request Samples.fallback_cache
           magnet "movie-tt0111161" infoHash);
    [reflexivity|by vm_compute|reflexivity|discriminate|by left].
Defined.

(** ** Strings *)

Section JsFacts.

Lemma chars_text l : Js.chars (Js.text l) = l.
Proof. apply list_ascii_of_string_of_list_ascii. Qed.

Lemma text_chars s : Js.text (Js.chars s) = s.
Proof. apply string_of_list_ascii_of_string. Qed.

Lemma chars_append a b : Js.chars (String.append a b) = Js.chars a ++ Js.chars b.
Proof.
  unfold Js.chars. induction a as [|c a IH]; [done|].
  simpl. by rewrite IH.
Qed.

Lemma text_app l k : Js.text (l ++ k) = String.append (Js.text l) (Js.text k).
Proof.
  unfold Js.text. induction l as [|c l IH]; [done|].
  simpl. by rewrite IH.
Qed.

Lemma lower_ascii_idem c : Js.lower_ascii (Js.lower_ascii c) = Js.lower_ascii c.
Proof. destruct c as [[] [] [] [] [] [] [] []]; reflexivity. Qed.

Lemma chars_toLowerCase s :
  Js.chars (Js.toLowerCase s) = Js.lower_ascii <$> Js.chars s.
Proof. unfold Js.toLowerCase. by rewrite chars_text. Qed.

Lemma toLowerCase_idem s : Js.toLowerCase (Js.toLowerCase s) = Js.toLowerCase s.
Proof.
  unfold Js.toLowerCase at 1. rewrite chars_toLowerCase.
  change (map Js.lower_ascii) with (fmap (M := list) Js.lower_ascii).
  rewrite <-list_fmap_compose. unfold Js.toLowerCase. f_equal.
  apply list_fmap_ext. intros _ c _. apply lower_ascii_idem.
Qed.

Lemma truthy_chars s : Js.truthy s = true ↔ Js.chars s ≠ [].
Proof. by destruct s. Qed.

End JsFacts.

(** ** What the patterns of the program match *)

Section PatternFacts.
Import Re ReSpec.

Lemma Matches_chr c w rest :
  Matches (chr c) w rest → ∃ x, w = [x] ∧ Js.lower_ascii x = Js.lower_ascii c.
Proof.
  unfold chr. inversion 1 as [|p x rest' Hp| | | | | |]; subst.
  exists x. split; [done|]. by apply Ascii.eqb_eq in Hp.
Qed.

Lemma Matches_lit_chars l w rest :
  Matches (lit_chars l) w rest → sameLetters w l.
Proof.
  unfold sameLetters. revert w rest.
  induction l as [|c l IH]; intros w rest; cbn [lit_chars].
  { by inversion 1. }
  destruct l as [|c' l].
  - intros (x & -> & Hx)%Matches_chr. cbn. by rewrite Hx.
  - inversion 1 as [| |r1 r2 w1 w2 rest' H1 H2| | | | |]; subst.
    apply Matches_chr in H1 as (x & -> & Hx). apply IH in H2.
    cbn [app]. rewrite !fmap_cons, Hx. by f_equal.
Qed.

Lemma Matches_lit s w rest :
  Matches (lit s) w rest → sameLetters w (Js.chars s).
Proof. apply Matches_lit_chars. Qed.

Lemma Matches_many_class p w rest :
  Matches (Many (Class p)) w rest → Forall (λ c, p c = true) w.
Proof.
  intros H. remember (Many (Class p)) as r eqn:Hr.
  induction H as [| | | | | |r' w1 w2 rest' Hne H1 _ H2 IH2|]; try discriminate;
    [constructor|].
  injection Hr as ->. inversion H1; subst.
  constructor; [done|]. by apply IH2.
Qed.

Lemma Matches_plus_class p w rest :
  Matches (plus (Class p)) w rest → w ≠ [] ∧ Forall (λ c, p c = true) w.
Proof.
  unfold plus. inversion 1 as [| |r1 r2 w1 w2 rest' H1 H2| | | | |]; subst.
  inversion H1; subst. apply Matches_many_class in H2.
  split; [done|]. by constructor.
Qed.

Lemma is_hex_lower c : is_hex c = true → lowerHex (Js.lower_ascii c).
Proof.
  unfold lowerHex. rewrite lower_ascii_idem.
  destruct c as [[] [] [] [] [] [] [] []]; by intros.
Qed.

(** What [extractHash] finds: hexadecimal digits, in lower case, that
    follow [btih:] in the link. *)
Lemma extractHash_found magnetLink h :
  Aggregator.extractHash magnetLink = Some h →
  Js.chars h ≠ [] ∧ Forall lowerHex (Js.chars h) ∧
  ∃ pre post,
    Js.lower_ascii <$> Js.chars magnetLink
    = pre ++ Js.chars "btih:" ++ Js.chars h ++ post.
Proof.
  unfold Aggregator.extractHash, exec.
  destruct (search Aggregator.re_btih (Js.chars magnetLink)) as [m|] eqn:Hs;
    [|done].
  cbn [fmap option_fmap option_map]. intros [= <-].
  apply search_sound in Hs as (pre & post & Hm & HM).
  unfold Aggregator.re_btih in HM. cbn [seq] in HM.
  inversion HM as [| |r1 r2 w1 w2 rest' H1 H2| | | | |]; subst.
  apply Matches_lit in H1. apply Matches_plus_class in H2 as [Hne Hhex].
  assert (length w1 = 5%nat) as Hlen.
  { apply (f_equal length) in H1. by rewrite !length_fmap in H1. }
  unfold Js.skip. rewrite chars_toLowerCase, !chars_text.
  rewrite drop_app_length' by done.
  split; [by destruct w2|]. split.
  - apply Forall_fmap. eapply Forall_impl; [exact Hhex|].
    intros c. apply is_hex_lower.
  - exists (Js.lower_ascii <$> pre), (Js.lower_ascii <$> post).
    rewrite Hm, !fmap_app. by rewrite H1.
Qed.

End PatternFacts.

(** ** What the aggregator hands on *)

Section CandidateFacts.
Import Aggregator ReSpec.

Lemma or_else_truthy a b : Js.truthy b = true → Js.truthy (Js.or_else a b) = true.
Proof. unfold Js.or_else. by destruct (Js.truthy a) eqn:Ha. Qed.

Lemma hashOf_Some s h :
  hashOf s = Some h →
  Js.truthy (raw_magnetLink s) = true ∧ extractHash (raw_magnetLink s) = Some h.
Proof.
  unfold hashOf. destruct (Js.truthy (raw_magnetLink s)); [|done].
  destruct (extractHash (raw_magnetLink s)) as [h'|]; [|done].
  destruct (Js.truthy h'); [|done]. by intros [= ->].
Qed.

Lemma lowerHex_toLowerCase h :
  Forall lowerHex (Js.chars h) → Js.toLowerCase h = h.
Proof.
  intros Hhex. unfold Js.toLowerCase. rewrite <-(text_chars h) at 2. f_equal.
  induction Hhex as [|c l [_ Hc] _ IH]; [done|]. cbn [map]. by rewrite Hc, IH.
Qed.

(** X8. Every candidate [getStreams] returns, whatever the backends
    answered and also when the timer won, carries a magnet link and a hash
    that is a non-empty run of lower-case hexadecimal digits, found after
    [btih:] in the link read without regard to case; lower-casing the hash
    again changes nothing; and its file name, title and source are never
    empty. *)
Theorem getStreams_wellformed (raced : option (list Settled)) (c : Candidate) :
  c ∈ getStreams raced →
  Js.truthy (magnetLink c) = true ∧
  Js.truthy (hash c) = true ∧
  Forall lowerHex (Js.chars (hash c)) ∧
  Js.toLowerCase (hash c) = hash c ∧
  (∃ pre post,
     Js.chars (Js.toLowerCase (magnetLink c))
     = pre ++ Js.chars "btih:" ++ Js.chars (hash c) ++ post) ∧
  Js.truthy (filename c) = true ∧
  Js.truthy (websiteTitle c) = true ∧
  Js.truthy (source c) = true.
Proof.
  destruct raced as [allResults|]; cbn [getStreams];
    [|by intros ?%elem_of_nil].
  rewrite combine_survivors. intros Hc.
  destruct (survivors_first _ _ _ Hc) as (s & Hs & Heq).
  apply find_some in Hs as [_ Hs]. apply bool_decide_eq_true in Hs.
  apply hashOf_Some in Hs as [Hlink Hs].
  apply extractHash_found in Hs as (Hne & Hhex & pre & post & Hpos).
  assert (Js.truthy (filename c) = true) as Hname.
  { rewrite Heq. cbn [filename normalize]. by do 2 apply or_else_truthy. }
  split; [by rewrite Heq|]. split; [by apply truthy_chars|].
  split; [done|]. split; [by apply lowerHex_toLowerCase|]. split.
  { exists pre, post. rewrite chars_toLowerCase, Heq. exact Hpos. }
  split; [done|]. split.
  - rewrite Heq in Hname |- *. cbn [websiteTitle filename normalize] in *.
    by apply or_else_truthy.
  - rewrite Heq. cbn [source normalize]. by apply or_else_truthy.
Qed.

End CandidateFacts.

Lemma getStreams_wellformed_witness :
  let c := Aggregator.normalize "abcdef0123456789abcdef0123456789abcdef01"
             Samples.first_release in
  c ∈ Aggregator.getStreams (Some Samples.two_backends) ∧
  Js.truthy (Aggregator.hash c) = true.
Proof.
  assert (Aggregator.normalize "abcdef0123456789abcdef0123456789abcdef01"
            Samples.first_release
          ∈ Aggregator.getStreams (Some Samples.two_backends)) as Hin.
  { vm_compute. repeat constructor. }
  split; [exact Hin|].
  exact (proj1 (proj2 (getStreams_wellformed _ _ Hin))).
Defined.

(** ** One provider's contribution *)

Section ProbeFacts.
Import Prober.

Lemma NoDup_fmap_filter {A B : Type} (f : A → B) (p : A → bool) (l : list A) :
  NoDup (f <$> l) → NoDup (f <$> List.filter p l).
Proof.
  induction l as [|x l IH]; [done|].
  rewrite fmap_cons, NoDup_cons. intros [Hx Hl]. cbn [List.filter].
  destruct (p x); [|by apply IH].
  rewrite fmap_cons, NoDup_cons. split; [|by apply IH].
  intros (y & Hy & Hin)%list_elem_of_fmap. apply Hx.
  apply list_elem_of_fmap. exists y. split; [done|].
  by apply list_elem_of_In, filter_In in Hin as [?%list_elem_of_In _].
Qed.

Lemma length_validStreams streams :
  (length (validStreams streams) ≤ length streams)%nat.
Proof.
  unfold validStreams. induction streams as [|s streams IH]; [done|].
  cbn [omap list_omap length].
  destruct s as [c|]; [destruct (Js.truthy (Aggregator.hash c))|];
    cbn [length]; lia.
Qed.

(** Every entry of the map stands under its own hash, which is the
    lower-cased hash of a valid stream the provider answered for. *)
Lemma checkCacheStatuses_origin service streams h e :
  checkCacheStatuses service streams !! h = Some e →
  ∃ results c r,
    service (lowerHash <$> validStreams streams) = Some results ∧
    c ∈ validStreams streams ∧ lowerHash c = h ∧
    results !! h = Some r ∧ e = entryOf c r.
Proof.
  unfold checkCacheStatuses.
  destruct (length streams =? 0)%nat; [by rewrite lookup_empty|].
  destruct (length (validStreams streams) =? 0)%nat; [by rewrite lookup_empty|].
  destruct (service _) as [results|] eqn:Hs; [|by rewrite lookup_empty].
  intros [He|(c & r & Hc & _ & Hh & Hr & ->)]%record_origin;
    [by rewrite lookup_empty in He|].
  by exists results, c, r.
Qed.

Lemma serviceStreams_keys name cacheMap :
  (∀ h e, cacheMap !! h = Some e → Js.toLowerCase (hash e) = h) →
  NoDup (streamHash <$> serviceStreams name cacheMap).
Proof.
  intros Hkey. unfold serviceStreams. rewrite <-list_fmap_compose.
  apply NoDup_fmap_filter.
  assert ((streamHash ∘ (λ e, {| stream := e; serviceName := name;
                                  streamHash := Js.toLowerCase (hash e) |}))
            <$> (map_to_list cacheMap).*2
          = (map_to_list cacheMap).*1) as ->;
    [|apply NoDup_fst_map_to_list].
  rewrite <-list_fmap_compose. apply list_fmap_ext.
  intros _ [h e] He%list_elem_of_lookup_2%elem_of_map_to_list.
  cbn. by apply Hkey.
Qed.

(** X9. What one provider contributes: at most one stream per hash, never
    more streams than candidates; each stream names the provider, carries a
    hash that is already in lower case and is the lower-cased hash of a
    valid candidate, and is flagged as cached.  A provider whose check
    throws contributes nothing, and so does an empty or all-invalid list
    of candidates. *)
Theorem probe_one_per_hash (name : string) (service : Provider)
    (streams : list (option Aggregator.Candidate)) :
  let output := probe name service streams in
  NoDup (streamHash <$> output) ∧
  (length output ≤ length streams)%nat ∧
  (∀ s, s ∈ output →
        serviceName s = name ∧
        streamHash s = hash (stream s) ∧
        streamHash s ∈ lowerHash <$> validStreams streams ∧
        cached (stream s) = true) ∧
  (service (lowerHash <$> validStreams streams) = None → output = []) ∧
  (validStreams streams = [] → output = []).
Proof.
  intros output. subst output. unfold probe.
  assert (∀ h e, checkCacheStatuses service streams !! h = Some e →
                 Js.toLowerCase (hash e) = h ∧ hash e = h ∧
                 h ∈ lowerHash <$> validStreams streams) as Hkey.
  { intros h e (results & c & r & _ & Hc & <- & _ & ->)%checkCacheStatuses_origin.
    cbn [hash entryOf]. unfold lowerHash at 1. rewrite toLowerCase_idem.
    split; [done|]. split; [done|]. by apply list_elem_of_fmap_2. }
  assert (∀ s, s ∈ serviceStreams name (checkCacheStatuses service streams) →
               serviceName s = name ∧ streamHash s = hash (stream s) ∧
               streamHash s ∈ lowerHash <$> validStreams streams ∧
               cached (stream s) = true) as Helem.
  { intros s (h & e & He & _ & Hcached & ->)%serviceStreams_elem.
    cbn [serviceName streamHash stream].
    destruct (Hkey h e He) as (-> & -> & Hin). done. }
  assert (NoDup (streamHash <$>
                   serviceStreams name (checkCacheStatuses service streams)))
    as Hnd.
  { apply serviceStreams_keys. intros h e He. by apply Hkey. }
  split; [done|]. split.
  { rewrite <-(length_fmap streamHash).
    etrans; [|apply length_validStreams].
    rewrite <-(length_fmap lowerHash (validStreams streams)).
    apply submseteq_length, NoDup_submseteq; [done|].
    intros h (s & -> & Hs)%list_elem_of_fmap. by apply Helem. }
  split; [done|].
  assert (∀ m : gmap string Entry, m = ∅ → serviceStreams name m = []) as He.
  { intros m ->. unfold serviceStreams. by rewrite map_to_list_empty. }
  split.
  - intros Hs. apply He. unfold checkCacheStatuses. rewrite Hs.
    by repeat case_match.
  - intros Hv. apply He. unfold checkCacheStatuses. rewrite Hv.
    by repeat case_match.
Qed.

End ProbeFacts.

(** ** The sort in front of the cache checks *)

Section TriageFacts.
Import Aggregator Endpoint.
Variables parseQuality parseSize : string → Z.
Local Abbreviation cmp := (cmpTriage parseQuality parseSize).
Local Abbreviation key := (triage_key parseQuality parseSize).
Local Abbreviation before := (triage_before parseQuality parseSize).

Lemma cmpTriage_before a b : Sort.before cmp a b ↔ before a b.
Proof.
  unfold Sort.before, cmpTriage, triage_before, triage_key. cbn [fst snd].
  destruct (Z.eqb_spec (parseQuality (filename a)) (parseQuality (filename b)));
    cbn [negb]; lia.
Qed.

Lemma cmpTriage_trans a b c :
  Sort.before cmp a b → Sort.before cmp b c → Sort.before cmp a c.
Proof. rewrite !cmpTriage_before. unfold triage_before. lia. Qed.

Lemma cmpTriage_total a b : Sort.before cmp a b ∨ Sort.before cmp b a.
Proof. rewrite !cmpTriage_before. unfold triage_before. lia. Qed.

(** X10. The candidates sent to the cache checks are the first hundred
    of the candidates ordered by quality, best first, and within one
    quality by the distance of their size to 5000 MB, nearest first:
    no candidate left out ranks before one that is kept, candidates equal
    in both keep the order the aggregator gave them, and no two of them
    share a hash when the input had none that did. *)
Theorem limitedStreams_first_hundred (newStreams : list Candidate) :
  let limited := limitedStreams parseQuality parseSize newStreams in
  ∃ rest,
    limited ++ rest ≡ₚ newStreams ∧
    StronglySorted before (limited ++ rest) ∧
    (∀ k, filter (λ c, key c = k) (limited ++ rest)
          = filter (λ c, key c = k) newStreams) ∧
    length limited = Nat.min 100 (length newStreams) ∧
    (NoDup (hash <$> newStreams) → NoDup (hash <$> limited)).
Proof.
  intros limited. subst limited.
  exists (drop 100 (Sort.js_sort cmp newStreams)).
  unfold limitedStreams. rewrite take_drop.
  split; [apply js_sort_perm|]. split.
  { eapply StronglySorted_weaken; [intros a b; apply cmpTriage_before|].
    apply js_sort_sorted; [exact cmpTriage_trans|exact cmpTriage_total]. }
  split.
  { intros k. apply js_sort_stable. intros a b Hk.
    apply cmpTriage_before. unfold triage_before. rewrite Hk. lia. }
  split; [rewrite length_take, js_sort_length; lia|].
  intros Hnd.
  apply (sublist_NoDup _ (hash <$> Sort.js_sort cmp newStreams));
    [by rewrite js_sort_perm|apply fmap_sublist, sublist_take].
Qed.

End TriageFacts.

(** ** The helper [sortStreams] *)

Section SortStreamsFacts.
Import Ranker.
Variables parseQuality parseSize : string → Z.

(** X11. [sortStreams] returns its input reordered by the quality read
    from the name, best first, then by the distance of the size to the
    ideal band of that quality, nearest first, then by size, largest
    first; streams that agree in quality and size keep their order. *)
Theorem sortStreams_stable_order (streams : list FormattedStream) :
  let sorted := sortStreams parseQuality parseSize streams in
  sorted ≡ₚ streams ∧
  StronglySorted (parsed_before parseQuality parseSize) sorted ∧
  (∀ k, filter (λ s, (parseQuality (name s), parseSize (name s)) = k) sorted
        = filter (λ s, (parseQuality (name s), parseSize (name s)) = k) streams).
Proof.
  intros sorted. subst sorted. unfold sortStreams.
  split; [apply js_sort_perm|]. split.
  - eapply StronglySorted_weaken; [intros a b; apply cmpStreams_before|].
    apply js_sort_sorted.
    + intros a b c. rewrite !cmpStreams_before.
      unfold parsed_before, parsedDistance. intros Hab Hbc.
      destruct Hab as [?|[Hq1 ?]], Hbc as [?|[Hq2 ?]]; [lia..|].
      rewrite <-Hq2, <-Hq1 in *. lia.
    + intros a b. rewrite !cmpStreams_before.
      unfold parsed_before, parsedDistance.
      destruct (Z.lt_trichotomy (parseQuality (name a)) (parseQuality (name b)))
        as [?|[Hq|?]]; [lia| |lia].
      rewrite <-Hq. lia.
  - intros k. apply js_sort_stable. intros a b [= Hq Hs].
    apply cmpStreams_before. unfold parsed_before, parsedDistance.
    rewrite Hq, Hs. lia.
Qed.

End SortStreamsFacts.

(** ** The order in which the matcher tries *)

Section PriorityFacts.
Import Re ReSpec.

Lemma run_many r s : run (Many r) s = rounds r (length s) s.
Proof. reflexivity. Qed.

Lemma backtrack_head w s : ∃ more, backtrack w s = s :: more.
Proof.
  induction w as [|c w [more IH]]; [by exists []|].
  cbn [backtrack]. rewrite IH. by eexists.
Qed.

Lemma backtrack_app a b s :
  ∃ more, backtrack (a ++ b) s = backtrack b s ++ more.
Proof.
  induction a as [|c a [more IH]]; [exists []; by rewrite app_nil_r|].
  cbn [app backtrack]. rewrite IH, <-app_assoc. by eexists.
Qed.

(** What a run gives back starts inside the run or is what follows it. *)
Lemma backtrack_elem w s x :
  x ∈ backtrack w s → x = s ∨ ∃ c rest, x = c :: rest ∧ c ∈ w.
Proof.
  induction w as [|c w IH]; cbn [backtrack].
  - intros ->%list_elem_of_singleton. by left.
  - intros [Hx| ->%list_elem_of_singleton]%elem_of_app.
    + destruct (IH Hx) as [?|(c' & rest & -> & ?)]; [by left|].
      right. exists c', rest. split; [done|by right].
    + right. exists c, (w ++ s). split; [done|by left].
Qed.

(** A class under a star takes all it can and gives back one character
    at a time. *)
Lemma rounds_class p w s n :
  Forall (λ c, p c = true) w →
  match s with [] => True | c :: _ => p c = false end →
  (length w ≤ n)%nat →
  rounds (Class p) n (w ++ s) = backtrack w s.
Proof.
  intros Hw Hs. revert n.
  induction Hw as [|c w Hc Hw IH]; intros n Hn.
  - cbn [app backtrack]. destruct n as [|n]; [done|].
    cbn [rounds run]. destruct s as [|c s]; [done|]. by rewrite Hs.
  - destruct n as [|n]; [cbn [length] in Hn; lia|].
    cbn [app backtrack rounds run]. rewrite Hc.
    rewrite filter_cons_True by (cbn [length]; lia).
    rewrite filter_nil. cbn [flat_map]. rewrite app_nil_r.
    fold (rounds (Class p)). rewrite IH by (cbn [length] in Hn; lia). done.
Qed.

Lemma run_many_class p w s :
  Forall (λ c, p c = true) w →
  match s with [] => True | c :: _ => p c = false end →
  run (Many (Class p)) (w ++ s) = backtrack w s.
Proof.
  intros Hw Hs. rewrite run_many. apply rounds_class; [done..|].
  rewrite length_app. lia.
Qed.

Lemma run_plus_class p c w s :
  p c = true → Forall (λ c, p c = true) w →
  match s with [] => True | c :: _ => p c = false end →
  run (plus (Class p)) (c :: w ++ s) = backtrack w s.
Proof.
  intros Hc Hw Hs. unfold plus. cbn [run]. rewrite Hc. cbn [flat_map].
  rewrite app_nil_r. by apply run_many_class.
Qed.

Lemma run_plus_class_end p c w :
  p c = true → Forall (λ c, p c = true) w →
  run (plus (Class p)) (c :: w) = backtrack w [].
Proof.
  intros Hc Hw. rewrite <-(app_nil_r w) at 1. by apply run_plus_class.
Qed.

Lemma run_lit_chars l s : run (lit_chars l) (l ++ s) = [s].
Proof.
  induction l as [|c l IH]; [done|].
  assert (run (chr c) (c :: l ++ s) = [l ++ s]) as Hc.
  { cbn [chr run]. by rewrite Ascii.eqb_refl. }
  cbn [lit_chars app]. destruct l as [|c' l]; [exact Hc|].
  change (run (Cat (chr c) (lit_chars (c' :: l))) (c :: (c' :: l) ++ s))
    with (flat_map (run (lit_chars (c' :: l))) (run (chr c) (c :: (c' :: l) ++ s))).
  rewrite Hc. cbn [flat_map]. by rewrite IH.
Qed.

Lemma run_lit t s : run (lit t) (Js.chars t ++ s) = [s].
Proof. apply run_lit_chars. Qed.

Lemma flat_map_nil {A B : Type} (f : A → list B) (l : list A) :
  Forall (λ x, f x = []) l → flat_map f l = [].
Proof. induction 1 as [|x l Hx _ IH]; [done|]. cbn. by rewrite Hx, IH. Qed.

End PriorityFacts.

(** ** Trailing digits *)

Section DigitFacts.

Lemma leading_digits_app D c rest :
  Forall (λ d, Js.is_digit d = true) D → Js.is_digit c = false →
  Js.leading_digits (D ++ c :: rest) = D.
Proof.
  intros HD Hc. induction HD as [|d D Hd _ IH]; cbn [app Js.leading_digits].
  - by rewrite Hc.
  - by rewrite Hd, IH.
Qed.

Lemma trailing_digits_app front c D :
  Forall (λ d, Js.is_digit d = true) D → Js.is_digit c = false →
  Js.trailing_digits (front ++ c :: D) = D.
Proof.
  intros HD Hc. unfold Js.trailing_digits.
  rewrite rev_app_distr. cbn [rev]. rewrite <-app_assoc. cbn [app].
  rewrite leading_digits_app; [apply rev_involutive| |done].
  apply Forall_forall. intros d Hd%list_elem_of_In%in_rev%list_elem_of_In.
  by eapply Forall_forall in HD.
Qed.

Lemma before_trailing_digits_app front c D :
  Forall (λ d, Js.is_digit d = true) D → Js.is_digit c = false →
  Js.before_trailing_digits (front ++ c :: D) = front ++ [c].
Proof.
  intros HD Hc. unfold Js.before_trailing_digits.
  rewrite trailing_digits_app by done.
  replace (front ++ c :: D) with ((front ++ [c]) ++ D)
    by (by rewrite <-app_assoc).
  rewrite length_app, Nat.add_sub. by rewrite take_app_length.
Qed.

End DigitFacts.

(** ** The cache key, written by the stream endpoint and read by the
    resolve handler *)

Section CacheKeyFacts.
Import Re ReSpec Endpoint.

Lemma split_chars_whole sep a :
  sep ∉ a → split_chars sep a = [a].
Proof.
  induction a as [|c a IH]; [done|].
  intros [Hc Ha]%not_elem_of_cons. cbn [split_chars].
  destruct (Ascii.eqb_spec c sep) as [->|_]; [done|]. by rewrite IH.
Qed.

Lemma split_chars_first sep a b :
  sep ∉ a → split_chars sep (a ++ sep :: b) = a :: split_chars sep b.
Proof.
  induction a as [|c a IH]; cbn [app split_chars].
  - by rewrite Ascii.eqb_refl.
  - intros [Hc Ha]%not_elem_of_cons.
    destruct (Ascii.eqb_spec c sep) as [->|_]; [done|]. by rewrite IH.
Qed.

Lemma digits_no_colon D :
  Forall (λ d, Js.is_digit d = true) D → ":"%char ∉ D.
Proof.
  intros HD Hin. eapply Forall_forall in HD; [|exact Hin]. by vm_compute in HD.
Qed.

Lemma run_dash_other s :
  match s with [] => True | c :: _ => Js.lower_ascii c ≠ "-"%char end →
  ∀ r, run (Cat (lit "-s") r) s = [].
Proof.
  intros Hs r. cbn [run lit lit_chars Js.chars list_ascii_of_string chr].
  destruct s as [|c s]; [done|].
  destruct (Ascii.eqb_spec (Js.lower_ascii c) (Js.lower_ascii "-")) as [He|_];
    [|done].
  by destruct Hs.
Qed.

(** The pattern of the handler, tried at the start of a key of the
    endpoint, matches the whole key first. *)
Lemma run_cacheKey tmdb S E :
  Forall (λ c, Js.is_line_end c = false) tmdb →
  S ≠ [] → Forall (λ d, Js.is_digit d = true) S →
  E ≠ [] → Forall (λ d, Js.is_digit d = true) E →
  ∃ others,
    run Resolver.re_cacheKey
      (Js.chars "series-" ++ tmdb ++ Js.chars "-s" ++ S ++ Js.chars "e" ++ E)
    = [] :: others.
Proof.
  intros Htmdb HS0 HS HE0 HE.
  destruct S as [|s0 S]; [done|]. destruct E as [|e0 E]; [done|].
  apply Forall_cons in HS as [Hs0 HS]. apply Forall_cons in HE as [He0 HE].
  set (tail := Cat (lit "-s") (Cat (plus digit) (Cat (lit "e") (plus digit)))).
  set (key := Js.chars "-s" ++ (s0 :: S) ++ Js.chars "e" ++ e0 :: E).
  assert (∃ others, run tail key = [] :: others) as [others1 Htail].
  { unfold tail, key.
    change (run (Cat (lit "-s") ?r) ?s) with (flat_map (run r) (run (lit "-s") s)).
    rewrite (run_lit "-s"). cbn [flat_map]. rewrite app_nil_r.
    change (run (Cat (plus digit) ?r) ?s)
      with (flat_map (run r) (run (plus digit) s)).
    cbn [app]. unfold digit.
    rewrite (run_plus_class Js.is_digit s0 S (Js.chars "e" ++ e0 :: E))
      by done.
    destruct (backtrack_head S (Js.chars "e" ++ e0 :: E)) as [more ->].
    cbn [flat_map].
    change (run (Cat (lit "e") ?r) ?s) with (flat_map (run r) (run (lit "e") s)).
    rewrite (run_lit "e"). cbn [flat_map]. rewrite app_nil_r.
    rewrite (run_plus_class_end Js.is_digit e0 E) by done.
    destruct (backtrack_head E []) as [more' ->]. by eexists. }
  assert (Forall (λ x, run tail x = [])
            (backtrack ("s"%char :: (s0 :: S) ++ Js.chars "e" ++ e0 :: E) []))
    as Hshort.
  { apply Forall_forall. intros x Hx. apply run_dash_other.
    apply backtrack_elem in Hx as [->|(c & rest & -> & Hc)]; [done|].
    assert (Js.is_digit c = true ∨ c = "s"%char ∨ c = "e"%char) as Hcase.
    { apply elem_of_cons in Hc as [->|Hc]; [by right; left|].
      apply elem_of_app in Hc as [Hc|Hc].
      - left. apply elem_of_cons in Hc as [->|Hc]; [done|].
        by eapply Forall_forall in HS.
      - apply elem_of_cons in Hc as [->|Hc]; [by right; right|].
        left. apply elem_of_cons in Hc as [->|Hc]; [done|].
        by eapply Forall_forall in HE. }
    destruct Hcase as [Hd|[->| ->]]; [|done..].
    intros Heq. revert Hd.
    destruct c as [[] [] [] [] [] [] [] []]; by vm_compute in Heq |- *. }
  unfold Resolver.re_cacheKey. cbn [seq]. fold tail.
  change (run (Cat (lit "series-") ?r) ?s)
    with (flat_map (run r) (run (lit "series-") s)).
  rewrite (run_lit "series-"). cbn [flat_map]. rewrite app_nil_r.
  change (run (Cat (Many dot) tail) ?s)
    with (flat_map (run tail) (run (Many dot) s)).
  rewrite <-(app_nil_r (tmdb ++ _)). unfold dot.
  rewrite run_many_class; [| |done].
  - destruct (backtrack_app tmdb key []) as [more ->].
    rewrite flat_map_app.
    change (backtrack key [])
      with (backtrack ("s"%char :: (s0 :: S) ++ Js.chars "e" ++ e0 :: E) []
            ++ [key ++ []]).
    rewrite flat_map_app, (flat_map_nil _ _ Hshort), app_nil_r.
    cbn [flat_map app]. rewrite Htail. by eexists.
  - assert (∀ D, Forall (λ d, Js.is_digit d = true) D →
                 Forall (λ c, negb (Js.is_line_end c) = true) D) as Hdig.
    { intros D HD. eapply Forall_impl; [exact HD|]. intros c.
      destruct c as [[] [] [] [] [] [] [] []]; by vm_compute. }
    apply Forall_app. split.
    { eapply Forall_impl; [exact Htmdb|]. by intros c ->. }
    unfold key. cbn [Js.chars list_ascii_of_string app].
    do 2 (apply Forall_cons; split; [done|]).
    change (s0 :: S ++ ?l) with ((s0 :: S) ++ l).
    apply Forall_app. split; [apply Hdig; by constructor|].
    apply Forall_cons. split; [done|]. apply Hdig. by constructor.
Qed.

Lemma is_prefix_app p s : Js.is_prefix p (p ++ s) = true.
Proof. induction p as [|c p IH]; [done|]. cbn. by rewrite Ascii.eqb_refl. Qed.

Lemma requested_series tmdb S E :
  ":"%char ∉ Js.chars tmdb →
  Forall (λ d, Js.is_digit d = true) (Js.chars S) →
  Forall (λ d, Js.is_digit d = true) (Js.chars E) →
  requested "series"
    (String.append tmdb (String.append ":" (String.append S (String.append ":" E))))
  = {| tmdbId := tmdb; season := Some S; episode := Some E |}.
Proof.
  intros Htmdb HS HE. unfold requested, split. cbn [String.eqb Ascii.eqb Bool.eqb].
  rewrite !chars_append. cbn [Js.chars list_ascii_of_string app].
  fold (Js.chars tmdb) (Js.chars S) (Js.chars E).
  rewrite split_chars_first by done.
  rewrite split_chars_first by by apply digits_no_colon.
  rewrite split_chars_whole by by apply digits_no_colon.
  cbn [fmap list_fmap lookup list_lookup default]. by rewrite !text_chars.
Qed.

Lemma chars_cacheKey tmdb S E :
  Js.chars S ≠ [] →
  Js.chars (cacheKey "series"
              {| tmdbId := tmdb; season := Some S; episode := Some E |})
  = Js.chars "series-" ++ Js.chars tmdb ++ Js.chars "-s" ++ Js.chars S
      ++ Js.chars "e" ++ Js.chars E.
Proof.
  intros HS%truthy_chars. unfold cacheKey, shown.
  cbn [tmdbId season episode default]. rewrite HS.
  rewrite !chars_append. by cbn [Js.chars list_ascii_of_string app].
Qed.

(** X12. The cache key the stream endpoint writes for an episode request
    is read back by the resolve handler as that episode: for an id
    [tmdb:S:E] whose first part has no colon and no line break and whose
    season and episode are non-empty runs of digits, the key is
    [series-tmdb-sSeE] and the handler reads from it a series with the
    numbers [S] and [E].  The key of a movie request is read as a movie. *)
Theorem cacheKey_round_trip (tmdb S E : string) :
  ":"%char ∉ Js.chars tmdb →
  Forall (λ c, Js.is_line_end c = false) (Js.chars tmdb) →
  Js.chars S ≠ [] → Forall (λ d, Js.is_digit d = true) (Js.chars S) →
  Js.chars E ≠ [] → Forall (λ d, Js.is_digit d = true) (Js.chars E) →
  let id :=
    String.append tmdb (String.append ":" (String.append S (String.append ":" E))) in
  let key := cacheKey "series" (requested "series" id) in
  Js.chars key
  = Js.chars "series-" ++ Js.chars tmdb ++ Js.chars "-s" ++ Js.chars S
      ++ Js.chars "e" ++ Js.chars E ∧
  Resolver.contentOf key
  = ("series", Some (Js.parseDigits (Js.chars S)),
     Some (Js.parseDigits (Js.chars E))) ∧
  Resolver.contentOf (cacheKey "movie" (requested "movie" id))
  = ("movie", None, None).
Proof.
  intros Hcolon Hline HS0 HS HE0 HE id key. subst id key.
  rewrite requested_series by done.
  pose proof (chars_cacheKey tmdb S E HS0) as Hkey.
  split; [exact Hkey|]. split; [|done].
  unfold Resolver.contentOf, Resolver.seasonEpisode, Js.startsWith.
  assert (Js.truthy (cacheKey "series"
            {| tmdbId := tmdb; season := Some S; episode := Some E |}) = true)
    as ->.
  { apply truthy_chars. by rewrite Hkey. }
  rewrite Hkey, is_prefix_app. cbn [andb].
  destruct (run_cacheKey (Js.chars tmdb) (Js.chars S) (Js.chars E))
    as [others Hrun]; [done..|].
  apply search_here in Hrun as (w & Hw & -> & _).
  rewrite app_nil_r in Hw. subst w.
  set (front := Js.chars "series-" ++ Js.chars tmdb ++ ["-"%char]).
  assert (Js.chars "series-" ++ Js.chars tmdb ++ Js.chars "-s" ++ Js.chars S
            ++ Js.chars "e" ++ Js.chars E
          = (front ++ "s"%char :: Js.chars S) ++ "e"%char :: Js.chars E) as ->.
  { unfold front. cbn [Js.chars list_ascii_of_string app].
    fold (Js.chars tmdb). by rewrite <-!app_assoc. }
  rewrite trailing_digits_app, before_trailing_digits_app by done.
  rewrite length_app. cbn [length]. rewrite Nat.add_sub, take_app_length.
  by rewrite trailing_digits_app.
Qed.

End CacheKeyFacts.

Lemma cacheKey_round_trip_witness :
  Resolver.contentOf
    (Endpoint.cacheKey "series" (Endpoint.requested "series" "tt0944947:3:09"))
  = ("series", Some 3%nat, Some 9%nat).
Proof.
  refine (proj1 (proj2 (cacheKey_round_trip "tt0944947" "3" "09" _ _ _ _ _ _)));
    first [done | by vm_compute | (by repeat constructor) | idtac].
  vm_compute. intros H. repeat (apply elem_of_cons in H as [H|H]; [done|]).
  by apply elem_of_nil in H.
Defined.

(** ** The kinds of id the stream endpoint accepts *)

Section IdTypeFacts.
Import Re ReSpec Endpoint.

Lemma is_prefix_spec p s : Js.is_prefix p s = true ↔ ∃ rest, s = p ++ rest.
Proof.
  revert s. induction p as [|a p IH]; intros s; cbn [Js.is_prefix].
  - split; [by exists s|done].
  - destruct s as [|b s]; [split; [done|by intros [rest ?]]|].
    destruct (Ascii.eqb_spec a b) as [->|Hne].
    + rewrite IH. split; intros [rest Hr]; exists rest.
      * by rewrite Hr.
      * by injection Hr.
    + split; [done|]. intros [rest [= ? _]]. by subst.
Qed.

Lemma numeric_spec id :
  numeric id = true ↔
    Js.chars id ≠ [] ∧ Forall (λ c, Js.is_digit c = true) (Js.chars id).
Proof.
  unfold numeric. split.
  - destruct (run re_numeric (Js.chars id)) as [|rest others] eqn:Hrun; [done|].
    intros _. assert (rest ∈ run re_numeric (Js.chars id)) as Hin
      by (rewrite Hrun; by left).
    apply run_sound in Hin as (w & Hw & Hm).
    unfold re_numeric in Hm. cbn [seq] in Hm.
    inversion Hm as [| |r1 r2 w1 w2 rest' H1 H2| | | | |]; subst.
    inversion H2; subst. rewrite !app_nil_r in *.
    apply Matches_plus_class in H1 as [Hne Hall]. by rewrite Hw.
  - intros [Hne Hall]. destruct (Js.chars id) as [|c w]; [done|].
    apply Forall_cons in Hall as [Hc Hw].
    unfold re_numeric. cbn [seq].
    change (run (Cat (plus digit) Eoi) (c :: w))
      with (flat_map (run Eoi) (run (plus digit) (c :: w))).
    unfold digit. rewrite run_plus_class_end by done.
    by destruct (backtrack_head w []) as [more ->].
Qed.

(** X13. The endpoint takes an id for an IMDb id exactly when it begins
    with [tt], and for a TMDB id exactly when it does not and either
    begins with [tmdb-] or is a non-empty run of digits; every other id
    is refused. *)
Theorem getIdType_cases (id : string) :
  (getIdType id = Some Imdb ↔ ∃ rest, Js.chars id = Js.chars "tt" ++ rest) ∧
  (getIdType id = Some Tmdb ↔
     (¬ ∃ rest, Js.chars id = Js.chars "tt" ++ rest) ∧
     ((∃ rest, Js.chars id = Js.chars "tmdb-" ++ rest) ∨
      (Js.chars id ≠ [] ∧ Forall (λ c, Js.is_digit c = true) (Js.chars id)))) ∧
  (getIdType id = None ↔
     (¬ ∃ rest, Js.chars id = Js.chars "tt" ++ rest) ∧
     (¬ ∃ rest, Js.chars id = Js.chars "tmdb-" ++ rest) ∧
     ¬ (Js.chars id ≠ [] ∧ Forall (λ c, Js.is_digit c = true) (Js.chars id))).
Proof.
  unfold getIdType, Js.startsWith.
  rewrite <-!is_prefix_spec, <-numeric_spec.
  destruct (Js.is_prefix (Js.chars "tt") (Js.chars id)); [naive_solver|].
  destruct (Js.is_prefix (Js.chars "tmdb-") (Js.chars id)); [naive_solver|].
  destruct (numeric id); naive_solver.
Qed.

End IdTypeFacts.

(** ** Premiumize: the info hash, the file list and the link *)

Section DownloadFacts.
Import Re ReSpec Premiumize Downloads.

Lemma upper_lower c : upper_ascii (Js.lower_ascii c) = upper_ascii c.
Proof. destruct c as [[] [] [] [] [] [] [] []]; reflexivity. Qed.

Lemma is_hex_upper c : is_hex c = true → upperHex (upper_ascii c).
Proof.
  unfold upperHex. destruct c as [[] [] [] [] [] [] [] []]; by intros.
Qed.

Lemma chars_toUpperCase s :
  Js.chars (toUpperCase s) = upper_ascii <$> Js.chars s.
Proof. unfold toUpperCase. by rewrite chars_text. Qed.

Lemma Matches_classes p n w rest :
  Matches (seq (replicate (S n) (Class p))) w rest →
  length w = S n ∧ Forall (λ c, p c = true) w.
Proof.
  revert w rest. induction n as [|n IH]; intros w rest.
  - cbn [replicate seq]. inversion 1; subst. split; [done|]. by repeat constructor.
  - change (seq (replicate (S (S n)) (Class p)))
      with (Cat (Class p) (seq (replicate (S n) (Class p)))).
    inversion 1 as [| |r1 r2 w1 w2 rest' H1 H2| | | | |]; subst.
    inversion H1; subst. apply IH in H2 as [Hlen Hall].
    cbn [app length]. split; [by rewrite Hlen|by constructor].
Qed.

(** X14. The info hash Premiumize reads from a magnet link is the first
    run of exactly forty hexadecimal digits that follows [btih:], in upper
    case; a link without such a run, or no link, has none. *)
Theorem extractInfoHash_format (magnetLink h : string) :
  extractInfoHash magnetLink = Some h →
  length (Js.chars h) = 40%nat ∧
  Forall upperHex (Js.chars h) ∧
  Js.truthy magnetLink = true ∧
  ∃ pre post,
    Js.chars (toUpperCase magnetLink)
    = pre ++ Js.chars "BTIH:" ++ Js.chars h ++ post.
Proof.
  unfold extractInfoHash, exec.
  destruct (Js.truthy magnetLink) eqn:Ht; [|done]. cbn [negb].
  destruct (search re_btih40 (Js.chars magnetLink)) as [m|] eqn:Hs; [|done].
  cbn [fmap option_fmap option_map]. intros [= <-].
  apply search_sound in Hs as (pre & post & Hm & HM).
  unfold re_btih40 in HM.
  inversion HM as [| |r1 r2 w1 w2 rest' H1 H2| | | | |]; subst.
  apply Matches_lit in H1. apply (Matches_classes is_hex 39) in H2 as [Hlen Hhex].
  assert (length w1 = 5%nat) as Hlen1.
  { apply (f_equal length) in H1. by rewrite !length_fmap in H1. }
  unfold Js.skip. rewrite !chars_toUpperCase, !chars_text.
  rewrite drop_app_length' by done.
  split; [by rewrite length_fmap|]. split.
  { apply Forall_fmap. eapply Forall_impl; [exact Hhex|].
    intros c. apply is_hex_upper. }
  split; [done|].
  exists (upper_ascii <$> pre), (upper_ascii <$> post).
  rewrite Hm, !fmap_app, <-!app_assoc. f_equal.
  assert (upper_ascii <$> w1 = upper_ascii <$> (Js.lower_ascii <$> w1)) as ->.
  { rewrite <-list_fmap_compose. apply list_fmap_ext.
    intros _ c _. cbn. by rewrite upper_lower. }
  unfold sameLetters in H1. rewrite H1.
  by change (Js.chars "BTIH:")
    with (upper_ascii <$> (Js.lower_ascii <$> Js.chars "btih:")).
Qed.

Section Client.
Variable directdl : DirectDL.

(** After a list was returned it stands in the cache. *)
Lemma getFileList_stored apiKey magnetLink now later state files state' :
  getFileList directdl apiKey magnetLink now later state = (Ok files, state') →
  ∃ cached,
    fileCache state' !! fileKey (extractInfoHash magnetLink) = Some cached ∧
    data cached = files ∧
    (timestamp cached = later ∨ now - timestamp cached < CACHE_TTL).
Proof.
  unfold getFileList.
  assert (∀ st, fetchFileList directdl apiKey magnetLink later st
                = (Ok files, state') →
                ∃ cached,
                  fileCache state' !! fileKey (extractInfoHash magnetLink)
                    = Some cached ∧
                  data cached = files ∧ timestamp cached = later) as Hfetch.
  { intros st. unfold fetchFileList.
    destruct (directdl (calls st) (apiKey, magnetLink)) as [content|error];
      [|done].
    intros [= <- <-]. cbn [fileCache]. rewrite lookup_insert_eq. by eexists. }
  destruct (fileCache state !! fileKey (extractInfoHash magnetLink))
    as [cached|] eqn:Hc.
  - destruct (Z.ltb_spec (now - timestamp cached) CACHE_TTL) as [Hlt|Hge].
    + intros [= <- <-]. exists cached. split; [done|]. split; [done|]. by right.
    + intros (c & ? & ? & ?)%Hfetch. exists c. split; [done|]. split; [done|]. by left.
  - intros (c & ? & ? & ?)%Hfetch. exists c. split; [done|]. split; [done|]. by left.
Qed.

(** X15. For thirty minutes after a file list was stored, every call
    for a magnet link with the same info hash gets that list from the
    cache, whatever the API key of the caller, and sends no request; two
    links that both lack a forty-digit hash count as the same link. *)
Theorem getFileList_reuses (apiKey magnetLink : string) (now later : Z)
    (state state' : State) (files : list FileEntry) :
  getFileList directdl apiKey magnetLink now later state = (Ok files, state') →
  ∃ storedAt,
    (storedAt = later ∨ now - storedAt < CACHE_TTL) ∧
    ∀ apiKey' magnetLink' now' later',
      extractInfoHash magnetLink' = extractInfoHash magnetLink →
      now' - storedAt < CACHE_TTL →
      getFileList directdl apiKey' magnetLink' now' later' state'
      = (Ok files, state').
Proof.
  intros (cached & Hc & Hdata & Htime)%getFileList_stored.
  exists (timestamp cached). split; [done|].
  intros apiKey' magnetLink' now' later' Hhash Hfresh.
  unfold getFileList. rewrite Hhash, Hc.
  destruct (Z.ltb_spec (now' - timestamp cached) CACHE_TTL); [|lia].
  by rewrite Hdata.
Qed.

Lemma largest_elem first rest : largest first rest ∈ first :: rest.
Proof.
  revert first. induction rest as [|x rest IH]; intros first; [by left|].
  cbn [largest foldl]. fold (largest (if size first <? size x then x else first) rest).
  specialize (IH (if size first <? size x then x else first)).
  apply elem_of_cons in IH as [->|?]; [|by do 2 right].
  destruct (size first <? size x); [right; by left|by left].
Qed.

Lemma find_elem {A : Type} (P : A → bool) (l : list A) (x : A) :
  List.find P l = Some x → x ∈ l.
Proof. by intros [?%list_elem_of_In _]%find_some. Qed.

Lemma filter_elem {A : Type} (P : A → bool) (l : list A) (x : A) :
  x ∈ List.filter P l ↔ x ∈ l ∧ P x = true.
Proof. by rewrite !list_elem_of_In, filter_In. Qed.

Lemma findEpisodeFile_video files s e f :
  findEpisodeFile files s e = Some f → f ∈ files ∧ isVideo f = true.
Proof.
  unfold findEpisodeFile.
  destruct (exactMatch _ s e) as [f1|] eqn:H1.
  { intros [= <-]. by apply find_elem, filter_elem in H1. }
  destruct (looseMatch _ s e) as [f2|] eqn:H2.
  { intros [= <-]. by apply find_elem, filter_elem in H2. }
  unfold seasonPack.
  destruct (List.filter _ (List.filter isVideo files)) as [|first rest] eqn:H3;
    [done|].
  intros [= <-]. pose proof (largest_elem first rest) as Hin.
  rewrite <-H3 in Hin. apply filter_elem in Hin as [Hin _].
  by apply filter_elem in Hin.
Qed.

Lemma findBestMovieFile_video files best :
  findBestMovieFile files = Some best →
  file best ∈ files ∧ isVideo (file best) = true.
Proof.
  unfold findBestMovieFile.
  destruct (length (List.filter isVideo files) =? 0)%nat; [done|].
  intros Hh%head_Some_elem_of. apply js_sort_elem in Hh.
  apply list_elem_of_fmap in Hh as (f & -> & Hf). by apply filter_elem in Hf.
Qed.

(** X16. A link [getStreamUrl] returns is the streaming link, or else
    the download link, of a video file of the torrent's file list: the
    episode file found for a series with a season and an episode, the best
    movie file for every other type; a series without a season or an
    episode number, a list without a suitable file and an empty list make
    it throw. *)
Theorem getStreamUrl_link_of_video (apiKey magnetLink : string)
    (type : option string) (season episode : option nat) (now later : Z)
    (state state' : State) (url : string) :
  getStreamUrl directdl apiKey magnetLink type season episode now later state
    = (Ok url, state') →
  ∃ files f,
    getFileList directdl apiKey magnetLink now later state = (Ok files, state') ∧
    f ∈ files ∧ isVideo f = true ∧
    url = Js.or_else (stream_link f) (link f) ∧
    if String.eqb (default "movie" type) "series"
    then ∃ s e, season = Some (S s) ∧ episode = Some (S e) ∧
                findEpisodeFile files (S s) (S e) = Some f
    else file <$> findBestMovieFile files = Some f.
Proof.
  unfold getStreamUrl.
  destruct (getFileList directdl apiKey magnetLink now later state)
    as [[files|error] st] eqn:Hlist; [|done].
  destruct (length files =? 0)%nat; [done|].
  destruct (selectFile files (default "movie" type) season episode)
    as [f|error] eqn:Hsel; [|done].
  intros [= <- <-]. exists files, f. split; [done|].
  unfold selectFile in Hsel.
  destruct (String.eqb_spec (default "movie" type) "movie") as [Hm|Hm].
  { rewrite Hm. cbn [String.eqb Ascii.eqb Bool.eqb].
    destruct (findBestMovieFile files) as [best|] eqn:Hbest; [|done].
    injection Hsel as <-. apply findBestMovieFile_video in Hbest as [? ?].
    by repeat split. }
  destruct (String.eqb (default "movie" type) "series") eqn:Hs.
  - destruct season as [[|s]|]; [done| |done].
    destruct episode as [[|e]|]; [done| |done].
    destruct (findEpisodeFile files (S s) (S e)) as [f'|] eqn:Hf; [|done].
    injection Hsel as <-. pose proof Hf as [? ?]%findEpisodeFile_video.
    repeat split; [done..|]. by exists s, e.
  - destruct (findBestMovieFile files) as [best|] eqn:Hbest; [|done].
    injection Hsel as <-. apply findBestMovieFile_video in Hbest as [? ?].
    by repeat split.
Qed.

End Client.

End DownloadFacts.

Lemma extractInfoHash_format_witness :
  Downloads.extractInfoHash Cases.hex_magnet
    = Some "ABCDEF0123456789ABCDEF0123456789ABCDEF01" ∧
  length (Js.chars "ABCDEF0123456789ABCDEF0123456789ABCDEF01") = 40%nat.
Proof.
  assert (Downloads.extractInfoHash Cases.hex_magnet
          = Some "ABCDEF0123456789ABCDEF0123456789ABCDEF01") as Hh
    by (by vm_compute).
  split; [exact Hh|]. exact (proj1 (extractInfoHash_format _ _ Hh)).
Defined.

Lemma getFileList_reuses_witness :
  ∃ files state' storedAt,
    Downloads.getFileList Cases.film_server "pr=first" Cases.base32_magnet
      1000 1200 Cases.no_state = (Premiumize.Ok files, state') ∧
    length files = 2%nat ∧
    (storedAt = 1200 ∨ 1000 - storedAt < Downloads.CACHE_TTL) ∧
    ∀ apiKey' magnetLink' now' later',
      Downloads.extractInfoHash magnetLink'
        = Downloads.extractInfoHash Cases.base32_magnet →
      now' - storedAt < Downloads.CACHE_TTL →
      Downloads.getFileList Cases.film_server apiKey' magnetLink' now' later'
        state' = (Premiumize.Ok files, state').
Proof.
  eexists _, _.
  assert (Downloads.getFileList Cases.film_server "pr=first"
            Cases.base32_magnet 1000 1200 Cases.no_state = _) as Hcall
    by reflexivity.
  destruct (getFileList_reuses _ _ _ _ _ _ _ _ Hcall) as (storedAt & Hat & Hre).
  exists storedAt. split; [exact Hcall|]. split; [reflexivity|]. by split.
Defined.

Lemma getStreamUrl_link_of_video_witness :
  ∃ state' (files : list Premiumize.FileEntry) f,
    Downloads.getStreamUrl Cases.film_server "pr=first" Cases.hex_magnet
      (Some "movie") None None 1000 1200 Cases.no_state
    = (Premiumize.Ok "https://pm.example/stream/movie.mkv", state') ∧
    f ∈ files ∧ Premiumize.isVideo f = true ∧
    "https://pm.example/stream/movie.mkv"
    = Js.or_else (Premiumize.stream_link f) (Premiumize.link f).
Proof.
  eexists.
  assert (Downloads.getStreamUrl Cases.film_server "pr=first" Cases.hex_magnet
            (Some "movie") None None 1000 1200 Cases.no_state
          = (Premiumize.Ok "https://pm.example/stream/movie.mkv", _)) as Hcall
    by reflexivity.
  destruct (getStreamUrl_link_of_video _ _ _ _ _ _ _ _ _ _ _ Hcall)
    as (files & f & _ & Hin & Hvideo & Hurl & _).
  by exists files, f.
Defined.

(** ** The RealDebrid adapter *)

Section RealDebridFacts.
Import Resolver RealDebrid.

Lemma objects_lookup torrent j o :
  objects torrent !! j = Some o ↔
    ∃ f, files torrent !! j = Some f ∧ o = {| ref := j; fields := f |}.
Proof.
  unfold objects. rewrite list_lookup_imap.
  destruct (files torrent !! j) as [f|]; cbn.
  - split; [intros [= <-]; by exists f|by intros (f' & [= <-] & ->)].
  - split; [done|by intros (f' & ? & _)].
Qed.

Lemma objects_elem torrent o :
  o ∈ objects torrent → objects torrent !! ref o = Some o.
Proof.
  intros [j Hj]%list_elem_of_lookup_1.
  pose proof Hj as (f & _ & ->)%objects_lookup. done.
Qed.

Lemma objects_ref torrent o :
  o ∈ objects torrent → (ref o < fresh torrent)%nat.
Proof.
  intros (f & Hf & _)%objects_elem%objects_lookup.
  by apply lookup_lt_Some in Hf.
Qed.

(** An object of the array stands at the index that is its address. *)
Lemma indexOf_own torrent o :
  o ∈ objects torrent → indexOf (objects torrent) o = Some (ref o).
Proof.
  intros Ho. unfold indexOf.
  destruct (list_find _ _) as [[j o']|] eqn:Hfind.
  - apply list_find_Some in Hfind as (Hj & Href & _).
    apply objects_lookup in Hj as (f & _ & ->). cbn in Href. by rewrite Href.
  - apply list_find_None in Hfind. eapply Forall_forall in Hfind; [|exact Ho].
    done.
Qed.

(** A copy is not in the array. *)
Lemma indexOf_copy torrent o :
  (fresh torrent ≤ ref o)%nat → indexOf (objects torrent) o = None.
Proof.
  intros Href. unfold indexOf.
  destruct (list_find _ _) as [[j o']|] eqn:Hfind; [|done].
  apply list_find_Some in Hfind as (Hj%list_elem_of_lookup_2 & Heq & _).
  apply objects_ref in Hj. lia.
Qed.

Lemma findBestMovieFile_copy next files best :
  findBestMovieFile next files = Some best →
  (next ≤ ref best)%nat ∧ ∃ o, o ∈ files ∧ fields best = fields o.
Proof.
  unfold findBestMovieFile. destruct (head _) as [sc|] eqn:Hh; [|done].
  intros [= <-]. apply head_Some_elem_of, js_sort_elem in Hh.
  apply list_elem_of_lookup_1 in Hh as [i Hi].
  rewrite list_lookup_imap in Hi.
  destruct (files !! i) as [o|] eqn:Ho; [|done]. injection Hi as <-.
  cbn [object ref fields]. split; [lia|].
  exists o. split; [by eapply list_elem_of_lookup_2|done].
Qed.

Lemma findBestMovieFile_some next files :
  files ≠ [] → is_Some (findBestMovieFile next files).
Proof.
  intros Hne. unfold findBestMovieFile.
  destruct (head _) as [sc|] eqn:Hh; [by eexists|].
  apply head_None in Hh. apply (f_equal length) in Hh.
  rewrite js_sort_length, length_imap in Hh. by destruct files.
Qed.

Lemma largest_object first rest : RealDebrid.largest first rest ∈ first :: rest.
Proof.
  revert first. induction rest as [|x rest IH]; intros first; [by left|].
  cbn [RealDebrid.largest foldl].
  fold (RealDebrid.largest
          (if bytes (fields first) <? bytes (fields x) then x else first) rest).
  specialize (IH (if bytes (fields first) <? bytes (fields x) then x else first)).
  apply elem_of_cons in IH as [->|?]; [|by do 2 right].
  destruct (bytes (fields first) <? bytes (fields x)); [right; by left|by left].
Qed.

Lemma findEpisodeFile_elem files s e o :
  RealDebrid.findEpisodeFile files s e = Some o → o ∈ files.
Proof.
  unfold RealDebrid.findEpisodeFile.
  destruct (List.find (RealDebrid.hits _) files) as [f1|] eqn:H1.
  { intros [= <-]. by apply find_elem in H1. }
  destruct (List.find (λ o, negb _ && _) files) as [f2|] eqn:H2.
  { intros [= <-]. by apply find_elem in H2. }
  destruct (List.filter _ files) as [|first rest] eqn:H3; [done|].
  intros [= <-]. pose proof (largest_object first rest) as Hin.
  rewrite <-H3 in Hin. by apply filter_elem in Hin as [Hin _].
Qed.

(** For a movie the file settled on is a copy. *)
Lemma targetFile_movie torrent season episode target :
  targetFile torrent "movie" season episode = inr target →
  (fresh torrent ≤ ref target)%nat.
Proof.
  unfold targetFile. destruct (List.filter _ _) as [|first rest]; [done|].
  cbn [String.eqb Ascii.eqb Bool.eqb].
  destruct (findBestMovieFile _ _) as [best|] eqn:Hbest; [|done].
  intros [= <-]. by apply findBestMovieFile_copy in Hbest as [? _].
Qed.

(** For every other type it is a selected video file of the torrent. *)
Lemma targetFile_other torrent type season episode target :
  type ≠ "movie" →
  targetFile torrent type season episode = inr target →
  target ∈ objects torrent ∧
  selected (fields target) = 1 ∧ isVideoFile (path (fields target)) = true.
Proof.
  intros Htype%String.eqb_neq. unfold targetFile. rewrite Htype.
  destruct (List.filter _ _) as [|first rest] eqn:Hsel; [done|].
  assert (∀ o, o ∈ first :: rest →
               o ∈ objects torrent ∧ selected (fields o) = 1 ∧
               isVideoFile (path (fields o)) = true) as Hin.
  { intros o Ho. rewrite <-Hsel in Ho.
    apply filter_elem in Ho as [Ho [H1 H2]%andb_true_iff].
    split; [done|]. split; [lia|done]. }
  destruct (String.eqb type "series");
    [|intros [= <-]; apply Hin, largest_object].
  destruct season as [[|s]|]; try (intros [= <-]; apply Hin, largest_object).
  destruct episode as [[|e]|]; try (intros [= <-]; apply Hin, largest_object).
  destruct (RealDebrid.findEpisodeFile _ _ _) as [o|] eqn:Hfind;
    [|intros [= <-]; apply Hin, largest_object].
  intros [= <-]. by apply Hin, (findEpisodeFile_elem _ (S s) (S e)).
Qed.

Section Client.
Variable api : Api.

Lemma discreet_ret {A : Type} (a : A) : discreet (ret a).
Proof. intros log. exists []. by rewrite app_nil_r. Qed.

Lemma discreet_throw {A : Type} thrown : discreet (throw (A := A) thrown).
Proof. intros log. exists []. by rewrite app_nil_r. Qed.

Lemma discreet_send {A : Type} request (answer : list Request → Thrown + A) :
  is_unrestrict request = false → discreet (send request answer).
Proof. intros Hr log. exists [request]. split; [done|by constructor]. Qed.

Lemma discreet_bind {A B : Type} (m : M A) (k : A → M B) :
  discreet m → (∀ a, discreet (k a)) → discreet (bind m k).
Proof.
  intros Hm Hk log. unfold bind. destruct (Hm log) as (more & Hlog & Hmore).
  destruct (m log) as [[thrown|a] log']; cbn [snd] in *; [by exists more|].
  destruct (Hk a log') as (more' & Hlog' & Hmore'). subst log'.
  exists (more ++ more'). rewrite Hlog', app_assoc.
  split; [done|by apply Forall_app].
Qed.

Lemma discreet_catch {A : Type} (m handler : M A) :
  discreet m → discreet handler → discreet (catch m handler).
Proof.
  intros Hm Hh log. unfold catch. destruct (Hm log) as (more & Hlog & Hmore).
  destruct (m log) as [[thrown|a] log']; cbn [snd] in *; [|by exists more].
  destruct (Hh log') as (more' & Hlog' & Hmore'). subst log'.
  exists (more ++ more'). rewrite Hlog', app_assoc.
  split; [done|by apply Forall_app].
Qed.

Lemma barren_bind {A B : Type} (m : M A) (k : A → M B) :
  (∀ a, barren (k a)) → barren (bind m k).
Proof.
  intros Hk log. unfold bind.
  destruct (m log) as [[thrown|a] log']; [by exists thrown|apply Hk].
Qed.

Lemma barren_throw {A : Type} thrown : barren (throw (A := A) thrown).
Proof. intros log. by exists thrown. Qed.

Lemma createOrFindTorrentId_discreet infoHash magnetLink :
  discreet (createOrFindTorrentId api infoHash magnetLink).
Proof.
  apply discreet_catch; [|by apply discreet_send].
  apply discreet_bind; [by apply discreet_send|].
  intros found. destruct (List.find _ found);
    [apply discreet_ret|apply discreet_throw].
Qed.

Lemma selectTorrentFiles_discreet torrent type season episode :
  discreet (selectTorrentFiles api torrent type season episode).
Proof.
  unfold selectTorrentFiles.
  destruct (negb _); [apply discreet_ret|].
  destruct (fileIds _ _ _ _); [apply discreet_throw|by apply discreet_send].
Qed.

Lemma unrestrictLink_movie torrent season episode :
  discreet (unrestrictLink api torrent "movie" season episode) ∧
  barren (unrestrictLink api torrent "movie" season episode).
Proof.
  unfold unrestrictLink.
  destruct (targetFile torrent "movie" season episode) as [thrown|target] eqn:Ht;
    [split; [apply discreet_throw|apply barren_throw]|].
  apply targetFile_movie in Ht. unfold downloadLink.
  rewrite indexOf_copy by done.
  split; [apply discreet_throw|apply barren_throw].
Qed.

Lemma getCachedUrl_movie magnetLink type season episode :
  default "movie" type = "movie" →
  discreet (getCachedUrl api magnetLink type season episode) ∧
  barren (getCachedUrl api magnetLink type season episode).
Proof.
  intros Htype. unfold getCachedUrl. rewrite Htype.
  destruct (Re.exec re_btih40 magnetLink) as [hashMatch|];
    [|split; [apply discreet_throw|apply barren_throw]].
  split.
  - apply discreet_bind; [apply createOrFindTorrentId_discreet|].
    intros torrentId. apply discreet_bind; [by apply discreet_send|].
    intros torrent.
    destruct (statusReady _); [apply unrestrictLink_movie|].
    destruct (statusDownloading _); [apply discreet_throw|].
    destruct (statusWaitingSelection _); [|apply discreet_throw].
    apply discreet_bind; [apply selectTorrentFiles_discreet|]. intros _.
    apply discreet_bind; [by apply discreet_send|]. intros updated.
    destruct (statusReady _); [apply unrestrictLink_movie|apply discreet_throw].
  - apply barren_bind. intros torrentId. apply barren_bind. intros torrent.
    destruct (statusReady _); [apply unrestrictLink_movie|].
    destruct (statusDownloading _); [apply barren_throw|].
    destruct (statusWaitingSelection _); [|apply barren_throw].
    apply barren_bind. intros _. apply barren_bind. intros updated.
    destruct (statusReady _); [apply unrestrictLink_movie|apply barren_throw].
Qed.

(** X17. For a movie [getCachedUrl] never returns a link: the file it
    settles on is a copy made while scoring, which [indexOf] does not find
    among the files of the torrent, so that no download link is read and
    no request for an unrestricted link is sent; the call ends with a
    thrown error whatever the service answers. *)
Theorem getCachedUrl_movie_never_returns (magnetLink : string)
    (type : option string) (season episode : option nat) (log : list Request) :
  default "movie" type = "movie" →
  ∃ thrown more,
    getCachedUrl api magnetLink type season episode log
    = (inl thrown, log ++ more) ∧
    Forall (λ request, is_unrestrict request = false) more.
Proof.
  intros Htype.
  destruct (getCachedUrl_movie magnetLink type season episode Htype)
    as [Hd Hb].
  destruct (Hd log) as (more & Hlog & Hmore). destruct (Hb log) as (thrown & Hth).
  exists thrown, more. split; [|done].
  destruct (getCachedUrl api magnetLink type season episode log) as [r l].
  cbn [fst snd] in *. by subst.
Qed.

Lemma unrestrictLink_returns torrent type season episode log url log' :
  unrestrictLink api torrent type season episode log = (inr url, log') →
  type ≠ "movie" ∧
  ∃ j file link,
    files torrent !! j = Some file ∧ selected file = 1 ∧
    isVideoFile (path file) = true ∧
    links torrent !! j = Some link ∧ Js.truthy link = true ∧
    log' = log ++ [Unrestrict link] ∧ unrestrict api log link = inr url.
Proof.
  intros Hrun. assert (type ≠ "movie") as Htype.
  { intros ->. destruct (unrestrictLink_movie torrent season episode) as [_ Hb].
    destruct (Hb log) as [thrown Hth]. by rewrite Hrun in Hth. }
  split; [done|]. unfold unrestrictLink in Hrun.
  destruct (targetFile torrent type season episode) as [thrown|target] eqn:Ht;
    [done|].
  apply targetFile_other in Ht as (Hin & Hsel & Hvideo); [|done].
  unfold downloadLink in Hrun. rewrite (indexOf_own _ _ Hin) in Hrun.
  destruct (links torrent !! ref target) as [link|] eqn:Hlink; [|done].
  destruct (Js.truthy link) eqn:Htruthy; [|done].
  unfold send in Hrun. injection Hrun as Hanswer <-.
  apply objects_elem, objects_lookup in Hin as (file & Hfile & Heq).
  exists (ref target), file, link. rewrite Heq in Hsel, Hvideo.
  by repeat split.
Qed.

(** X18. A link [getCachedUrl] returns is the answer of the service to
    the last request sent, which asks to unrestrict the download link
    that stands in [links] at the index of a file of the torrent, a
    video file marked as selected; the torrent is one the service
    reported as downloaded (or dead), and the type asked for is not a
    movie. *)
Theorem getCachedUrl_link (magnetLink : string) (type : option string)
    (season episode : option nat) (log log' : list Request) (url : string) :
  getCachedUrl api magnetLink type season episode log = (inr url, log') →
  default "movie" type ≠ "movie" ∧
  ∃ torrent j file link before,
    (∃ earlier torrentId, info api earlier torrentId = inr torrent) ∧
    statusReady (status torrent) = true ∧
    files torrent !! j = Some file ∧ selected file = 1 ∧
    isVideoFile (path file) = true ∧
    links torrent !! j = Some link ∧ Js.truthy link = true ∧
    log' = before ++ [Unrestrict link] ∧
    unrestrict api before link = inr url.
Proof.
  unfold getCachedUrl.
  destruct (Re.exec re_btih40 magnetLink) as [hashMatch|]; [|done].
  unfold bind at 1.
  destruct (createOrFindTorrentId api _ magnetLink log) as [[thrown|torrentId] log1];
    [done|].
  unfold bind at 1, getTorrentInfo at 1, send at 1.
  destruct (info api log1 torrentId) as [thrown|torrent] eqn:Hinfo; [done|].
  destruct (statusReady (status torrent)) eqn:Hready.
  { intros (Htype & j & file & link & ? & ? & ? & ? & ? & ? & ?)%unrestrictLink_returns.
    split; [done|]. exists torrent, j, file, link, (log1 ++ [TorrentInfo torrentId]).
    split; [by exists log1, torrentId|]. by repeat split. }
  destruct (statusDownloading (status torrent)); [done|].
  destruct (statusWaitingSelection (status torrent)); [|done].
  unfold bind at 1.
  destruct (selectTorrentFiles api torrent _ season episode _) as [[thrown|[]] log2];
    [done|].
  unfold bind at 1, getTorrentInfo at 1, send at 1.
  destruct (info api log2 torrentId) as [thrown|updated] eqn:Hinfo2; [done|].
  destruct (statusReady (status updated)) eqn:Hready2; [|done].
  intros (Htype & j & file & link & ? & ? & ? & ? & ? & ? & ?)%unrestrictLink_returns.
  split; [done|]. exists updated, j, file, link, (log2 ++ [TorrentInfo torrentId]).
  split; [by exists log2, torrentId|]. by repeat split.
Qed.

End Client.

(** X19. The files [selectTorrentFiles] asks the service to select are
    video files of the torrent larger than 5 MB, and at least one: for a
    movie one file, for a series with a season and an episode the one
    episode file found, for anything else all of them. *)
Theorem fileIds_selection (torrent : Torrent) (type : string)
    (season episode : option nat) (ids : list Z) :
  fileIds torrent type season episode = inr ids →
  ids ≠ [] ∧
  (∀ i, i ∈ ids →
        ∃ f, f ∈ files torrent ∧ id f = i ∧
             isVideoFile (path f) = true ∧ 5 * Premiumize.MB < bytes f) ∧
  (type = "movie" → length ids = 1%nat) ∧
  (type = "series" → (∃ s, season = Some (S s)) → (∃ e, episode = Some (S e)) →
   length ids = 1%nat).
Proof.
  unfold fileIds.
  set (videoFiles := List.filter _ (objects torrent)).
  assert (∀ o, o ∈ videoFiles →
               ∃ f, f ∈ files torrent ∧ id f = id (fields o) ∧
                    isVideoFile (path f) = true ∧ 5 * Premiumize.MB < bytes f)
    as Hvideo.
  { intros o [Ho [H1 H2]%andb_true_iff]%filter_elem.
    apply objects_elem, objects_lookup in Ho as (f & Hf & Heq).
    exists f. rewrite Heq in H1, H2 |- *. cbn [fields] in *.
    split; [by eapply list_elem_of_lookup_2|]. split; [done|].
    split; [done|lia]. }
  destruct (Nat.eqb_spec (length videoFiles) 0) as [|Hne]; [done|].
  assert (videoFiles ≠ []) as Hne' by (by destruct videoFiles).
  assert (∀ o, o ∈ videoFiles →
               [id (fields o)] ≠ [] ∧
               (∀ i, i ∈ [id (fields o)] →
                     ∃ f, f ∈ files torrent ∧ id f = i ∧
                          isVideoFile (path f) = true ∧
                          5 * Premiumize.MB < bytes f)) as Hone.
  { intros o Ho. split; [done|].
    intros i ->%list_elem_of_singleton. by apply Hvideo. }
  assert ((λ o, id (fields o)) <$> videoFiles ≠ [] ∧
          (∀ i, i ∈ (λ o, id (fields o)) <$> videoFiles →
                ∃ f, f ∈ files torrent ∧ id f = i ∧
                     isVideoFile (path f) = true ∧
                     5 * Premiumize.MB < bytes f)) as Hall.
  { split; [by destruct videoFiles|].
    intros i (o & -> & Ho)%list_elem_of_fmap. by apply Hvideo. }
  destruct (String.eqb_spec type "movie") as [->|Hmovie].
  { destruct (findBestMovieFile_some (fresh torrent) videoFiles Hne')
      as [best Hbest]. rewrite Hbest. intros [= <-].
    apply findBestMovieFile_copy in Hbest as (_ & o & Ho & ->).
    destruct (Hone o Ho) as [? ?]. by repeat split. }
  destruct (String.eqb_spec type "series") as [->|Hseries].
  - destruct season as [[|s]|]; [intros [= <-]; destruct Hall as [? ?];
      repeat split; try done; by intros _ [? ?] | |
      intros [= <-]; destruct Hall as [? ?];
      repeat split; try done; by intros _ [? ?]].
    destruct episode as [[|e]|]; [intros [= <-]; destruct Hall as [? ?];
      repeat split; try done; by intros _ _ [? ?] | |
      intros [= <-]; destruct Hall as [? ?];
      repeat split; try done; by intros _ _ [? ?]].
    destruct (RealDebrid.findEpisodeFile videoFiles (S s) (S e)) as [o|] eqn:Hf;
      [|done].
    intros [= <-]. apply findEpisodeFile_elem in Hf.
    destruct (Hone o Hf) as [? ?]. by repeat split.
  - destruct Hall as [? ?].
    destruct season as [[|s]|], episode as [[|e]|]; intros [= <-];
      (split; [done|]; split; [done|]; split; by intros ?).
Qed.

(** X20. [checkInstantAvailability] sends no request and reports every
    hash it is given as cached, under the hash in lower case, and no
    other hash. *)
Theorem checkInstantAvailability_all_cached (hashes : list string) (h : string) :
  checkInstantAvailability hashes !! h
  = if bool_decide (h ∈ Js.toLowerCase <$> hashes) then Some true else None.
Proof.
  unfold checkInstantAvailability.
  induction hashes as [|x hashes IH] using rev_ind; [done|].
  rewrite foldl_app, fmap_app. cbn [foldl fmap list_fmap].
  destruct (decide (Js.toLowerCase x = h)) as [<-|Hne].
  - rewrite lookup_insert_eq, bool_decide_eq_true_2; [done|].
    apply elem_of_app. right. by left.
  - rewrite lookup_insert_ne, IH by done.
    assert (bool_decide (h ∈ Js.toLowerCase <$> hashes)
            = bool_decide (h ∈ (Js.toLowerCase <$> hashes) ++ [Js.toLowerCase x]))
      as ->; [|done].
    apply bool_decide_ext. rewrite elem_of_app, list_elem_of_singleton.
    naive_solver.
Qed.

End RealDebridFacts.

Lemma getCachedUrl_movie_never_returns_witness :
  ∃ thrown more,
    RealDebrid.getCachedUrl Cases.realdebrid_ready Cases.hex_magnet
      (Some "movie") None None []
    = (inl thrown, [] ++ more) ∧
    Forall (λ request, RealDebrid.is_unrestrict request = false) more.
Proof.
  apply (getCachedUrl_movie_never_returns Cases.realdebrid_ready
           Cases.hex_magnet (Some "movie") None None []).
  reflexivity.
Defined.

Lemma getCachedUrl_link_witness :
  RealDebrid.getCachedUrl Cases.realdebrid_ready Cases.hex_magnet
    (Some "series") (Some 1%nat) (Some 2%nat) []
  = (inr "https://cdn.example/BBB",
     [RealDebrid.ListTorrents; RealDebrid.TorrentInfo "T1";
      RealDebrid.Unrestrict "https://real-debrid.com/d/BBB"]) ∧
  default "movie" (Some "series") ≠ "movie".
Proof.
  assert (RealDebrid.getCachedUrl Cases.realdebrid_ready Cases.hex_magnet
            (Some "series") (Some 1%nat) (Some 2%nat) []
          = (inr "https://cdn.example/BBB",
             [RealDebrid.ListTorrents; RealDebrid.TorrentInfo "T1";
              RealDebrid.Unrestrict "https://real-debrid.com/d/BBB"])) as Hcall
    by (by vm_compute).
  split; [exact Hcall|].
  exact (proj1 (getCachedUrl_link _ _ _ _ _ _ _ _ Hcall)).
Defined.

Lemma fileIds_selection_witness :
  RealDebrid.fileIds Cases.episodes_torrent "series" (Some 1%nat) (Some 2%nat)
    = inr [2] ∧
  [2] ≠ [].
Proof.
  assert (RealDebrid.fileIds Cases.episodes_torrent "series" (Some 1%nat)
            (Some 2%nat) = inr [2]) as Hids by (by vm_compute).
  split; [exact Hids|]. exact (proj1 (fileIds_selection _ _ _ _ _ Hids)).
Defined.

(** ** From the candidates to the response *)

Section ResponseFacts.
Import Response.
Variables parseQuality parseSize : string → Z.
Variable encode : string → string → string.
Variable origin : string.
Variable glyph : Symbol → string.
Variables tag mark : string.
Variable checkRDCache :
  Backend → list Aggregator.Candidate → option (gmap string Prober.Entry).
Local Abbreviation format := (format parseQuality parseSize encode origin glyph tag mark).
Local Abbreviation formattedStreams :=
  (formattedStreams parseQuality parseSize encode origin glyph tag mark).
Local Abbreviation respond :=
  (respond parseQuality parseSize encode origin glyph tag mark checkRDCache).
Local Abbreviation limitedStreams := (Endpoint.limitedStreams parseQuality parseSize).

(** A candidate of the aggregator carries a link, a file name and a hash
    in lower case. *)
Lemma candidate_fields raced c :
  c ∈ Aggregator.getStreams raced →
  Js.truthy (Aggregator.magnetLink c) = true ∧
  Js.truthy (Aggregator.filename c) = true ∧
  Js.truthy (Aggregator.hash c) = true ∧
  Js.toLowerCase (Aggregator.hash c) = Aggregator.hash c.
Proof.
  destruct raced as [allResults|]; cbn [Aggregator.getStreams];
    [|by intros ?%elem_of_nil].
  rewrite combine_survivors. intros Hc.
  destruct (survivors_first _ _ _ Hc) as (s & Hs & Heq).
  apply find_some in Hs as [_ Hs]. apply bool_decide_eq_true in Hs.
  apply hashOf_Some in Hs as [Hlink Hs].
  apply extractHash_found in Hs as (Hne & Hhex & _).
  split; [by rewrite Heq|]. split.
  { rewrite Heq. cbn [Aggregator.filename Aggregator.normalize].
    by do 2 apply or_else_truthy. }
  split; [by apply truthy_chars|by apply lowerHex_toLowerCase].
Qed.

Lemma limitedStreams_elem newStreams c :
  c ∈ limitedStreams newStreams → c ∈ newStreams.
Proof.
  unfold Endpoint.limitedStreams. intros Hc%subseteq_take.
  by apply js_sort_elem in Hc.
Qed.


Lemma allProcessedStreams_elem backends limited processed :
  processed ∈ allProcessedStreams checkRDCache backends limited ↔
    ∃ backend map,
      backend ∈ backends ∧ cacheMap checkRDCache backend limited = Some map ∧
      processed ∈ Prober.serviceStreams (serviceName backend) map.
Proof.
  unfold allProcessedStreams. rewrite list_elem_of_bind. split.
  - intros (backend & Hp & Hb).
    destruct (cacheMap checkRDCache backend limited) as [map|] eqn:Hm;
      [|by apply elem_of_nil in Hp].
    by exists backend, map.
  - intros (backend & map & Hb & Hm & Hp). exists backend. by rewrite Hm.
Qed.

(** The entries of a service checked by the helper come from candidates. *)
Lemma helper_entry raced backend map h entry :
  viaHelper backend →
  cacheMap checkRDCache backend (limitedStreams (Aggregator.getStreams raced))
    = Some map →
  map !! h = Some entry →
  ∃ c, c ∈ Aggregator.getStreams raced ∧
       Prober.magnetLink entry = Aggregator.magnetLink c ∧
       Prober.filename entry = Aggregator.filename c ∧
       Prober.hash entry = Aggregator.hash c.
Proof.
  intros [Hn1%String.eqb_neq Hn2%String.eqb_neq]. unfold cacheMap.
  destruct (timely backend); [|done]. rewrite Hn1, Hn2. cbn [orb].
  destruct (checkCacheStatuses backend) as [service|];
    [|intros [= <-]; by rewrite lookup_empty].
  intros [= <-] (results & c & r & _ & Hc & _ & _ & ->)%checkCacheStatuses_origin.
  apply validStreams_elem in Hc as [Hc _].
  apply list_elem_of_fmap in Hc as (c' & [= <-] & Hc).
  apply limitedStreams_elem in Hc. exists c. split; [done|].
  destruct (candidate_fields raced c Hc) as (_ & Hname & _ & Hlower).
  cbn [Prober.magnetLink Prober.filename Prober.hash Prober.entryOf].
  split; [done|]. split; [|exact Hlower].
  unfold Js.or_else. by rewrite Hname.
Qed.


(** An entry made by the helper for a candidate of the aggregator passes
    the validation of the formatting loop. *)
Lemma helper_formatted raced backend map cacheKey processed :
  viaHelper backend →
  cacheMap checkRDCache backend (limitedStreams (Aggregator.getStreams raced))
    = Some map →
  processed ∈ Prober.serviceStreams (serviceName backend) map →
  is_Some (format cacheKey processed).
Proof.
  intros Hvia Hmap (h & entry & Hentry & _ & _ & ->)%serviceStreams_elem.
  destruct (helper_entry raced backend map h entry Hvia Hmap Hentry)
    as (c & Hc & Hlink & Hname & _).
  destruct (candidate_fields raced c Hc) as (Hl & Hn & _).
  unfold Response.format. cbn [Prober.stream].
  rewrite Hlink, Hname, Hl, Hn. by eexists.
Qed.

Lemma omap_total {A B : Type} (g : A → option B) (l : list A) :
  Forall (λ x, is_Some (g x)) l → length (omap g l) = length l.
Proof.
  induction 1 as [|x l [y Hy] _ IH]; [done|].
  cbn [omap list_omap]. rewrite Hy. cbn [length]. by rewrite <-IH.
Qed.

(** X22. When every configured service is checked by the helper of
    [index.js], the formatting loop skips nothing: the response has one
    stream for every entry that a service answering in time reported as
    cached, up to the limit of fifty. *)
Theorem respond_skips_nothing (backends : list Backend) (cacheKey : string)
    (raced : option (list Aggregator.Settled)) :
  Forall viaHelper backends →
  length (respond backends cacheKey (Aggregator.getStreams raced))
  = Nat.min 50
      (length (allProcessedStreams checkRDCache backends
                 (limitedStreams (Aggregator.getStreams raced)))).
Proof.
  intros Hvia. unfold Response.respond.
  set (processed := allProcessedStreams checkRDCache backends
                      (limitedStreams (Aggregator.getStreams raced))).
  assert (length (formattedStreams cacheKey processed) = length processed)
    as Hall.
  { apply omap_total, Forall_forall. intros p Hp.
    apply allProcessedStreams_elem in Hp as (backend & map & Hb & Hmap & Hp).
    eapply helper_formatted; [|exact Hmap|exact Hp].
    by eapply Forall_forall in Hvia. }
  destruct (Nat.eqb_spec (length (Aggregator.getStreams raced)) 0) as [Hz|_].
  { apply length_zero_iff_nil in Hz. unfold processed. rewrite Hz.
    assert (allProcessedStreams checkRDCache backends (limitedStreams []) = [])
      as ->; [|done].
    apply elem_of_nil_inv. intros p (backend & map & Hb & Hmap & Hp)%allProcessedStreams_elem.
    apply serviceStreams_elem in Hp as (h & entry & Hentry & _).
    assert (viaHelper backend) as [Hn1%String.eqb_neq Hn2%String.eqb_neq]
      by (by eapply Forall_forall in Hvia).
    unfold cacheMap in Hmap. destruct (timely backend); [|done].
    rewrite Hn1, Hn2 in Hmap. cbn [orb] in Hmap.
    destruct (checkCacheStatuses backend) as [service|];
      injection Hmap as <-; [|by rewrite lookup_empty in Hentry].
    apply checkCacheStatuses_origin in Hentry
      as (results & c & r & _ & Hc & _).
    apply validStreams_elem in Hc as [Hc _]. by apply elem_of_nil in Hc. }
  destruct (Nat.eqb_spec (length processed) 0) as [Hz|_]; [by rewrite Hz|].
  unfold Ranker.sortedStreams.
  by rewrite length_take, js_sort_length, Hall.
Qed.

End ResponseFacts.


Lemma respond_skips_nothing_witness :
  Forall Response.viaHelper [Cases.premiumize_backend] ∧
  length (Response.respond (λ _, 1080) (λ _, 2000) (λ m _, m) "http://host/key/"
            (λ _, "*") "HY" "from " (λ _ _, None)
            [Cases.premiumize_backend] "movie-tt1"
            (Aggregator.getStreams (Some Samples.two_backends)))
  = Nat.min 50
      (length (Response.allProcessedStreams (λ _ _, None)
                 [Cases.premiumize_backend]
                 (Endpoint.limitedStreams (λ _, 1080) (λ _, 2000)
                    (Aggregator.getStreams (Some Samples.two_backends))))).
Proof.
  assert (Forall Response.viaHelper [Cases.premiumize_backend]) as Hvia.
  { repeat constructor; by vm_compute. }
  split; [exact Hvia|].
  exact (respond_skips_nothing _ _ _ _ _ _ _ _ _ "movie-tt1"
           (Some Samples.two_backends) Hvia).
Defined.

(** ** The store of alternates *)

Section StreamCacheFacts.
Import StreamCache.

Lemma set_fresh key value store :
  key ∉ store.*1 → set key value store = store ++ [(key, value)].
Proof.
  induction store as [|[k v] store IH]; [done|].
  rewrite fmap_cons. intros [Hk Hs]%not_elem_of_cons. cbn [set fst].
  destruct (String.eqb_spec k key) as [->|_]; [done|]. by rewrite IH.
Qed.

Lemma refill (entries done : Store) :
  NoDup (done ++ entries).*1 →
  foldl (λ cache kv, set kv.1 kv.2 cache) done entries = done ++ entries.
Proof.
  revert done. induction entries as [|[k v] entries IH]; intros done Hnd.
  - by rewrite app_nil_r.
  - cbn [foldl fst snd]. rewrite set_fresh.
    + rewrite IH; rewrite <-app_assoc; [done|exact Hnd].
    + rewrite fmap_app, fmap_cons in Hnd.
      apply NoDup_app in Hnd as (_ & Hdis & _). intros Hin.
      apply (Hdis k Hin). by left.
Qed.

Lemma get_lookup key store value :
  wellFormed store → get key store = Some value ↔ (key, value) ∈ store.
Proof.
  unfold wellFormed, get. induction store as [|[k v] store IH]; intros Hnd.
  - split; [done|by intros ?%elem_of_nil].
  - rewrite fmap_cons in Hnd. apply NoDup_cons in Hnd as [Hk Hnd].
    cbn [List.find fst]. destruct (String.eqb_spec k key) as [->|Hne].
    + cbn. split; [intros [= ->]; by left|].
      intros [[= ->]|Hin]%elem_of_cons; [done|]. destruct Hk.
      apply list_elem_of_fmap. by exists (key, value).
    + rewrite IH by done. split; [by right|].
      intros [[= ? _]|?]%elem_of_cons; [by subst|done].
Qed.

(** X23. The periodic clean-up leaves a store of at most a thousand
    keys alone and cuts a larger one down to its five hundred newest keys:
    what is left is the end of the store as it was, every key that is
    left keeps its alternates, and no key is added. *)
Theorem cleanup_keeps_newest (store : Store) :
  wellFormed store →
  cleanup store
  = (if (1000 <? length store)%nat then drop (length store - 500) store
     else store) ∧
  (length store ≤ 1000 → cleanup store = store)%nat ∧
  (1000 < length store → length (cleanup store) = 500)%nat ∧
  wellFormed (cleanup store) ∧
  (∀ key value, get key (cleanup store) = Some value →
                get key store = Some value).
Proof.
  intros Hwf.
  assert (cleanup store
          = if (1000 <? length store)%nat then drop (length store - 500) store
            else store) as Heq.
  { unfold cleanup, newest. destruct (1000 <? length store)%nat; [|done].
    apply (refill _ []). cbn [app]. unfold wellFormed in Hwf.
    rewrite <-(take_drop (length store - 500) store), fmap_app in Hwf.
    by apply NoDup_app in Hwf as (_ & _ & ?). }
  assert (wellFormed (cleanup store)) as Hwf'.
  { rewrite Heq. destruct (1000 <? length store)%nat; [|done].
    unfold wellFormed in *.
    rewrite <-(take_drop (length store - 500) store), fmap_app in Hwf.
    by apply NoDup_app in Hwf as (_ & _ & ?). }
  split; [exact Heq|]. split.
  { intros Hle. rewrite Heq. by destruct (Nat.ltb_spec 1000 (length store)); [lia|]. }
  split.
  { intros Hgt. rewrite Heq.
    destruct (Nat.ltb_spec 1000 (length store)); [|lia].
    rewrite length_drop. lia. }
  split; [exact Hwf'|].
  intros key value. rewrite !get_lookup by done. rewrite Heq.
  destruct (1000 <? length store)%nat; [|done].
  apply subseteq_drop.
Qed.

End StreamCacheFacts.

Lemma cleanup_keeps_newest_witness :
  StreamCache.wellFormed [("movie-tt1", [Samples.alternate])] ∧
  StreamCache.cleanup [("movie-tt1", [Samples.alternate])]
  = [("movie-tt1", [Samples.alternate])].
Proof.
  assert (StreamCache.wellFormed [("movie-tt1", [Samples.alternate])]) as Hwf.
  { unfold StreamCache.wellFormed. cbn. repeat constructor.
    by intros ?%elem_of_nil. }
  split; [exact Hwf|].
  apply (proj1 (proj2 (cleanup_keeps_newest _ Hwf))). cbn. lia.
Defined.

(** ** The quick episode filter *)

Section SourcesFacts.
Import Re ReSpec Aggregator Sources.

Lemma lower_e_not_digit y :
  Js.lower_ascii y = "e"%char → Js.is_digit y = false.
Proof. destruct y as [[] [] [] [] [] [] [] []]; by vm_compute. Qed.

Lemma digit_not_letter c :
  Js.is_digit c = true →
  Ascii.eqb (Js.lower_ascii c) "e" = false ∧ Ascii.eqb (Js.lower_ascii c) "s" = false.
Proof. destruct c as [[] [] [] [] [] [] [] []]; by vm_compute. Qed.

Lemma Matches_digits12 w rest :
  Matches (Cat digit (opt digit)) w rest →
  (1 ≤ length w ≤ 2)%nat ∧ Forall (λ c, Js.is_digit c = true) w.
Proof.
  inversion 1 as [| |r1 r2 w1 w2 rest' H1 H2| | | | |]; subst.
  inversion H1; subst.
  inversion H2 as [| | |r1 r2 w rest' Hleft|r1 r2 w rest' Hright| | |]; subst.
  - inversion Hleft; subst. cbn. split; [lia|]. by repeat constructor.
  - inversion Hright; subst. cbn. split; [lia|]. by repeat constructor.
Qed.

(** What the pattern of the filter matches. *)
Lemma Matches_sxxexx m post :
  Matches re_sxxexx m post →
  ∃ x D1 y D2,
    m = x :: D1 ++ y :: D2 ∧
    Js.lower_ascii x = "s"%char ∧ Js.lower_ascii y = "e"%char ∧
    (1 ≤ length D1 ≤ 2)%nat ∧ Forall (λ c, Js.is_digit c = true) D1 ∧
    (1 ≤ length D2 ≤ 2)%nat ∧ Forall (λ c, Js.is_digit c = true) D2.
Proof.
  unfold re_sxxexx.
  change (seq [lit "s"; digit; opt digit; lit "e"; digit; opt digit])
    with (Cat (chr "s") (Cat digit (Cat (opt digit)
            (Cat (chr "e") (Cat digit (opt digit)))))).
  inversion 1 as [| |r1 r2 w1 w2 rest' H1 H2| | | | |]; subst.
  apply Matches_chr in H1 as (x & -> & Hx).
  inversion H2 as [| |r1 r2 w1 w3 rest' H3 H4| | | | |]; subst.
  inversion H4 as [| |r1 r2 w4 w5 rest' H5 H6| | | | |]; subst.
  inversion H6 as [| |r1 r2 w6 w7 rest' H7 H8| | | | |]; subst.
  apply Matches_chr in H7 as (y & -> & Hy).
  assert (Matches (Cat digit (opt digit)) (w1 ++ w4) (([y] ++ w7) ++ post))
    as HD1 by (apply MCat; [by rewrite <-app_assoc in H3|done]).
  apply Matches_digits12 in HD1 as [? ?]. apply Matches_digits12 in H8 as [? ?].
  exists x, (w1 ++ w4), y, w7. cbn [app]. rewrite <-app_assoc.
  split; [done|]. split; [exact Hx|]. split; [exact Hy|].
  repeat split; first [done | lia].
Qed.

Lemma episodeOf_found title season episode :
  episodeOf title = Some (season, episode) →
  ∃ pre x D1 y D2 post,
    Js.chars title = pre ++ x :: D1 ++ y :: D2 ++ post ∧
    Js.lower_ascii x = "s"%char ∧ Js.lower_ascii y = "e"%char ∧
    (1 ≤ length D1 ≤ 2)%nat ∧ Forall (λ c, Js.is_digit c = true) D1 ∧
    (1 ≤ length D2 ≤ 2)%nat ∧ Forall (λ c, Js.is_digit c = true) D2 ∧
    season = Js.parseDigits D1 ∧ episode = Js.parseDigits D2.
Proof.
  unfold episodeOf.
  destruct (search re_sxxexx (Js.chars title)) as [m|] eqn:Hs; [|done].
  apply search_sound in Hs as (pre & post & Htitle & Hm).
  apply Matches_sxxexx in Hm
    as (x & D1 & y & D2 & -> & Hx & Hy & Hl1 & HD1 & Hl2 & HD2).
  intros [= <- <-]. exists pre, x, D1, y, D2, post.
  split; [rewrite Htitle; cbn [app]; by rewrite <-app_assoc|].
  do 6 (split; [done|]). cbn [drop]. rewrite drop_0.
  rewrite leading_digits_app by (by try apply lower_e_not_digit).
  change (x :: D1 ++ y :: D2) with ((x :: D1) ++ y :: D2).
  by rewrite trailing_digits_app by (by try apply lower_e_not_digit).
Qed.

Lemma keeps_found seasonNum episodeNum result :
  keeps seasonNum episodeNum result = true →
  ∃ pre D1 D2 post,
    Js.chars
      (Js.toLowerCase
         (Js.or_else (raw_title result)
            (Js.or_else (raw_filename result) Js.absent)))
    = pre ++ "s"%char :: D1 ++ "e"%char :: D2 ++ post ∧
    (1 ≤ length D1 ≤ 2)%nat ∧ Forall (λ c, Js.is_digit c = true) D1 ∧
    (1 ≤ length D2 ≤ 2)%nat ∧ Forall (λ c, Js.is_digit c = true) D2 ∧
    seasonNum = Some (Z.of_nat (Js.parseDigits D1)) ∧
    episodeNum = Some (Z.of_nat (Js.parseDigits D2)).
Proof.
  unfold keeps.
  set (title := Js.toLowerCase _).
  destruct (episodeOf title) as [[season episode]|] eqn:He; [|done].
  intros [Hs%bool_decide_eq_true He'%bool_decide_eq_true]%andb_true_iff.
  apply episodeOf_found in He
    as (pre & x & D1 & y & D2 & post & Htitle & Hx & Hy & ? & ? & ? & ? & -> & ->).
  assert (∀ c, c ∈ Js.chars title → Js.lower_ascii c = c) as Hlow.
  { intros c. unfold title. rewrite chars_toLowerCase.
    intros (c' & -> & _)%list_elem_of_fmap. apply lower_ascii_idem. }
  assert (x = "s"%char) as ->.
  { rewrite <-Hx. symmetry. apply Hlow. rewrite Htitle.
    apply elem_of_app. right. by left. }
  assert (y = "e"%char) as ->.
  { rewrite <-Hy. symmetry. apply Hlow. rewrite Htitle.
    apply elem_of_app. right. right. apply elem_of_app. right. by left. }
  exists pre, D1, D2, post. split; [done|].
  repeat split; first [done | lia].
Qed.

(** X24. For a series with a season and an episode, a result of a source
    that passes the quick filter shows the episode asked for: its title,
    or else its file name, in lower case, has an [s] followed by one or
    two digits, an [e] and one or two digits, and the two numbers are the
    season and the episode of the request; a result without such a marker
    is dropped. *)
Theorem filtered_shows_episode (season episode : string)
    (seasonNum episodeNum : option Z) (results : list RawStream)
    (result : RawStream) :
  Js.truthy season = true → Js.truthy episode = true →
  result ∈ filtered "series" season episode seasonNum episodeNum results →
  result ∈ results ∧
  ∃ pre D1 D2 post,
    Js.chars
      (Js.toLowerCase
         (Js.or_else (raw_title result)
            (Js.or_else (raw_filename result) Js.absent)))
    = pre ++ "s"%char :: D1 ++ "e"%char :: D2 ++ post ∧
    (1 ≤ length D1 ≤ 2)%nat ∧ Forall (λ c, Js.is_digit c = true) D1 ∧
    (1 ≤ length D2 ≤ 2)%nat ∧ Forall (λ c, Js.is_digit c = true) D2 ∧
    seasonNum = Some (Z.of_nat (Js.parseDigits D1)) ∧
    episodeNum = Some (Z.of_nat (Js.parseDigits D2)).
Proof.
  intros Hs He. unfold filtered. rewrite Hs, He.
  cbn [String.eqb Ascii.eqb Bool.eqb andb].
  intros [Hin Hkeeps]%filter_elem. split; [done|]. by apply keeps_found.
Qed.

Lemma run_cat r1 r2 s : run (Cat r1 r2) s = flat_map (run r2) (run r1 s).
Proof. reflexivity. Qed.

Lemma run_class p c s : run (Class p) (c :: s) = if p c then [s] else [].
Proof. reflexivity. Qed.

Lemma run_opt r s : run (opt r) s = run r s ++ [s].
Proof. reflexivity. Qed.

Lemma run_chr c x s :
  run (chr c) (x :: s)
  = if Ascii.eqb (Js.lower_ascii x) (Js.lower_ascii c) then [s] else [].
Proof. reflexivity. Qed.

Lemma run_digit c s : run digit (c :: s) = if Js.is_digit c then [s] else [].
Proof. reflexivity. Qed.

Lemma run_chr_other c x s :
  Ascii.eqb (Js.lower_ascii x) (Js.lower_ascii c) = false →
  ∀ r, run (Cat (chr c) r) (x :: s) = [].
Proof. intros Hx r. rewrite run_cat. unfold chr. by rewrite run_class, Hx. Qed.

Lemma run_chr_same c s r : run (Cat (chr c) r) (c :: s) = run r s.
Proof.
  rewrite run_cat. unfold chr. rewrite run_class, Ascii.eqb_refl.
  cbn [flat_map]. by rewrite app_nil_r.
Qed.

Lemma run_digit_yes c s r :
  Js.is_digit c = true → run (Cat digit r) (c :: s) = run r s.
Proof.
  intros Hc. rewrite run_cat. unfold digit. rewrite run_class, Hc.
  cbn [flat_map]. by rewrite app_nil_r.
Qed.

Lemma run_digit_no c s r :
  Js.is_digit c = false → run (Cat digit r) (c :: s) = [].
Proof. intros Hc. rewrite run_cat. unfold digit. by rewrite run_class, Hc. Qed.

Local Abbreviation sxxexx :=
  (Cat (chr "s") (Cat digit (Cat (opt digit)
     (Cat (chr "e") (Cat digit (opt digit)))))).

(** No marker starts in front of a character that is not a digit. *)
Lemma run_sxxexx_fail x y rest :
  Js.is_digit y = false → run sxxexx (x :: y :: rest) = [].
Proof.
  intros Hy. rewrite run_cat, run_chr.
  destruct (Ascii.eqb _ _); [|done]. cbn [flat_map]. rewrite app_nil_r.
  by apply run_digit_no.
Qed.

(** At a marker with a two-digit episode the match takes both digits. *)
Lemma run_sxxexx_here D1 c d post :
  (1 ≤ length D1 ≤ 2)%nat → Forall (λ x, Js.is_digit x = true) D1 →
  Js.is_digit c = true → Js.is_digit d = true →
  ∃ others,
    run sxxexx ("s"%char :: D1 ++ "e"%char :: c :: d :: post) = post :: others.
Proof.
  intros Hlen HD1 Hc Hd.
  assert (∀ s, run (Cat (chr "e") (Cat digit (opt digit)))
                 ("e"%char :: c :: d :: s) = [s; d :: s]) as Htail.
  { intros s. rewrite run_chr_same, run_digit_yes by done.
    by rewrite run_opt, run_digit, Hd. }
  rewrite run_chr_same.
  destruct D1 as [|a [|b [|? ?]]]; cbn [length] in Hlen; try lia.
  - apply Forall_cons in HD1 as [Ha _]. cbn [app].
    rewrite run_digit_yes by done. rewrite run_cat, run_opt, run_digit.
    change (Js.is_digit "e") with false. cbn [app flat_map].
    rewrite Htail. by eexists.
  - apply Forall_cons in HD1 as [Ha HD1]. apply Forall_cons in HD1 as [Hb _].
    cbn [app]. rewrite run_digit_yes by done.
    rewrite run_cat, run_opt, run_digit, Hb. cbn [app flat_map].
    rewrite Htail. by eexists.
Qed.

Lemma search_sxxexx pre D1 c d post :
  Forall (λ x, Js.is_digit x = false) pre →
  (1 ≤ length D1 ≤ 2)%nat → Forall (λ x, Js.is_digit x = true) D1 →
  Js.is_digit c = true → Js.is_digit d = true →
  search sxxexx (pre ++ "s"%char :: D1 ++ "e"%char :: c :: d :: post)
  = Some ("s"%char :: D1 ++ ["e"%char; c; d]).
Proof.
  intros Hpre Hlen HD1 Hc Hd.
  induction pre as [|x pre IH].
  - cbn [app]. destruct (run_sxxexx_here D1 c d post) as [others Hrun]; [done..|].
    apply search_here in Hrun as (w & Hw & -> & _). f_equal.
    apply (app_inv_tail post). rewrite <-Hw. cbn [app].
    by rewrite <-app_assoc.
  - apply Forall_cons in Hpre as [Hx Hpre]. cbn [app]. rewrite search_unfold.
    assert (run sxxexx (x :: pre ++ "s"%char :: D1 ++ "e"%char :: c :: d :: post)
            = []) as ->; [|by apply IH].
    destruct pre as [|y pre]; cbn [app]; apply run_sxxexx_fail; [done|].
    by apply Forall_cons in Hpre as [? _].
Qed.

(** X25. The first marker decides, and of its episode the filter reads
    two digits at most: for a title with no digit in front of a marker
    [s], one or two digits, [e] and two digits, the result is kept exactly
    when the numbers of that marker are the season and the episode asked
    for, whatever follows the two digits, a third digit included. *)
Theorem keeps_first_marker (seasonNum episodeNum : option Z)
    (result : RawStream) (pre D1 post : list ascii) (c d : ascii) :
  Js.chars
    (Js.toLowerCase
       (Js.or_else (raw_title result)
          (Js.or_else (raw_filename result) Js.absent)))
  = pre ++ "s"%char :: D1 ++ "e"%char :: c :: d :: post →
  Forall (λ x, Js.is_digit x = false) pre →
  (1 ≤ length D1 ≤ 2)%nat → Forall (λ x, Js.is_digit x = true) D1 →
  Js.is_digit c = true → Js.is_digit d = true →
  keeps seasonNum episodeNum result
  = bool_decide (seasonNum = Some (Z.of_nat (Js.parseDigits D1)))
    && bool_decide (episodeNum = Some (Z.of_nat (Js.parseDigits [c; d]))).
Proof.
  intros Htitle Hpre Hlen HD1 Hc Hd. unfold keeps, episodeOf.
  rewrite Htitle. change re_sxxexx with sxxexx.
  rewrite search_sxxexx by done. cbn [drop]. rewrite drop_0.
  rewrite leading_digits_app by done.
  change ("s"%char :: D1 ++ ["e"%char; c; d])
    with (("s"%char :: D1) ++ "e"%char :: [c; d]).
  rewrite trailing_digits_app by (by repeat constructor).
  f_equal; apply bool_decide_ext; naive_solver.
Qed.

End SourcesFacts.

Lemma filtered_shows_episode_witness :
  let result :=
    {| Aggregator.raw_title := "Show S01E02 1080p";
       Aggregator.raw_filename := Js.absent;
       Aggregator.raw_magnetLink := Cases.hex_magnet;
       Aggregator.raw_quality := Js.absent;
       Aggregator.raw_size := Js.absent;
       Aggregator.raw_source := "Extto" |} in
  result ∈ Sources.filtered "series" "1" "2" (Some 1) (Some 2)
             [Samples.first_release; result] ∧
  ∃ pre D1 D2 post,
    Js.chars "show s01e02 1080p"
    = pre ++ "s"%char :: D1 ++ "e"%char :: D2 ++ post ∧
    Some 1 = Some (Z.of_nat (Js.parseDigits D1)) ∧
    Some 2 = Some (Z.of_nat (Js.parseDigits D2)).
Proof.
  intros result.
  assert (result ∈ Sources.filtered "series" "1" "2" (Some 1) (Some 2)
                     [Samples.first_release; result]) as Hin.
  { vm_compute. left. }
  split; [exact Hin|].
  destruct (filtered_shows_episode "1" "2" (Some 1) (Some 2) _ _
              eq_refl eq_refl Hin)
    as (_ & pre & D1 & D2 & post & Htitle & _ & _ & _ & _ & Hs & He).
  by exists pre, D1, D2, post.
Defined.

Lemma keeps_first_marker_witness :
  Sources.keeps (Some 1) (Some 10)
    {| Aggregator.raw_title := "Show S01E100";
       Aggregator.raw_filename := Js.absent;
       Aggregator.raw_magnetLink := Cases.hex_magnet;
       Aggregator.raw_quality := Js.absent;
       Aggregator.raw_size := Js.absent;
       Aggregator.raw_source := "Extto" |} = true.
Proof.
  rewrite (keeps_first_marker (Some 1) (Some 10) _
             (Js.chars "show ") (Js.chars "01") (Js.chars "0") "1" "0");
    [reflexivity|reflexivity|by repeat constructor|cbn; lia|
     by repeat constructor|reflexivity|reflexivity].
Defined.


(** ** RealDebrid behind the resolve handler *)

Section RealDebridResolution.
Import Resolver Resolution.
Variable extractInfoHash : string → option string.
Variable parseQuality : string → Z.

(** The handler in terms of its provider calls. *)
Lemma attempt_steps debridServices decoded streamCache magnetLink cacheKey
    infoHash :
  debridServices ≠ [] →
  decodedFields decoded = inl (magnetLink, cacheKey) →
  extractInfoHash magnetLink = Some infoHash →
  Js.truthy infoHash = true →
  attempt extractInfoHash parseQuality debridServices decoded streamCache
  = Resolver.bind
      (firstOutcome
         (steps debridServices (contentOf cacheKey).1.1
            (contentOf cacheKey).1.2 (contentOf cacheKey).2
            (targets parseQuality magnetLink (Js.toLowerCase infoHash)
               cacheKey streamCache)))
      (λ _, Raise (error "No cached stream available from any debrid service")).
Proof.
  intros Hne Hdec Hhash Htruthy. unfold attempt.
  destruct debridServices as [|service rest]; [done|]. cbn [length Nat.eqb].
  rewrite Hdec, Hhash. cbn [fmap option_fmap option_map].
  destruct (contentOf cacheKey) as [[contentType season] episode]. cbn [fst snd].
  rewrite toLowerCase_truthy, Htruthy. cbn [negb].
  unfold targets, steps. rewrite bind_cons, firstOutcome_app. cbn [fst snd].
  rewrite tryServices_firstOutcome.
  destruct (firstOutcome (tryService magnetLink (Js.toLowerCase infoHash)
                            contentType season episode <$> service :: rest))
    as [[]|r|t]; cbn [Resolver.bind]; [|done..].
  destruct (if Js.truthy cacheKey then streamCache !! cacheKey else None)
    as [cachedStreams|]; [|done].
  by rewrite (tryFallbacks_firstOutcome (service :: rest)).
Qed.

(** Steps that go on or throw a type error never redirect. *)
Lemma firstOutcome_soft (l : list (Flow unit)) :
  Forall (λ step, step = Go tt ∨ step = Raise typeError) l →
  firstOutcome l = Go tt ∨ firstOutcome l = Raise typeError.
Proof.
  induction 1 as [|step l [-> | ->] _ IH]; cbn [firstOutcome];
    [by left|exact IH|by right].
Qed.

Lemma tryService_realdebrid_movie service magnetLink hash season episode :
  RealDebrid.instance service →
  tryService magnetLink hash "movie" season episode service = Go tt ∨
  tryService magnetLink hash "movie" season episode service = Raise typeError.
Proof.
  intros (Hname & Hkind & Hcall). unfold tryService, getValidStreamingUrl.
  rewrite Hname, Hkind. cbn [Js.or_else Js.truthy String.eqb Ascii.eqb Bool.eqb andb].
  destruct (Hcall magnetLink (Some "movie") season episode) as (api & log & ->).
  destruct (getCachedUrl_movie api magnetLink (Some "movie") season episode
              eq_refl) as [_ Hb].
  destruct (Hb log) as [thrown ->]. cbn [RealDebrid.outcome].
  destruct thrown as [[message|]|]; [by left|by right..].
Qed.

(** X26. With RealDebrid as the only kind of service configured, a
    request for a movie is never redirected: every call of
    [getCachedUrl], for the magnet link asked for and for each stored
    alternate, ends in a thrown error, and the handler answers 404. *)
Theorem realdebrid_never_serves_movie (debridServices : list Service)
    (decoded : Decoded) (streamCache : gmap string (list FallbackEntry))
    (magnetLink cacheKey infoHash : string) :
  debridServices ≠ [] →
  Forall RealDebrid.instance debridServices →
  decodedFields decoded = inl (magnetLink, cacheKey) →
  extractInfoHash magnetLink = Some infoHash →
  Js.truthy infoHash = true →
  (contentOf cacheKey).1.1 = "movie" →
  ∃ details,
    handle extractInfoHash parseQuality debridServices decoded streamCache
    = Sent (JsonError 404 "Stream not available" (Some details)).
Proof.
  intros Hne Hrd Hdec Hhash Htruthy Hmovie. unfold handle.
  rewrite (attempt_steps _ _ _ magnetLink cacheKey infoHash) by done.
  rewrite Hmovie.
  destruct (firstOutcome_soft
              (steps debridServices "movie" (contentOf cacheKey).1.2
                 (contentOf cacheKey).2
                 (targets parseQuality magnetLink (Js.toLowerCase infoHash)
                    cacheKey streamCache))) as [-> | ->].
  - unfold steps. apply Forall_forall. intros step Hstep.
    apply list_elem_of_bind in Hstep as (target & Hstep & _).
    apply list_elem_of_fmap in Hstep as (service & -> & Hservice).
    apply tryService_realdebrid_movie. by eapply Forall_forall in Hrd.
  - by eexists.
  - by eexists.
Qed.

End RealDebridResolution.

Lemma realdebrid_never_serves_movie_witness :
  ∃ details,
    Resolver.handle Aggregator.extractHash (λ _, 0)
      [Cases.realdebrid_service] Samples.movie_request Samples.fallback_cache
    = Resolver.Sent
        (Resolver.JsonError 404 "Stream not available" (Some details)).
Proof.
  apply (realdebrid_never_serves_movie Aggregator.extractHash (λ _, 0)
           [Cases.realdebrid_service] Samples.movie_request
           Samples.fallback_cache
           "magnet:?xt=urn:btih:abcdef0123456789abcdef0123456789abcdef01"
           "movie-tt0111161" "abcdef0123456789abcdef0123456789abcdef01").
  - done.
  - repeat constructor. intros magnetLink type season episode.
    by exists Cases.realdebrid_ready, [].
  - reflexivity.
  - by vm_compute.
  - reflexivity.
  - reflexivity.
Defined.

(** ** The alternates, from the stream endpoint to the resolve handler *)

Section FallbackFacts.
Import Response Resolution.
Variables parseQuality parseSize : string → Z.
Variable checkRDCache :
  Backend → list Aggregator.Candidate → option (gmap string Prober.Entry).

(** X27. The alternates the resolve handler tries for a cache key are
    streams the stream endpoint stored under it: when the services are
    checked by the helper of [index.js], every magnet link tried besides
    the one asked for is the link of a candidate of the aggregator, paired
    with its hash, and that hash differs from the hash asked for. *)
Theorem alternates_are_candidates (backends : list Backend)
    (raced : option (list Aggregator.Settled))
    (streamCache : gmap string (list Resolver.FallbackEntry))
    (magnetLink hash cacheKey : string) (target : string * string) :
  Forall viaHelper backends →
  Js.truthy cacheKey = true →
  let processed :=
    allProcessedStreams checkRDCache backends
      (Endpoint.limitedStreams parseQuality parseSize
         (Aggregator.getStreams raced)) in
  target ∈ targets parseQuality magnetLink hash cacheKey
             (<[cacheKey := fallbackOf <$> processed]> streamCache) →
  target = (magnetLink, hash) ∨
  ∃ c, c ∈ Aggregator.getStreams raced ∧
       target = (Aggregator.magnetLink c, Aggregator.hash c) ∧
       Aggregator.hash c ≠ hash.
Proof.
  intros Hvia Hkey processed. unfold targets.
  rewrite Hkey, lookup_insert_eq.
  intros [->|Htarget]%elem_of_cons; [by left|]. right.
  apply list_elem_of_fmap in Htarget as (f & -> & Hf).
  unfold Resolver.sortedFallbacks in Hf. apply js_sort_elem in Hf.
  apply filter_elem in Hf as [Hf Hne%negb_true_iff%String.eqb_neq].
  apply list_elem_of_fmap in Hf as (p & -> & Hp).
  apply allProcessedStreams_elem in Hp as (backend & map & Hb & Hmap & Hp).
  apply serviceStreams_elem in Hp as (h & entry & Hentry & _ & _ & ->).
  assert (viaHelper backend) as Hhelper by (by eapply Forall_forall in Hvia).
  destruct (helper_entry parseQuality parseSize checkRDCache raced backend
              map h entry Hhelper Hmap Hentry) as (c & Hc & Hl & _ & Hh).
  exists c. cbn [fallbackOf Prober.stream Resolver.magnetLink Resolver.hash] in *.
  split; [done|]. rewrite Hl, Hh in *. by split.
Qed.

(** X28. The cache check Premiumize gets from the stream endpoint is
    small: the hundred candidates kept at most make two batches at most,
    and the check sends six requests at most, whatever the service
    answers. *)
Theorem endpoint_check_cost (api : Premiumize.Api)
    (newStreams : list Aggregator.Candidate) (log : list Premiumize.Request) :
  let hashes :=
    Prober.lowerHash
      <$> Prober.validStreams
            (Some <$> Endpoint.limitedStreams parseQuality parseSize newStreams) in
  (length hashes ≤ 100)%nat ∧
  (length (Premiumize.makeBatches hashes) ≤ 2)%nat ∧
  ∃ sent,
    (Premiumize.checkCacheStatuses api hashes log).2 = log ++ sent ∧
    (length sent ≤ 6)%nat.
Proof.
  intros hashes.
  assert (length hashes ≤ 100)%nat as Hlen.
  { unfold hashes. rewrite length_fmap.
    etrans; [apply length_validStreams|].
    rewrite length_fmap. unfold Endpoint.limitedStreams.
    rewrite length_take. lia. }
  assert (length (Premiumize.makeBatches hashes) ≤ 2)%nat as Hbatches.
  { rewrite makeBatches_length.
    etrans; [apply (Nat.Div0.div_le_mono _ 198 99); lia|done]. }
  split; [done|]. split; [done|].
  unfold Premiumize.checkCacheStatuses.
  destruct (checkBatches_requests api (Premiumize.makeBatches hashes) ∅ log)
    as (sent & Hsent & _ & Hcount & _).
  exists sent. split; [|lia].
  by destruct (Premiumize.checkBatches api (Premiumize.makeBatches hashes) ∅ log)
    as [[?|?] ?].
Qed.

End FallbackFacts.

Lemma alternates_are_candidates_witness :
  let target :=
    ("magnet:?xt=urn:btih:0123456789abcdef0123456789abcdef01234567",
     "0123456789abcdef0123456789abcdef01234567") in
  Forall Response.viaHelper [Cases.premiumize_backend] ∧
  (target = ("magnet:?xt=urn:btih:abcdef0123456789abcdef0123456789abcdef01",
             "abcdef0123456789abcdef0123456789abcdef01") ∨
   ∃ c, c ∈ Aggregator.getStreams (Some Samples.two_backends) ∧
        target = (Aggregator.magnetLink c, Aggregator.hash c) ∧
        Aggregator.hash c ≠ "abcdef0123456789abcdef0123456789abcdef01").
Proof.
  intros target.
  assert (Forall Response.viaHelper [Cases.premiumize_backend]) as Hvia.
  { repeat constructor; by vm_compute. }
  split; [exact Hvia|].
  apply (alternates_are_candidates (λ _, 1080) (λ _, 2000) (λ _ _, None)
           [Cases.premiumize_backend] (Some Samples.two_backends) ∅
           "magnet:?xt=urn:btih:abcdef0123456789abcdef0123456789abcdef01"
           "abcdef0123456789abcdef0123456789abcdef01" "movie-tt0111161"
           target Hvia eq_refl).
  unfold Resolution.targets. cbn [Js.truthy]. rewrite lookup_insert_eq.
  right. vm_compute. left.
Defined.
